(** * life_optimized: a bit-packed Game of Life kernel

    Shallow embedding of [src/life_optimized.cpp].  A [uint64_t] is a [Z] with
    its wrap-around written out ([wrap64]), a [uint32_t] likewise ([wrap32]).
    The board buffer is a list of words; every access goes through [load] and
    [store], which fail outside the buffer, so that a run of [advance] that
    returns [Some] performed only in-bounds accesses.

    The file has four parts: the kernel and [main]'s initialisation as the
    source writes them; the views of a board (lanes, cells, grid) and the
    reference simulation the statements are about; lemmas, from the
    arithmetic of 4-bit lanes up to one row and one generation; the
    properties of the kernel, C1 to C10; and the rest of the program
    ([print_board], [main], the kernel outside of its contract), X1 to X9. *)

From Stdlib Require Import ZArith Lia List Bool String Ascii.
From stdpp Require Import base list.

Local Open Scope Z_scope.

(** ** Machine integers *)

Definition wrap64 (x : Z) : Z := x mod 2 ^ 64.
Definition wrap32 (x : Z) : Z := x mod 2 ^ 32.

(** ** Layout constants

    [R] and [C] are compile-time constants of the source; they are kept as the
    two fields of a configuration so that the kernel can also be run on small
    boards.  [life_optimized] is the configuration of the source. *)

Record Config : Type := { R : Z; C : Z }.

Definition life_optimized : Config := {| R := Z.shiftl 1 10; C := Z.shiftl 1 11 |}.

Definition GROUP_BIT_SIZE : Z := 64.
Definition CELLS_PER_GROUP : Z := wrap32 (GROUP_BIT_SIZE / 4).
Definition GROUPS_PER_ROW (cfg : Config) : Z :=
  wrap32 (wrap32 (C cfg / CELLS_PER_GROUP) + 1).
Definition BOARD_SIZE_GROUPS (cfg : Config) : Z :=
  wrap32 (GROUPS_PER_ROW cfg * wrap32 (R cfg + 2)).

Definition TOP_NYBBLET_BITTMASK : Z := 0xCCCCCCCCCCCCCCCC.
Definition LOW_BIT_NYBBLE_BITMASK : Z := 0x1111111111111111.

(** The layout constants are [uint32_t]: the configuration is usable when none
    of them wraps. *)
Definition fits_uint32 (cfg : Config) : Prop :=
  0 <= R cfg /\ 0 <= C cfg /\ (C cfg / 16 + 1) * (R cfg + 2) < 2 ^ 32.

(** ** The board and its accesses *)

Abbreviation Board := (list Z).

(** Computations over the board: the state is the buffer, [None] is an access
    outside of it. *)
Definition M (A : Type) : Type := Board -> option (A * Board).

Definition ret {A : Type} (a : A) : M A := fun b => Some (a, b).

Definition bind {A B : Type} (m : M A) (k : A -> M B) : M B :=
  fun b => match m b with
           | Some (a, b') => k a b'
           | None => None
           end.

Notation "x <- m ;; k" := (bind m (fun x => k))
  (at level 100, m at next level, right associativity).

(** [board[i]] as an rvalue. *)
Definition load (i : Z) : M Z :=
  fun b => if 0 <=? i
           then match b !! Z.to_nat i with
                | Some w => Some (w, b)
                | None => None
                end
           else None.

(** [board[i] = w]. *)
Definition store (i : Z) (w : Z) : M unit :=
  fun b => if (0 <=? i) && (i <? Z.of_nat (length b))
           then Some (tt, <[Z.to_nat i := w]> b)
           else None.

(** [for (i = lo; n iterations; i++) s = body i s]. *)
Fixpoint for_loop {S : Type} (n : nat) (i : Z) (body : Z -> S -> M S) (s : S) : M S :=
  match n with
  | O => ret s
  | S n' => s' <- body i s ;; for_loop n' (i + 1) body s'
  end.

(** [for (i = lo; i < hi; i++)]. *)
Definition for_range {S : Type} (lo hi : Z) (body : Z -> S -> M S) (s : S) : M S :=
  for_loop (Z.to_nat (hi - lo)) lo body s.

(** ** The kernel *)

(** Returns the column sums and, second, the value left in [group_val_out]. *)
Definition getColSumsForGroup (cfg : Config) (group_index : Z) : M (Z * Z) :=
  w <- load group_index ;;
  let group_val_out := Z.land w LOW_BIT_NYBBLE_BITMASK in
  let colSums := group_val_out in
  wt <- load (wrap64 (group_index - GROUPS_PER_ROW cfg)) ;;
  let topvals := Z.land (Z.shiftr wt 1) LOW_BIT_NYBBLE_BITMASK in
  wb <- load (wrap64 (group_index + GROUPS_PER_ROW cfg)) ;;
  let botvals := Z.land wb LOW_BIT_NYBBLE_BITMASK in
  let colSums := wrap64 (colSums + wrap64 (topvals + botvals)) in
  ret (colSums, group_val_out).

Definition neighborSumToStateBit (sum_neighbors group_value : Z) : Z :=
  let sum_neighbors := wrap64 (sum_neighbors - group_value) in
  let sum_neighbors := Z.lor sum_neighbors group_value in
  let sum_neighbors := Z.lxor sum_neighbors TOP_NYBBLET_BITTMASK in
  let sum_neighbors := Z.land sum_neighbors (Z.shiftr sum_neighbors 2) in
  let sum_neighbors := Z.land sum_neighbors (Z.shiftr sum_neighbors 1) in
  let sum_neighbors := Z.land sum_neighbors LOW_BIT_NYBBLE_BITMASK in
  sum_neighbors.

(** The three column sums of the sliding window and the self lanes of the
    group fetched last: the locals of [runRow] that live across iterations. *)
Record Pipeline : Type := {
  prev_col_sum : Z;
  curr_col_sums : Z;
  next_col_sums : Z;
  next_group_vals : Z
}.

Definition moveColSumsDownPipeline (p : Pipeline) : Pipeline :=
  {| prev_col_sum := curr_col_sums p;
     curr_col_sums := next_col_sums p;
     next_col_sums := next_col_sums p;
     next_group_vals := next_group_vals p |}.

Definition updateBoardIndex (board_index new_state_bit_values prev_board_state : Z) : M unit :=
  let prev_state_shifted :=
    wrap64 (Z.shiftl (Z.land prev_board_state LOW_BIT_NYBBLE_BITMASK) 1) in
  let prev_state_shifted :=
    Z.lor prev_state_shifted (Z.land new_state_bit_values LOW_BIT_NYBBLE_BITMASK) in
  store board_index prev_state_shifted.

Definition createLeftNeighborsFromColSums (curr_col_sums prev_col_sum : Z) : Z :=
  let left_neighbors := Z.shiftr curr_col_sums 4 in
  let prev_carry_cell := wrap64 (Z.shiftl prev_col_sum 60) in
  Z.lor left_neighbors prev_carry_cell.

Definition createRightNeighborsFromColSums (curr_col_sums next_col_sums : Z) : Z :=
  let right_neighbors := wrap64 (Z.shiftl curr_col_sums 4) in
  let next_carry_cell := Z.shiftr next_col_sums 60 in
  let out := Z.lor right_neighbors next_carry_cell in
  out.

(** One iteration of the loop of [runRow].  ([current_neighbors] is the sum
    [curr_col_sums + left + right] of line 72 of the source, whose stray
    closing parenthesis is dropped.) *)
Definition runRow_body (cfg : Config) (row_start_index : Z) (group : Z) (p : Pipeline)
  : M Pipeline :=
  let p := moveColSumsDownPipeline p in
  let curr_group_vals := next_group_vals p in
  fetched <- getColSumsForGroup cfg (wrap32 (row_start_index + group)) ;;
  let '(sums, vals) := fetched in
  let p := {| prev_col_sum := prev_col_sum p;
              curr_col_sums := curr_col_sums p;
              next_col_sums := sums;
              next_group_vals := vals |} in
  let left := createLeftNeighborsFromColSums (curr_col_sums p) (prev_col_sum p) in
  let right := createRightNeighborsFromColSums (curr_col_sums p) (next_col_sums p) in
  let current_neighbors := wrap64 (wrap64 (curr_col_sums p + left) + right) in
  let new_state := neighborSumToStateBit current_neighbors curr_group_vals in
  _ <- updateBoardIndex (wrap32 (wrap32 (row_start_index + group) - 1))
         new_state curr_group_vals ;;
  ret p.

Definition runRow (cfg : Config) (row : Z) : M unit :=
  let row_start_index := wrap32 (row * GROUPS_PER_ROW cfg) in
  fetched <- getColSumsForGroup cfg row_start_index ;;
  let '(sums, vals) := fetched in
  let p := {| prev_col_sum := 0; curr_col_sums := 0;
              next_col_sums := sums; next_group_vals := vals |} in
  _ <- for_range 1 (GROUPS_PER_ROW cfg) (runRow_body cfg row_start_index) p ;;
  ret tt.

(** The rows in increasing order, one after the other. *)
Definition advance (cfg : Config) : M unit :=
  for_range 1 (wrap32 (R cfg + 1)) (fun row _ => runRow cfg row) tt.

(** [advance] repeated, as the timing loop of [main] does. *)
Fixpoint advance_reps (cfg : Config) (reps : nat) : M unit :=
  match reps with
  | O => ret tt
  | S reps' => _ <- advance cfg ;; advance_reps cfg reps'
  end.

(** Rows run one after the other in a given order: one serialisation of the
    [omp parallel for] of [advance], whose iterations may be executed in any
    order.  [advance] is the increasing order. *)
Fixpoint advance_schedule (cfg : Config) (rows : list Z) : M unit :=
  match rows with
  | [] => ret tt
  | row :: rows' => _ <- runRow cfg row ;; advance_schedule cfg rows'
  end.

(** ** Reading a board *)

(** Lane [i] of a word; lane 0 is the least significant nybble. *)
Definition lane (i : Z) (x : Z) : Z := Z.land (Z.shiftr x (4 * i)) 15.

(** The word at an index, for statements; 0 outside the buffer. *)
Definition word_at (b : Board) (i : Z) : Z :=
  if 0 <=? i then default 0 (b !! Z.to_nat i) else 0.

(** Rows are numbered with the border: 0 is the top border row, [R + 1] the
    bottom one.  Columns count the cells of a row from the left, padding
    included.  [main] shifts the first cell of a group up to its top lane and
    [print_board] prints the top nybble first, so column [col] sits in lane
    [15 - col mod 16] of group [col / 16]. *)
Definition cell_group (cfg : Config) (row col : Z) : Z :=
  row * GROUPS_PER_ROW cfg + col / CELLS_PER_GROUP.
Definition cell_lane (col : Z) : Z :=
  CELLS_PER_GROUP - 1 - col mod CELLS_PER_GROUP.

(** Bit 0 of the lane of a cell: its current state. *)
Definition alive (cfg : Config) (b : Board) (row col : Z) : bool :=
  Z.testbit (word_at b (cell_group cfg row col)) (4 * cell_lane col).
(** Bit 1: its state one generation earlier. *)
Definition previous (cfg : Config) (b : Board) (row col : Z) : bool :=
  Z.testbit (word_at b (cell_group cfg row col)) (4 * cell_lane col + 1).

(** Number of real (non padding) cells of a row. *)
Definition real_columns (cfg : Config) : Z :=
  (GROUPS_PER_ROW cfg - 1) * CELLS_PER_GROUP.

Definition indices (n : Z) : list Z := map Z.of_nat (seq 0 (Z.to_nat n)).

(** The alive/dead grid of the interior: what [print_board] shows, row by
    row, one boolean per printed digit. *)
Definition grid_of_board (cfg : Config) (b : Board) : list (list bool) :=
  map (fun r => map (fun c => alive cfg b (r + 1) c) (indices (real_columns cfg)))
      (indices (R cfg)).

(** Index of a word that holds interior cells: a real group of a row in 1..R. *)
Definition interior_index (cfg : Config) (i : Z) : Prop :=
  exists row group, 1 <= row <= R cfg /\ 0 <= group < GROUPS_PER_ROW cfg - 1 /\
                    i = row * GROUPS_PER_ROW cfg + group.

(** The border rows and the padding group of every row are zero. *)
Definition border_zero (cfg : Config) (b : Board) : Prop :=
  forall row group, 0 <= row <= R cfg + 1 -> 0 <= group < GROUPS_PER_ROW cfg ->
    row = 0 \/ row = R cfg + 1 \/ group = GROUPS_PER_ROW cfg - 1 ->
    word_at b (row * GROUPS_PER_ROW cfg + group) = 0.

(** Every word is a [uint64_t] whose lanes have bits 2 and 3 clear. *)
Definition lanes_two_bit (b : Board) : Prop :=
  forall w, w ∈ b -> 0 <= w < 2 ^ 64 /\ Z.land w TOP_NYBBLET_BITTMASK = 0.

(** ** Reference simulation

    The second side of the refinement, written after the spec's words (the
    testable property "equivalence to naive simulation"): a straightforward
    per-cell simulation, the textbook rule applied to every cell of a grid,
    the new grid built from the old one only (an explicit double buffer),
    cells outside the grid dead. *)

Definition grid_get (g : list (list bool)) (r c : Z) : bool :=
  if (0 <=? r) && (0 <=? c)
  then nth (Z.to_nat c) (nth (Z.to_nat r) g []) false
  else false.

Definition live_neighbours (g : list (list bool)) (r c : Z) : Z :=
  Z.b2z (grid_get g (r - 1) (c - 1)) + Z.b2z (grid_get g (r - 1) c)
  + Z.b2z (grid_get g (r - 1) (c + 1))
  + Z.b2z (grid_get g r (c - 1)) + Z.b2z (grid_get g r (c + 1))
  + Z.b2z (grid_get g (r + 1) (c - 1)) + Z.b2z (grid_get g (r + 1) c)
  + Z.b2z (grid_get g (r + 1) (c + 1)).

(** Alive next iff three live neighbours, or alive with two. *)
Definition life_rule (self : bool) (neighbor_count : Z) : bool :=
  (neighbor_count =? 3) || (self && (neighbor_count =? 2)).

Definition reference_step (g : list (list bool)) : list (list bool) :=
  imap (fun r row =>
          imap (fun c self =>
                  life_rule self (live_neighbours g (Z.of_nat r) (Z.of_nat c)))
               row)
       g.

Fixpoint reference_run (steps : nat) (g : list (list bool)) : list (list bool) :=
  match steps with
  | O => g
  | S steps' => reference_run steps' (reference_step g)
  end.

(** ** Board initialisation of [main]

    [draw n] is what the [n]-th call of [rand()] returns after [srand(0)]
    (the C library fixes the sequence for a seed, not its values). *)

(** The loop over the cells of a group: the state is the number of values
    drawn so far and [groupValue]. *)
Definition init_cell (draw : nat -> Z) (cell : Z) (st : nat * Z) : M (nat * Z) :=
  let groupValue := wrap64 (Z.shiftl (snd st) 4) in
  let groupValue := Z.lor groupValue (Z.b2z (Z.rem (draw (fst st)) 2 =? 0)) in
  ret (S (fst st), groupValue).

Definition init_group (cfg : Config) (draw : nat -> Z) (rowStartIndex col : Z) (drawn : nat)
  : M nat :=
  let groupIndex := wrap32 (rowStartIndex + col) in
  st <- for_range 0 CELLS_PER_GROUP (init_cell draw) (drawn, 0) ;;
  _ <- store groupIndex (snd st) ;;
  ret (fst st).

Definition init_board (cfg : Config) (draw : nat -> Z) : M nat :=
  for_range 1 (wrap32 (R cfg + 1))
    (fun row drawn =>
       let rowStartIndex := wrap32 (row * GROUPS_PER_ROW cfg) in
       for_range 0 (wrap32 (GROUPS_PER_ROW cfg - 1))
                 (init_group cfg draw rowStartIndex) drawn)
    0%nat.

Definition calloc (n : Z) : Board := replicate (Z.to_nat n) 0.

(** The board [main] has built when it reaches the timing loop, for a command
    line [argv] ([argc] is its length); [None] when it builds none.
    [rand_after seed] is the sequence [rand()] returns after [srand(seed)]. *)
Definition main_board (cfg : Config) (rand_after : Z -> nat -> Z) (argv : list string)
  : option Board :=
  if (length argv =? 3)%nat
  then match init_board cfg (rand_after 0) (calloc (BOARD_SIZE_GROUPS cfg)) with
       | Some (_, board) => Some board
       | None => None
       end
  else None.

(** ** Auxiliary definitions for the statements and proofs *)

(** The self lanes and the column sums [getColSumsForGroup] computes. *)
Definition self_vals (b : Board) (idx : Z) : Z :=
  Z.land (word_at b idx) LOW_BIT_NYBBLE_BITMASK.

Definition col_sums (cfg : Config) (b : Board) (idx : Z) : Z :=
  self_vals b idx
  + (Z.land (Z.shiftr (word_at b (idx - GROUPS_PER_ROW cfg)) 1) LOW_BIT_NYBBLE_BITMASK
     + Z.land (word_at b (idx + GROUPS_PER_ROW cfg)) LOW_BIT_NYBBLE_BITMASK).

(** The assembled 3x3 sum of [runRow], from the three column sums of the
    window. *)
Definition neighbor_sum (curr prev next : Z) : Z :=
  wrap64 (wrap64 (curr + createLeftNeighborsFromColSums curr prev)
          + createRightNeighborsFromColSums curr next).

(** A [uint64_t] whose lanes are all at most [m]. *)
Definition lanes_le (m x : Z) : Prop :=
  0 <= x < 2 ^ 64 /\ forall i, 0 <= i < 16 -> lane i x <= m.

(** The word [updateBoardIndex] stores. *)
Definition packed_word (new_state prev_state : Z) : Z :=
  Z.lor (wrap64 (Z.shiftl (Z.land prev_state LOW_BIT_NYBBLE_BITMASK) 1))
        (Z.land new_state LOW_BIT_NYBBLE_BITMASK).

(** The word [runRow] writes for group [g] of the row that starts at [rs],
    as a function of the board it started from. *)
Definition next_word (cfg : Config) (b : Board) (rs g : Z) : Z :=
  let prev := if g =? 0 then 0 else col_sums cfg b (rs + g - 1) in
  let curr := col_sums cfg b (rs + g) in
  let next := col_sums cfg b (rs + g + 1) in
  packed_word
    (neighborSumToStateBit (neighbor_sum curr prev next) (self_vals b (rs + g)))
    (self_vals b (rs + g)).

(** The board with the first [k] groups of the row rewritten. *)
Definition row_prefix (cfg : Config) (b : Board) (rs k : Z) : Board :=
  imap (fun i w => if (rs <=? Z.of_nat i) && (Z.of_nat i <? rs + k)
                   then next_word cfg b rs (Z.of_nat i - rs) else w) b.

(** The locals of [runRow] after [k] iterations. *)
Definition pipeline_at (cfg : Config) (b : Board) (rs k : Z) : Pipeline :=
  {| prev_col_sum := if k <=? 1 then 0 else col_sums cfg b (rs + k - 2);
     curr_col_sums := if k =? 0 then 0 else col_sums cfg b (rs + k - 1);
     next_col_sums := col_sums cfg b (rs + k);
     next_group_vals := self_vals b (rs + k) |}.

(** Live cells around lane [i] of group [g] of the row that starts at [rs],
    from the column sums. *)
Definition window_count (cfg : Config) (b : Board) (rs g i : Z) : Z :=
  lane i (col_sums cfg b (rs + g))
  + (if i =? 15 then (if g =? 0 then 0 else lane 0 (col_sums cfg b (rs + (g - 1))))
     else lane (i + 1) (col_sums cfg b (rs + g)))
  + (if i =? 0 then lane 15 (col_sums cfg b (rs + (g + 1)))
     else lane (i - 1) (col_sums cfg b (rs + g)))
  - Z.b2z (Z.testbit (word_at b (rs + g)) (4 * i)).

(** What [getColSumsForGroup] adds up for a column of a row: the cell, the
    previous state of the cell above, the cell below; nothing left of
    column 0. *)
Definition column_sum (cfg : Config) (b : Board) (row col : Z) : Z :=
  if col <? 0 then 0
  else Z.b2z (alive cfg b row col)
       + (Z.b2z (previous cfg b (row - 1) col) + Z.b2z (alive cfg b (row + 1) col)).

(** The neighbor count [runRow] evaluates the rule on. *)
Definition seen_count (cfg : Config) (b : Board) (row col : Z) : Z :=
  column_sum cfg b row col + column_sum cfg b row (col - 1)
  + column_sum cfg b row (col + 1) - Z.b2z (alive cfg b row col).

(** Live cells among the eight neighbours of a cell of the board. *)
Definition live_around (cfg : Config) (b : Board) (row col : Z) : Z :=
  Z.b2z (alive cfg b (row - 1) (col - 1)) + Z.b2z (alive cfg b (row - 1) col)
  + Z.b2z (alive cfg b (row - 1) (col + 1))
  + Z.b2z (alive cfg b row (col - 1)) + Z.b2z (alive cfg b row (col + 1))
  + Z.b2z (alive cfg b (row + 1) (col - 1)) + Z.b2z (alive cfg b (row + 1) col)
  + Z.b2z (alive cfg b (row + 1) (col + 1)).

(** The board after the rows of a schedule, each row rewritten from the
    board the rows before it left. *)
Definition after_schedule (cfg : Config) (rows : list Z) (b : Board) : Board :=
  fold_left (fun b row => row_prefix cfg b (row * GROUPS_PER_ROW cfg)
                                     (GROUPS_PER_ROW cfg - 1)) rows b.

(** The board after the first [n] rows of a generation. *)
Fixpoint after_rows (cfg : Config) (n : nat) (b : Board) : Board :=
  match n with
  | O => b
  | S n' => row_prefix cfg (after_rows cfg n' b)
                       (Z.of_nat n * GROUPS_PER_ROW cfg) (GROUPS_PER_ROW cfg - 1)
  end.

(** The state of the board when [k] rows of a generation started from [b0]
    are done: the cells of these rows hold the next generation in bit 0 and
    the generation of [b0] in bit 1; the other rows, the border and the
    padding are as in [b0]. *)
Record rows_done (cfg : Config) (b0 : Board) (k : Z) (b : Board) : Prop := {
  done_length : length b = length b0;
  done_cells : forall row col,
    1 <= row <= k -> 0 <= col < real_columns cfg ->
    alive cfg b row col
      = life_rule (alive cfg b0 row col) (live_around cfg b0 row col) /\
    previous cfg b row col = alive cfg b0 row col;
  done_frame : forall row group,
    0 <= group < GROUPS_PER_ROW cfg ->
    row <= 0 \/ k < row \/ group = GROUPS_PER_ROW cfg - 1 ->
    word_at b (row * GROUPS_PER_ROW cfg + group)
    = word_at b0 (row * GROUPS_PER_ROW cfg + group)
}.

(** The inputs of the rule evaluator: per lane, a neighbor count [n i] in
    0..8 and a self bit [s i]; the sum word holds [n i + s i], the self word
    [s i]. *)
Definition rule_inputs (sum self : Z) (n s : Z -> Z) : Prop :=
  0 <= sum < 2 ^ 64 /\ 0 <= self < 2 ^ 64 /\
  forall i, 0 <= i < 16 ->
    0 <= n i <= 8 /\ (s i = 0 \/ s i = 1) /\
    lane i sum = n i + s i /\ lane i self = s i.

(** Only bit 0 of a lane may be set. *)
Definition low_bits_only (w : Z) : Prop := Z.land w LOW_BIT_NYBBLE_BITMASK = w.

(** What [main] builds: a buffer of the right size whose words have bit 0 of
    their lanes only, and only in the real groups of the rows 1..R. *)
Definition initial_board (cfg : Config) (b : Board) : Prop :=
  Z.of_nat (length b) = BOARD_SIZE_GROUPS cfg /\
  forall j, low_bits_only (word_at b j) /\
            (~ interior_index cfg j -> word_at b j = 0).

(** A decision procedure for [border_zero]. *)
Definition border_zero_check (cfg : Config) (b : Board) : bool :=
  forallb (fun row =>
    forallb (fun group =>
      implb ((row =? 0) || (row =? R cfg + 1) || (group =? GROUPS_PER_ROW cfg - 1))
            (word_at b (row * GROUPS_PER_ROW cfg + group) =? 0))
      (indices (GROUPS_PER_ROW cfg)))
    (indices (R cfg + 2)).

(** ** Example boards *)

(** A small board: three rows of 32 cells, with a horizontal blinker in the
    middle row that straddles the two real groups (columns 15, 16, 17). *)
Definition demo_config : Config := {| R := 3; C := 32 |}.

Definition demo_board : Board :=
  [ 0; 0; 0;
    0; 0; 0;
    0x0000000000000001; 0x1100000000000000; 0;
    0; 0; 0;
    0; 0; 0 ].

(** A stand-in for the C library's generator, for examples. *)
Definition demo_rand (seed : Z) (n : nat) : Z := (seed + Z.of_nat n * Z.of_nat n) mod 7.

(** A board of the source's size, all dead but for three cells in a row:
    columns 0, 1 and 2 of row 1. *)
Definition race_board : Board :=
  <[Z.to_nat (1 * GROUPS_PER_ROW life_optimized) := 0x1110000000000000]>
    (calloc (BOARD_SIZE_GROUPS life_optimized)).

(** The rows of [advance] with row 2 run before row 1: an order the
    [omp parallel for] allows. *)
Definition race_schedule : list Z := 2 :: 1 :: map Z.of_nat (seq 3 1022).

(** ** Printing

    [std::cout] is the list of the characters written to it. *)

(** A hexadecimal digit, lower case as [std::hex] prints it. *)
Definition hex_digit (d : Z) : ascii :=
  nth (Z.to_nat d) (list_ascii_of_string "0123456789abcdef") "0"%char.

(** The digits of a positive number, least significant first. *)
Fixpoint hex_digits_rev (fuel : nat) (x : Z) : list ascii :=
  match fuel with
  | O => []
  | S fuel' => if x =? 0 then []
               else hex_digit (x mod 16) :: hex_digits_rev fuel' (x / 16)
  end.

(** A [uint64_t] under [std::hex]: at most 16 digits, no leading zero. *)
Definition to_hex (x : Z) : list ascii :=
  if x =? 0 then ["0"%char] else rev (hex_digits_rev 16 x).

(** A field under [std::setw(w)] and [std::setfill(fill)], right-aligned. *)
Definition setw_setfill (w : nat) (fill : ascii) (field : list ascii) : list ascii :=
  repeat fill (w - length field) ++ field.

Definition endl : list ascii := ["010"%char].

(** The body of the inner loop of [print_board]. *)
Definition print_group (rowStartIndex col : Z) (out : list ascii) : M (list ascii) :=
  groupValue <- load (wrap32 (rowStartIndex + col)) ;;
  ret (out ++ setw_setfill 16 "0"%char
                  (to_hex (Z.land groupValue LOW_BIT_NYBBLE_BITMASK))).

(** [print_board], from the characters written so far to those written
    when it returns. *)
Definition print_board (cfg : Config) (out : list ascii) : M (list ascii) :=
  for_range 1 (wrap32 (R cfg + 1))
    (fun row out =>
       let rowStartIndex := wrap32 (row * GROUPS_PER_ROW cfg) in
       out <- for_range 0 (wrap32 (C cfg / CELLS_PER_GROUP))
                        (print_group rowStartIndex) out ;;
       ret (out ++ endl))
    out.

(** A grid as text: a line of digits per row, 1 for a live cell. *)
Definition cell_digit (c : bool) : ascii := if c then "1"%char else "0"%char.
Definition grid_text (g : list (list bool)) : list ascii :=
  concat (map (fun row => map cell_digit row ++ endl) g).

(** [rand() % 2 == 0] for the [n]-th value drawn. *)
Definition draw_even (draw : nat -> Z) (n : nat) : bool := Z.rem (draw n) 2 =? 0.

(** What [init_board] leaves when it is about to fill the group [col] of
    row [row]: the groups before it, in row-major order, hold the draws in
    the order they were made, the first draw of a group in its top lane. *)
Definition init_progress (cfg : Config) (draw : nat -> Z) (b0 : Board)
           (row col : Z) (drawn : nat) (b : Board) : Prop :=
  Z.of_nat drawn = ((row - 1) * (GROUPS_PER_ROW cfg - 1) + col) * 16 /\
  length b = length b0 /\
  (forall j, ~ interior_index cfg j -> word_at b j = word_at b0 j) /\
  forall r g i,
    1 <= r <= R cfg -> 0 <= g < GROUPS_PER_ROW cfg - 1 ->
    r < row \/ (r = row /\ g < col) -> 0 <= i < 16 ->
    Z.testbit (word_at b (r * GROUPS_PER_ROW cfg + g)) (4 * i)
    = draw_even draw (Z.to_nat (((r - 1) * (GROUPS_PER_ROW cfg - 1) + g) * 16 + (15 - i))).

(** Two buffers that one generation cannot tell apart: they agree on bit 0
    of every lane, and on bit 1 of the lanes of the words that hold no
    interior cell (these are the only history bits a generation reads before
    it has rewritten them). *)
Definition same_seen (cfg : Config) (b1 b2 : Board) : Prop :=
  length b1 = length b2 /\
  (forall j, Z.land (word_at b1 j) LOW_BIT_NYBBLE_BITMASK
             = Z.land (word_at b2 j) LOW_BIT_NYBBLE_BITMASK) /\
  (forall j, ~ interior_index cfg j ->
             Z.land (Z.shiftr (word_at b1 j) 1) LOW_BIT_NYBBLE_BITMASK
             = Z.land (Z.shiftr (word_at b2 j) 1) LOW_BIT_NYBBLE_BITMASK).

(** ** [main]

    What a run of the program leaves: the characters it wrote to
    [std::cout] before and after the timing loop (what [Clock::ptock]
    writes comes between the two; [Clock.hpp] is not part of the sources),
    those it wrote to [std::cerr], and the value it returns. *)
Record Outcome : Type := {
  cout_before : list ascii;
  cout_after : list ascii;
  cerr : list ascii;
  returned : Z
}.

Definition usage : list ascii :=
  list_ascii_of_string "usage game-of-life <generations> <0:don't print, 1:print>"
  ++ endl.

(** The branch [argc == 3] of [main], on the buffer [calloc] returned. *)
Definition main_run (cfg : Config) (draw : nat -> Z) (NUM_REPS : Z) (print : bool)
  : M (list ascii * list ascii) :=
  _ <- init_board cfg draw ;;
  before <- (if print then print_board cfg [] else ret []) ;;
  _ <- advance_reps cfg (Z.to_nat NUM_REPS) ;;
  after <- (if print then print_board cfg [] else ret []) ;;
  ret (before, after).

(** [main]; [atoi] is the C library's, [rand_after seed] the sequence
    [rand()] returns after [srand(seed)].  [None] is a run that left the
    buffer. *)
Definition main (cfg : Config) (rand_after : Z -> nat -> Z) (atoi : string -> Z)
           (argv : list string) : option Outcome :=
  if (length argv =? 3)%nat
  then
    let NUM_REPS := wrap32 (atoi (nth 1 argv EmptyString)) in
    let print := negb (atoi (nth 2 argv EmptyString) =? 0) in
    match main_run cfg (rand_after 0) NUM_REPS print (calloc (BOARD_SIZE_GROUPS cfg)) with
    | Some ((before, after), _) =>
        Some {| cout_before := before; cout_after := after; cerr := []; returned := 0 |}
    | None => None
    end
  else Some {| cout_before := []; cout_after := []; cerr := usage; returned := 0 |}.

(** The grid the draws make: row-major, a cell alive when its draw is
    even. *)
Definition drawn_grid (cfg : Config) (draw : nat -> Z) : list (list bool) :=
  map (fun r => map (fun c => draw_even draw (Z.to_nat (r * real_columns cfg + c)))
                    (indices (real_columns cfg)))
      (indices (R cfg)).

(** ** Auxiliary definitions for the rest of the program *)

(** The indices of a loop of [n] iterations from [lo]. *)
Definition range_from (lo : Z) (n : nat) : list Z :=
  map (fun k => lo + Z.of_nat k) (seq 0 n).

(** The two buffers after [n] rows: the rows that ran are equal, the rest
    still agrees on what the rows to come read. *)
Record rows_agree (cfg : Config) (n : Z) (c1 c2 : Board) : Prop := {
  agree_low : forall j,
    Z.land (word_at c1 j) LOW_BIT_NYBBLE_BITMASK
    = Z.land (word_at c2 j) LOW_BIT_NYBBLE_BITMASK;
  agree_top : forall j, j < (n + 1) * GROUPS_PER_ROW cfg \/ ~ interior_index cfg j ->
    Z.land (Z.shiftr (word_at c1 j) 1) LOW_BIT_NYBBLE_BITMASK
    = Z.land (Z.shiftr (word_at c2 j) 1) LOW_BIT_NYBBLE_BITMASK;
  agree_done : forall j, interior_index cfg j -> j < (n + 1) * GROUPS_PER_ROW cfg ->
    word_at c1 j = word_at c2 j
}.

(** [demo_board] with junk in the bits a generation does not read. *)
Definition demo_board_junk : Board :=
  [ 0xcccccccccccccccc; 0x4444444444444444; 0x8888888888888888;
    0xeeeeeeeeeeeeeeee; 0x2222222222222222; 0xc000000000000000;
    0xaaaaaaaaaaaaaaab; 0x11000000000000e0; 0x000000000000000c;
    0x6666666666666666; 0x0000000000000000; 0;
    0x4000000000000000; 0; 0x8888888888888888 ].

(** A stand-in for [atoi] on the strings of the examples. *)
Definition demo_atoi (s : string) : Z :=
  if String.eqb s "2" then 2 else if String.eqb s "1" then 1 else 0.

(** * Lemmas *)

Lemma wrap64_small (x : Z) : 0 <= x < 2 ^ 64 -> wrap64 x = x.
Proof. intros H. unfold wrap64. apply Z.mod_small; exact H. Qed.

Lemma wrap32_small (x : Z) : 0 <= x < 2 ^ 32 -> wrap32 x = x.
Proof. intros H. unfold wrap32. apply Z.mod_small; exact H. Qed.

Lemma wrap64_range (x : Z) : 0 <= wrap64 x < 2 ^ 64.
Proof. unfold wrap64. apply Z.mod_pos_bound. lia. Qed.

Lemma lane_div_mod (i x : Z) : 0 <= i -> lane i x = (x / 16 ^ i) mod 16.
Proof.
  intros Hi. unfold lane.
  change 15 with (Z.ones 4). rewrite Z.land_ones by lia.
  rewrite Z.shiftr_div_pow2 by lia.
  rewrite Z.pow_mul_r by lia. reflexivity.
Qed.

Lemma lane_range (i x : Z) : 0 <= i -> 0 <= lane i x < 16.
Proof. intros Hi. rewrite lane_div_mod by exact Hi. apply Z.mod_pos_bound. lia. Qed.

Lemma lane_0 (x : Z) : lane 0 x = x mod 16.
Proof. rewrite lane_div_mod by lia. rewrite Z.pow_0_r, Z.div_1_r. reflexivity. Qed.

Lemma lane_succ (i x : Z) : 0 <= i -> lane (i + 1) x = lane i (x / 16).
Proof.
  intros Hi. rewrite !lane_div_mod by lia.
  rewrite Z.pow_add_r by lia. rewrite Z.pow_1_r.
  rewrite (Z.mul_comm (16 ^ i) 16).
  rewrite <- Z.div_div by lia. reflexivity.
Qed.

Lemma lane_testbit (i x k : Z) :
  0 <= i -> 0 <= k -> Z.testbit (lane i x) k = (k <? 4) && Z.testbit x (4 * i + k).
Proof.
  intros Hi Hk. unfold lane.
  rewrite Z.land_spec, Z.shiftr_spec by lia.
  change 15 with (Z.ones 4). rewrite Z.testbit_ones by lia.
  replace (k + 4 * i) with (4 * i + k) by lia.
  destruct (Z.leb_spec 0 k); [|lia].
  simpl. apply andb_comm.
Qed.

(** A nybble from its four bits. *)
Lemma nybble_bits (y : Z) :
  y mod 16 = Z.b2z (Z.testbit y 0) + 2 * Z.b2z (Z.testbit y 1)
             + 4 * Z.b2z (Z.testbit y 2) + 8 * Z.b2z (Z.testbit y 3).
Proof.
  rewrite !Z.testbit_spec' by lia.
  change (2 ^ 0) with 1. change (2 ^ 1) with 2. change (2 ^ 2) with 4. change (2 ^ 3) with 8.
  Z.div_mod_to_equations. lia.
Qed.

Lemma lane_bits (i x : Z) :
  0 <= i ->
  lane i x = Z.b2z (Z.testbit x (4 * i)) + 2 * Z.b2z (Z.testbit x (4 * i + 1))
             + 4 * Z.b2z (Z.testbit x (4 * i + 2)) + 8 * Z.b2z (Z.testbit x (4 * i + 3)).
Proof.
  intros Hi.
  assert (E : lane i x = lane i x mod 16).
  { symmetry. apply Z.mod_small. apply lane_range; exact Hi. }
  rewrite E, nybble_bits.
  rewrite !lane_testbit by lia.
  replace (4 * i + 0) with (4 * i) by lia. reflexivity.
Qed.

(** Lanewise addition and subtraction, on [n] lanes. *)
Lemma lanewise_add (n : nat) : forall x y : Z,
  0 <= x < 16 ^ Z.of_nat n -> 0 <= y < 16 ^ Z.of_nat n ->
  (forall i, 0 <= i < Z.of_nat n -> lane i x + lane i y < 16) ->
  0 <= x + y < 16 ^ Z.of_nat n /\
  forall i, 0 <= i < Z.of_nat n -> lane i (x + y) = lane i x + lane i y.
Proof.
  induction n as [|n IH]; intros x y Hx Hy Hl.
  - split; [simpl in *; lia | intros i Hi; lia].
  - rewrite Nat2Z.inj_succ in *. unfold Z.succ in *.
    rewrite Z.pow_add_r in * by lia. rewrite Z.pow_1_r in *.
    assert (H0 := Hl 0 ltac:(lia)). rewrite !lane_0 in H0.
    destruct (IH (x / 16) (y / 16)) as [Hr Hs].
    + split; [apply Z.div_pos; lia | apply Z.div_lt_upper_bound; lia].
    + split; [apply Z.div_pos; lia | apply Z.div_lt_upper_bound; lia].
    + intros i Hi. rewrite <- !lane_succ by lia. apply Hl. lia.
    + assert (Hd : (x + y) / 16 = x / 16 + y / 16)
        by (Z.div_mod_to_equations; lia).
      split.
      * Z.div_mod_to_equations. lia.
      * intros i Hi. destruct (Z.eq_dec i 0) as [->|Hne].
        -- rewrite !lane_0. Z.div_mod_to_equations. lia.
        -- replace i with ((i - 1) + 1) by lia.
           rewrite !lane_succ by lia. rewrite Hd. apply Hs. lia.
Qed.

Lemma lanewise_sub (n : nat) : forall x y : Z,
  0 <= x < 16 ^ Z.of_nat n -> 0 <= y < 16 ^ Z.of_nat n ->
  (forall i, 0 <= i < Z.of_nat n -> lane i y <= lane i x) ->
  0 <= x - y < 16 ^ Z.of_nat n /\
  forall i, 0 <= i < Z.of_nat n -> lane i (x - y) = lane i x - lane i y.
Proof.
  induction n as [|n IH]; intros x y Hx Hy Hl.
  - split; [simpl in *; lia | intros i Hi; lia].
  - rewrite Nat2Z.inj_succ in *. unfold Z.succ in *.
    rewrite Z.pow_add_r in * by lia. rewrite Z.pow_1_r in *.
    assert (H0 := Hl 0 ltac:(lia)). rewrite !lane_0 in H0.
    destruct (IH (x / 16) (y / 16)) as [Hr Hs].
    + split; [apply Z.div_pos; lia | apply Z.div_lt_upper_bound; lia].
    + split; [apply Z.div_pos; lia | apply Z.div_lt_upper_bound; lia].
    + intros i Hi. rewrite <- !lane_succ by lia. apply Hl. lia.
    + assert (Hd : (x - y) / 16 = x / 16 - y / 16)
        by (Z.div_mod_to_equations; lia).
      split.
      * Z.div_mod_to_equations. lia.
      * intros i Hi. destruct (Z.eq_dec i 0) as [->|Hne].
        -- rewrite !lane_0. Z.div_mod_to_equations. lia.
        -- replace i with ((i - 1) + 1) by lia.
           rewrite !lane_succ by lia. rewrite Hd. apply Hs. lia.
Qed.

Lemma lane_index_cases (i : Z) :
  0 <= i < 16 ->
  i = 0 \/ i = 1 \/ i = 2 \/ i = 3 \/ i = 4 \/ i = 5 \/ i = 6 \/ i = 7 \/
  i = 8 \/ i = 9 \/ i = 10 \/ i = 11 \/ i = 12 \/ i = 13 \/ i = 14 \/ i = 15.
Proof. lia. Qed.

Ltac each_lane i H :=
  let E := fresh "E" in
  destruct (lane_index_cases i H) as
    [E|[E|[E|[E|[E|[E|[E|[E|[E|[E|[E|[E|[E|[E|[E|E]]]]]]]]]]]]]]];
  subst i.

Lemma add_lanes (x y : Z) :
  0 <= x < 2 ^ 64 -> 0 <= y < 2 ^ 64 ->
  (forall i, 0 <= i < 16 -> lane i x + lane i y < 16) ->
  0 <= x + y < 2 ^ 64 /\
  forall i, 0 <= i < 16 -> lane i (x + y) = lane i x + lane i y.
Proof. intros Hx Hy Hl. exact (lanewise_add 16 x y Hx Hy Hl). Qed.

Lemma sub_lanes (x y : Z) :
  0 <= x < 2 ^ 64 -> 0 <= y < 2 ^ 64 ->
  (forall i, 0 <= i < 16 -> lane i y <= lane i x) ->
  0 <= x - y < 2 ^ 64 /\
  forall i, 0 <= i < 16 -> lane i (x - y) = lane i x - lane i y.
Proof. intros Hx Hy Hl. exact (lanewise_sub 16 x y Hx Hy Hl). Qed.

Lemma lane_LOW (i : Z) : 0 <= i < 16 -> lane i LOW_BIT_NYBBLE_BITMASK = 1.
Proof. intros H. each_lane i H; reflexivity. Qed.

Lemma lane_TOP (i : Z) : 0 <= i < 16 -> lane i TOP_NYBBLET_BITTMASK = 12.
Proof. intros H. each_lane i H; reflexivity. Qed.

Lemma lane_lor (i a b : Z) : lane i (Z.lor a b) = Z.lor (lane i a) (lane i b).
Proof. unfold lane. rewrite Z.shiftr_lor. apply Z.land_lor_distr_l. Qed.

Lemma lane_land (i a b : Z) : lane i (Z.land a b) = Z.land (lane i a) (lane i b).
Proof.
  unfold lane. rewrite Z.shiftr_land.
  apply Z.bits_inj'. intros n Hn. rewrite !Z.land_spec.
  destruct (Z.testbit (Z.shiftr a (4 * i)) n), (Z.testbit (Z.shiftr b (4 * i)) n),
    (Z.testbit 15 n); reflexivity.
Qed.

Lemma lane_lxor (i a b : Z) : lane i (Z.lxor a b) = Z.lxor (lane i a) (lane i b).
Proof.
  unfold lane. rewrite Z.shiftr_lxor.
  apply Z.bits_inj'. intros n Hn. rewrite !Z.lxor_spec, !Z.land_spec, Z.lxor_spec.
  destruct (Z.testbit (Z.shiftr a (4 * i)) n), (Z.testbit (Z.shiftr b (4 * i)) n),
    (Z.testbit 15 n); reflexivity.
Qed.

Lemma testbit_LOW (i k : Z) :
  0 <= i < 16 -> 0 <= k < 4 ->
  Z.testbit LOW_BIT_NYBBLE_BITMASK (4 * i + k) = (k =? 0).
Proof.
  intros Hi Hk.
  assert (E := lane_testbit i LOW_BIT_NYBBLE_BITMASK k ltac:(lia) ltac:(lia)).
  rewrite lane_LOW in E by exact Hi.
  assert (Hk4 : (k <? 4) = true) by (apply Z.ltb_lt; lia).
  rewrite Hk4 in E. simpl in E. rewrite <- E.
  assert (Hc : k = 0 \/ k = 1 \/ k = 2 \/ k = 3) by lia.
  destruct Hc as [->|[->|[->| ->]]]; reflexivity.
Qed.

(** Masking with the low-bit mask keeps bit 0 of every lane. *)
Lemma lane_low_bit (i w : Z) :
  0 <= i < 16 ->
  lane i (Z.land w LOW_BIT_NYBBLE_BITMASK) = Z.b2z (Z.testbit w (4 * i)).
Proof.
  intros Hi. rewrite lane_land, lane_LOW by exact Hi.
  change 1 with (Z.ones 1). rewrite Z.land_ones by lia.
  change (2 ^ 1) with 2.
  rewrite <- Z.bit0_mod. f_equal.
  rewrite lane_testbit by lia. simpl. f_equal. lia.
Qed.

(** A [uint64_t] is a word that the 64-bit mask leaves alone. *)
Lemma uint64_mask (x : Z) : 0 <= x < 2 ^ 64 <-> Z.land x (Z.ones 64) = x.
Proof.
  rewrite Z.land_ones by lia. split.
  - intros H. apply Z.mod_small. exact H.
  - intros H. rewrite <- H. apply Z.mod_pos_bound. lia.
Qed.

Lemma land_uint64_r (w m : Z) : 0 <= m < 2 ^ 64 -> 0 <= Z.land w m < 2 ^ 64.
Proof.
  intros Hm. apply uint64_mask. rewrite <- Z.land_assoc.
  f_equal. apply uint64_mask. exact Hm.
Qed.

Lemma lor_uint64 (a b : Z) :
  0 <= a < 2 ^ 64 -> 0 <= b < 2 ^ 64 -> 0 <= Z.lor a b < 2 ^ 64.
Proof.
  intros Ha Hb. apply uint64_mask. rewrite Z.land_lor_distr_l.
  f_equal; apply uint64_mask; assumption.
Qed.

Lemma low_bits_range (w : Z) : 0 <= Z.land w LOW_BIT_NYBBLE_BITMASK < 2 ^ 64.
Proof. apply land_uint64_r. unfold LOW_BIT_NYBBLE_BITMASK. lia. Qed.

(** ** The rule evaluator *)

(** What [neighborSumToStateBit] leaves in a lane, from the lane of the
    complemented tag word. *)
Lemma collapse_lane (x i : Z) :
  0 <= i < 16 ->
  lane i (Z.land (Z.land (Z.land x (Z.shiftr x 2))
                         (Z.shiftr (Z.land x (Z.shiftr x 2)) 1))
                 LOW_BIT_NYBBLE_BITMASK)
  = if lane i x =? 15 then 1 else 0.
Proof.
  intros Hi. rewrite lane_low_bit by exact Hi.
  rewrite Z.land_spec, Z.shiftr_spec by lia.
  rewrite !Z.land_spec, !Z.shiftr_spec by lia.
  rewrite (lane_bits i x) by lia.
  replace (4 * i + 1 + 2) with (4 * i + 3) by lia.
  destruct (Z.testbit x (4 * i)), (Z.testbit x (4 * i + 1)),
    (Z.testbit x (4 * i + 2)), (Z.testbit x (4 * i + 3)); reflexivity.
Qed.

Lemma rule_table (n s : Z) :
  0 <= n <= 8 -> s = 0 \/ s = 1 ->
  (if Z.lxor (Z.lor n s) 12 =? 15 then 1 else 0)
  = (if (n =? 3) || ((s =? 1) && (n =? 2)) then 1 else 0).
Proof.
  intros Hn Hs.
  assert (Hc : n = 0 \/ n = 1 \/ n = 2 \/ n = 3 \/ n = 4 \/ n = 5 \/ n = 6
               \/ n = 7 \/ n = 8) by lia.
  destruct Hs as [-> | ->];
    destruct Hc as [->|[->|[->|[->|[->|[->|[->|[->| ->]]]]]]]]; reflexivity.
Qed.

Lemma neighborSumToStateBit_lanes (sum self : Z) (n s : Z -> Z) :
  0 <= sum < 2 ^ 64 -> 0 <= self < 2 ^ 64 ->
  (forall i, 0 <= i < 16 ->
     0 <= n i <= 8 /\ (s i = 0 \/ s i = 1) /\
     lane i sum = n i + s i /\ lane i self = s i) ->
  forall i, 0 <= i < 16 ->
    lane i (neighborSumToStateBit sum self)
    = if (n i =? 3) || ((s i =? 1) && (n i =? 2)) then 1 else 0.
Proof.
  intros Hsum Hself Hl i Hi. unfold neighborSumToStateBit.
  destruct (sub_lanes sum self Hsum Hself) as [Hr Hd].
  { intros j Hj. destruct (Hl j Hj) as (? & ? & -> & ->). lia. }
  rewrite (wrap64_small _ Hr).
  rewrite collapse_lane by exact Hi.
  rewrite lane_lxor, lane_lor, lane_TOP, Hd by exact Hi.
  destruct (Hl i Hi) as (Hn & Hs & -> & ->).
  replace (n i + s i - s i) with (n i) by lia.
  apply rule_table; assumption.
Qed.

(** ** Accesses *)

Lemma word_at_lookup (b : Board) (i : Z) (w : Z) :
  0 <= i -> b !! Z.to_nat i = Some w -> word_at b i = w.
Proof.
  intros Hi E. unfold word_at.
  destruct (Z.leb_spec 0 i); [|lia]. rewrite E. reflexivity.
Qed.

Lemma lookup_word_at (b : Board) (i : Z) :
  0 <= i < Z.of_nat (length b) -> b !! Z.to_nat i = Some (word_at b i).
Proof.
  intros Hi.
  destruct (lookup_lt_is_Some_2 b (Z.to_nat i)) as [w E]; [lia|].
  rewrite (word_at_lookup b i w) by (lia || exact E). exact E.
Qed.

Lemma load_in_range (b : Board) (i : Z) :
  0 <= i < Z.of_nat (length b) -> load i b = Some (word_at b i, b).
Proof.
  intros Hi. unfold load.
  destruct (Z.leb_spec 0 i); [|lia].
  rewrite lookup_word_at by exact Hi. reflexivity.
Qed.

Lemma store_in_range (b : Board) (i w : Z) :
  0 <= i < Z.of_nat (length b) ->
  store i w b = Some (tt, <[Z.to_nat i := w]> b).
Proof.
  intros Hi. unfold store.
  destruct (Z.leb_spec 0 i); [|lia].
  destruct (Z.ltb_spec i (Z.of_nat (length b))); [|lia]. reflexivity.
Qed.

Lemma word_at_insert (b : Board) (i j w : Z) :
  0 <= i < Z.of_nat (length b) ->
  word_at (<[Z.to_nat i := w]> b) j = if j =? i then w else word_at b j.
Proof.
  intros Hi. unfold word_at.
  destruct (Z.eqb_spec j i) as [->|Hne].
  - destruct (Z.leb_spec 0 i); [|lia].
    rewrite list_lookup_insert_eq by lia. reflexivity.
  - destruct (Z.leb_spec 0 j); [|reflexivity].
    rewrite list_lookup_insert_ne by lia. reflexivity.
Qed.

Lemma word_at_outside (b : Board) (i : Z) :
  ~ 0 <= i < Z.of_nat (length b) -> word_at b i = 0.
Proof.
  intros Hi. unfold word_at.
  destruct (Z.leb_spec 0 i); [|reflexivity].
  rewrite (proj2 (lookup_ge_None b (Z.to_nat i))) by lia. reflexivity.
Qed.

(** Two boards with the same words are the same board. *)
Lemma board_eq (b1 b2 : Board) :
  length b1 = length b2 ->
  (forall i, 0 <= i < Z.of_nat (length b1) -> word_at b1 i = word_at b2 i) ->
  b1 = b2.
Proof.
  intros Hlen Hw. apply list_eq. intros n.
  destruct (Nat.lt_ge_cases n (length b1)) as [Hn|Hn].
  - assert (Hz : 0 <= Z.of_nat n < Z.of_nat (length b1)) by lia.
    assert (E1 := lookup_word_at b1 _ Hz).
    assert (E2 := lookup_word_at b2 (Z.of_nat n) ltac:(lia)).
    rewrite Nat2Z.id in E1, E2. rewrite E1, E2, (Hw _ Hz). reflexivity.
  - rewrite (proj2 (lookup_ge_None b1 n)) by lia.
    rewrite (proj2 (lookup_ge_None b2 n)) by lia. reflexivity.
Qed.

Lemma GROUPS_PER_ROW_range (cfg : Config) : 0 <= GROUPS_PER_ROW cfg < 2 ^ 32.
Proof. unfold GROUPS_PER_ROW, wrap32. apply Z.mod_pos_bound. lia. Qed.

Lemma lane_self_vals (b : Board) (idx i : Z) :
  0 <= i < 16 -> lane i (self_vals b idx) = Z.b2z (Z.testbit (word_at b idx) (4 * i)).
Proof. intros Hi. unfold self_vals. apply lane_low_bit. exact Hi. Qed.

Lemma lane_top_vals (w i : Z) :
  0 <= i < 16 ->
  lane i (Z.land (Z.shiftr w 1) LOW_BIT_NYBBLE_BITMASK) = Z.b2z (Z.testbit w (4 * i + 1)).
Proof.
  intros Hi. rewrite lane_low_bit by exact Hi.
  rewrite Z.shiftr_spec by lia. reflexivity.
Qed.

Lemma b2z_le_1 (x : bool) : 0 <= Z.b2z x <= 1.
Proof. destruct x; simpl; lia. Qed.

Lemma col_sums_lanes (cfg : Config) (b : Board) (idx : Z) :
  0 <= col_sums cfg b idx < 2 ^ 64 /\
  forall i, 0 <= i < 16 ->
    lane i (col_sums cfg b idx)
    = Z.b2z (Z.testbit (word_at b idx) (4 * i))
      + (Z.b2z (Z.testbit (word_at b (idx - GROUPS_PER_ROW cfg)) (4 * i + 1))
         + Z.b2z (Z.testbit (word_at b (idx + GROUPS_PER_ROW cfg)) (4 * i))).
Proof.
  unfold col_sums.
  set (t := Z.land (Z.shiftr (word_at b (idx - GROUPS_PER_ROW cfg)) 1)
                   LOW_BIT_NYBBLE_BITMASK).
  set (o := Z.land (word_at b (idx + GROUPS_PER_ROW cfg)) LOW_BIT_NYBBLE_BITMASK).
  assert (Ht : forall i, 0 <= i < 16 -> lane i t
            = Z.b2z (Z.testbit (word_at b (idx - GROUPS_PER_ROW cfg)) (4 * i + 1)))
    by (intros; apply lane_top_vals; assumption).
  assert (Ho : forall i, 0 <= i < 16 -> lane i o
            = Z.b2z (Z.testbit (word_at b (idx + GROUPS_PER_ROW cfg)) (4 * i)))
    by (intros; apply lane_low_bit; assumption).
  destruct (add_lanes t o (low_bits_range _) (low_bits_range _)) as [Hr1 Hl1].
  { intros i Hi. rewrite Ht, Ho by exact Hi.
    pose proof (b2z_le_1 (Z.testbit (word_at b (idx - GROUPS_PER_ROW cfg)) (4 * i + 1))).
    pose proof (b2z_le_1 (Z.testbit (word_at b (idx + GROUPS_PER_ROW cfg)) (4 * i))).
    lia. }
  destruct (add_lanes (self_vals b idx) (t + o) (low_bits_range _) Hr1) as [Hr2 Hl2].
  { intros i Hi. rewrite Hl1, Ht, Ho, lane_self_vals by exact Hi.
    pose proof (b2z_le_1 (Z.testbit (word_at b idx) (4 * i))).
    pose proof (b2z_le_1 (Z.testbit (word_at b (idx - GROUPS_PER_ROW cfg)) (4 * i + 1))).
    pose proof (b2z_le_1 (Z.testbit (word_at b (idx + GROUPS_PER_ROW cfg)) (4 * i))).
    lia. }
  split; [exact Hr2|].
  intros i Hi. rewrite Hl2, Hl1, Ht, Ho, lane_self_vals by exact Hi. reflexivity.
Qed.

Lemma getColSumsForGroup_in_range (cfg : Config) (b : Board) (idx : Z) :
  Z.of_nat (length b) <= 2 ^ 64 ->
  GROUPS_PER_ROW cfg <= idx -> idx + GROUPS_PER_ROW cfg < Z.of_nat (length b) ->
  getColSumsForGroup cfg idx b = Some ((col_sums cfg b idx, self_vals b idx), b).
Proof.
  intros Hlen Hlo Hhi.
  pose proof (GROUPS_PER_ROW_range cfg) as HG.
  unfold getColSumsForGroup, bind.
  rewrite load_in_range by lia.
  rewrite (wrap64_small (idx - GROUPS_PER_ROW cfg)) by lia.
  rewrite load_in_range by lia.
  rewrite (wrap64_small (idx + GROUPS_PER_ROW cfg)) by lia.
  rewrite load_in_range by lia.
  unfold ret. do 3 f_equal.
  destruct (col_sums_lanes cfg b idx) as [Hr _]. unfold col_sums, self_vals in *.
  pose proof (low_bits_range (word_at b idx)).
  pose proof (low_bits_range (Z.shiftr (word_at b (idx - GROUPS_PER_ROW cfg)) 1)).
  pose proof (low_bits_range (word_at b (idx + GROUPS_PER_ROW cfg))).
  assert (Hin : 0 <= Z.land (Z.shiftr (word_at b (idx - GROUPS_PER_ROW cfg)) 1)
                       LOW_BIT_NYBBLE_BITMASK
                     + Z.land (word_at b (idx + GROUPS_PER_ROW cfg)) LOW_BIT_NYBBLE_BITMASK
                < 2 ^ 64) by lia.
  rewrite (wrap64_small _ Hin). apply wrap64_small. exact Hr.
Qed.

(** ** Lanes under shifts and wrap-around *)

Lemma lane_wrap64 (i x : Z) : 0 <= i < 16 -> lane i (wrap64 x) = lane i x.
Proof.
  intros Hi. rewrite !lane_bits by lia. unfold wrap64.
  rewrite !Z.mod_pow2_bits_low by lia. reflexivity.
Qed.

Lemma lane_shiftr (i k x : Z) :
  0 <= i -> 0 <= k -> lane i (Z.shiftr x (4 * k)) = lane (i + k) x.
Proof.
  intros Hi Hk. unfold lane. rewrite Z.shiftr_shiftr by lia.
  do 2 f_equal. lia.
Qed.

Lemma lane_shiftl (i k x : Z) :
  0 <= i -> 0 <= k ->
  lane i (Z.shiftl x (4 * k)) = if i <? k then 0 else lane (i - k) x.
Proof.
  intros Hi Hk. destruct (Z.ltb_spec i k) as [Hlt|Hge].
  - rewrite lane_bits by lia.
    rewrite !Z.shiftl_spec_low by lia. reflexivity.
  - rewrite !lane_bits by lia.
    rewrite !Z.shiftl_spec by lia.
    repeat (f_equal; try lia).
Qed.

Lemma lane_above (i x : Z) : 0 <= x < 2 ^ 64 -> 16 <= i -> lane i x = 0.
Proof.
  intros Hx Hi. rewrite lane_div_mod by lia.
  rewrite Z.div_small; [reflexivity|].
  split; [lia|]. eapply Z.lt_le_trans; [apply Hx|].
  change (2 ^ 64) with (16 ^ 16). apply Z.pow_le_mono_r; lia.
Qed.

(** ** The neighbor assembler *)

Lemma createLeftNeighborsFromColSums_lanes (curr prev i : Z) :
  0 <= curr < 2 ^ 64 -> 0 <= i < 16 ->
  lane i (createLeftNeighborsFromColSums curr prev)
  = if i =? 15 then lane 0 prev else lane (i + 1) curr.
Proof.
  intros Hc Hi. unfold createLeftNeighborsFromColSums.
  rewrite lane_lor, lane_wrap64 by exact Hi.
  change 4 with (4 * 1) at 1. change 60 with (4 * 15).
  rewrite lane_shiftr, lane_shiftl by lia.
  destruct (Z.eqb_spec i 15) as [E|Hne].
  - destruct (Z.ltb_spec i 15); [lia|].
    rewrite (lane_above (i + 1) curr) by lia. rewrite Z.lor_0_l. f_equal. lia.
  - destruct (Z.ltb_spec i 15); [|lia]. apply Z.lor_0_r.
Qed.

Lemma createRightNeighborsFromColSums_lanes (curr next i : Z) :
  0 <= next < 2 ^ 64 -> 0 <= i < 16 ->
  lane i (createRightNeighborsFromColSums curr next)
  = if i =? 0 then lane 15 next else lane (i - 1) curr.
Proof.
  intros Hn Hi. unfold createRightNeighborsFromColSums.
  rewrite lane_lor, lane_wrap64 by exact Hi.
  change 4 with (4 * 1) at 1. change 60 with (4 * 15).
  rewrite lane_shiftr, lane_shiftl by lia.
  destruct (Z.eqb_spec i 0) as [E|Hne].
  - destruct (Z.ltb_spec i 1); [|lia]. rewrite Z.lor_0_l. f_equal. lia.
  - destruct (Z.ltb_spec i 1); [lia|].
    rewrite (lane_above (i + 15) next) by lia. apply Z.lor_0_r.
Qed.

Lemma createLeftNeighborsFromColSums_range (curr prev : Z) :
  0 <= curr < 2 ^ 64 -> 0 <= createLeftNeighborsFromColSums curr prev < 2 ^ 64.
Proof.
  intros Hc. unfold createLeftNeighborsFromColSums.
  apply lor_uint64; [|apply wrap64_range].
  rewrite Z.shiftr_div_pow2 by lia. split.
  - apply Z.div_pos; lia.
  - apply Z.div_lt_upper_bound; lia.
Qed.

Lemma createRightNeighborsFromColSums_range (curr next : Z) :
  0 <= next < 2 ^ 64 -> 0 <= createRightNeighborsFromColSums curr next < 2 ^ 64.
Proof.
  intros Hc. unfold createRightNeighborsFromColSums.
  apply lor_uint64; [apply wrap64_range|].
  rewrite Z.shiftr_div_pow2 by lia. split.
  - apply Z.div_pos; lia.
  - apply Z.div_lt_upper_bound; lia.
Qed.

Lemma neighbor_sum_lanes (curr prev next : Z) :
  lanes_le 3 curr -> lanes_le 3 prev -> lanes_le 3 next ->
  neighbor_sum curr prev next
  = curr + createLeftNeighborsFromColSums curr prev
    + createRightNeighborsFromColSums curr next /\
  0 <= neighbor_sum curr prev next < 2 ^ 64 /\
  forall i, 0 <= i < 16 ->
    lane i (neighbor_sum curr prev next)
    = lane i curr
      + (if i =? 15 then lane 0 prev else lane (i + 1) curr)
      + (if i =? 0 then lane 15 next else lane (i - 1) curr).
Proof.
  intros [Hc Hcl] [Hp Hpl] [Hn Hnl]. unfold neighbor_sum.
  pose proof (createLeftNeighborsFromColSums_range curr prev Hc) as Hlr.
  pose proof (createRightNeighborsFromColSums_range curr next Hn) as Hrr.
  assert (Hleft : forall i, 0 <= i < 16 ->
            0 <= lane i (createLeftNeighborsFromColSums curr prev) <= 3).
  { intros i Hi. split; [apply lane_range; lia|].
    rewrite createLeftNeighborsFromColSums_lanes by assumption.
    destruct (Z.eqb_spec i 15); [apply Hpl | apply Hcl]; lia. }
  assert (Hright : forall i, 0 <= i < 16 ->
            0 <= lane i (createRightNeighborsFromColSums curr next) <= 3).
  { intros i Hi. split; [apply lane_range; lia|].
    rewrite createRightNeighborsFromColSums_lanes by assumption.
    destruct (Z.eqb_spec i 0); [apply Hnl | apply Hcl]; lia. }
  destruct (add_lanes curr _ Hc Hlr) as [Hr1 Hl1].
  { intros i Hi. specialize (Hcl i Hi). specialize (Hleft i Hi). lia. }
  rewrite (wrap64_small _ Hr1).
  destruct (add_lanes _ _ Hr1 Hrr) as [Hr2 Hl2].
  { intros i Hi. rewrite Hl1 by exact Hi.
    specialize (Hcl i Hi). specialize (Hleft i Hi). specialize (Hright i Hi). lia. }
  rewrite (wrap64_small _ Hr2).
  split; [reflexivity|]. split; [exact Hr2|].
  intros i Hi. rewrite Hl2, Hl1 by exact Hi.
  rewrite createLeftNeighborsFromColSums_lanes,
    createRightNeighborsFromColSums_lanes by assumption.
  reflexivity.
Qed.

Lemma col_sums_lanes_le (cfg : Config) (b : Board) (idx : Z) :
  lanes_le 3 (col_sums cfg b idx).
Proof.
  destruct (col_sums_lanes cfg b idx) as [Hr Hl]. split; [exact Hr|].
  intros i Hi. rewrite Hl by exact Hi.
  pose proof (b2z_le_1 (Z.testbit (word_at b idx) (4 * i))).
  pose proof (b2z_le_1 (Z.testbit (word_at b (idx - GROUPS_PER_ROW cfg)) (4 * i + 1))).
  pose proof (b2z_le_1 (Z.testbit (word_at b (idx + GROUPS_PER_ROW cfg)) (4 * i))).
  lia.
Qed.

Lemma lanes_le_0 : lanes_le 3 0.
Proof.
  split; [lia|]. intros i Hi. rewrite lane_div_mod by lia.
  rewrite Z.div_0_l by lia. rewrite Z.mod_0_l by lia. lia.
Qed.

Lemma shifted_low_range (w : Z) :
  0 <= Z.shiftl (Z.land w LOW_BIT_NYBBLE_BITMASK) 1 < 2 ^ 64.
Proof.
  rewrite Z.shiftl_land. apply land_uint64_r.
  change (Z.shiftl LOW_BIT_NYBBLE_BITMASK 1) with 0x2222222222222222. lia.
Qed.

Lemma packed_word_range (new_state prev_state : Z) :
  0 <= packed_word new_state prev_state < 2 ^ 64.
Proof.
  unfold packed_word. apply lor_uint64; [apply wrap64_range | apply low_bits_range].
Qed.

Lemma testbit_shifted_low (p i k : Z) :
  0 <= i < 16 -> 0 <= k < 4 ->
  Z.testbit (Z.shiftl (Z.land p LOW_BIT_NYBBLE_BITMASK) 1) (4 * i + k)
  = (k =? 1) && Z.testbit p (4 * i).
Proof.
  intros Hi Hk. destruct (Z.eq_dec k 0) as [->|Hk0].
  - destruct (Z.eq_dec i 0) as [->|Hi0].
    + rewrite Z.shiftl_spec_low by lia. reflexivity.
    + rewrite Z.shiftl_spec, Z.land_spec by lia.
      replace (4 * i + 0 - 1) with (4 * (i - 1) + 3) by lia.
      rewrite testbit_LOW by lia. simpl. apply andb_false_r.
  - rewrite Z.shiftl_spec, Z.land_spec by lia.
    replace (4 * i + k - 1) with (4 * i + (k - 1)) by lia.
    rewrite testbit_LOW by lia.
    destruct (Z.eqb_spec k 1) as [->|Hk1].
    + simpl. replace (4 * i + (1 - 1)) with (4 * i) by lia. apply andb_true_r.
    + destruct (Z.eqb_spec (k - 1) 0); [lia|]. apply andb_false_r.
Qed.

Lemma packed_word_bits (new_state prev_state i : Z) :
  0 <= i < 16 ->
  Z.testbit (packed_word new_state prev_state) (4 * i)
    = Z.testbit new_state (4 * i) /\
  Z.testbit (packed_word new_state prev_state) (4 * i + 1)
    = Z.testbit prev_state (4 * i) /\
  Z.testbit (packed_word new_state prev_state) (4 * i + 2) = false /\
  Z.testbit (packed_word new_state prev_state) (4 * i + 3) = false.
Proof.
  intros Hi. unfold packed_word.
  rewrite (wrap64_small _ (shifted_low_range prev_state)).
  replace (4 * i) with (4 * i + 0) at 1 by lia.
  rewrite !Z.lor_spec, !Z.land_spec.
  rewrite !testbit_shifted_low, !testbit_LOW by lia. simpl.
  rewrite !andb_false_r, andb_true_r, orb_false_r.
  replace (4 * i + 0) with (4 * i) by lia.
  repeat split; reflexivity.
Qed.

Lemma packed_word_lanes (new_state prev_state i : Z) :
  0 <= i < 16 ->
  lane i (packed_word new_state prev_state)
  = Z.b2z (Z.testbit new_state (4 * i)) + 2 * Z.b2z (Z.testbit prev_state (4 * i)).
Proof.
  intros Hi. rewrite lane_bits by lia.
  destruct (packed_word_bits new_state prev_state i Hi) as (-> & -> & -> & ->).
  simpl. lia.
Qed.

Lemma updateBoardIndex_in_range (b : Board) (idx new_state prev_state : Z) :
  0 <= idx < Z.of_nat (length b) ->
  updateBoardIndex idx new_state prev_state b
  = Some (tt, <[Z.to_nat idx := packed_word new_state prev_state]> b).
Proof. intros Hi. unfold updateBoardIndex. apply store_in_range. exact Hi. Qed.

(** ** Layout arithmetic *)

Lemma CELLS_PER_GROUP_16 : CELLS_PER_GROUP = 16.
Proof. reflexivity. Qed.

Section Layout.
Context (cfg : Config) (Hfits : fits_uint32 cfg).

Lemma GROUPS_PER_ROW_eq : GROUPS_PER_ROW cfg = C cfg / 16 + 1.
Proof.
  destruct Hfits as (HR & HC & Hsz).
  unfold GROUPS_PER_ROW. rewrite CELLS_PER_GROUP_16.
  assert (0 <= C cfg / 16) by (apply Z.div_pos; lia).
  rewrite (wrap32_small (C cfg / 16)) by nia.
  apply wrap32_small. nia.
Qed.

Lemma GROUPS_PER_ROW_pos : 1 <= GROUPS_PER_ROW cfg.
Proof.
  rewrite GROUPS_PER_ROW_eq. destruct Hfits as (HR & HC & Hsz).
  assert (0 <= C cfg / 16) by (apply Z.div_pos; lia). lia.
Qed.

Lemma BOARD_SIZE_GROUPS_eq :
  BOARD_SIZE_GROUPS cfg = GROUPS_PER_ROW cfg * (R cfg + 2).
Proof.
  pose proof GROUPS_PER_ROW_pos as HG.
  unfold BOARD_SIZE_GROUPS. destruct Hfits as (HR & HC & Hsz).
  rewrite <- GROUPS_PER_ROW_eq in Hsz.
  rewrite (wrap32_small (R cfg + 2)) by nia.
  apply wrap32_small. nia.
Qed.

Lemma BOARD_SIZE_GROUPS_lt : BOARD_SIZE_GROUPS cfg < 2 ^ 32.
Proof. unfold BOARD_SIZE_GROUPS, wrap32. apply Z.mod_pos_bound. lia. Qed.

Lemma row_bound : wrap32 (R cfg + 1) = R cfg + 1.
Proof.
  pose proof GROUPS_PER_ROW_pos as HG. destruct Hfits as (HR & HC & Hsz).
  rewrite <- GROUPS_PER_ROW_eq in Hsz. apply wrap32_small. nia.
Qed.

(** The word index of a group of a row lies in the buffer, with room for
    the rows above and below when the row is an interior one. *)
Lemma group_index_bounds (row group : Z) :
  0 <= row <= R cfg + 1 -> 0 <= group < GROUPS_PER_ROW cfg ->
  row * GROUPS_PER_ROW cfg <= row * GROUPS_PER_ROW cfg + group
    < (row + 1) * GROUPS_PER_ROW cfg /\
  (row + 1) * GROUPS_PER_ROW cfg <= BOARD_SIZE_GROUPS cfg.
Proof. intros Hr Hg. rewrite BOARD_SIZE_GROUPS_eq. nia. Qed.

End Layout.

(** ** One row *)

Lemma length_row_prefix (cfg : Config) (b : Board) (rs k : Z) :
  length (row_prefix cfg b rs k) = length b.
Proof. unfold row_prefix. apply length_imap. Qed.

Lemma word_at_row_prefix (cfg : Config) (b : Board) (rs k j : Z) :
  0 <= rs -> rs + k <= Z.of_nat (length b) ->
  word_at (row_prefix cfg b rs k) j
  = if (rs <=? j) && (j <? rs + k) then next_word cfg b rs (j - rs) else word_at b j.
Proof.
  intros Hrs Hk. unfold word_at at 1.
  destruct (Z.leb_spec 0 j) as [Hj|Hj].
  - unfold row_prefix. rewrite list_lookup_imap, Z2Nat.id by lia.
    destruct (Z.ltb_spec j (Z.of_nat (length b))) as [Hlt|Hge].
    + rewrite lookup_word_at by lia. simpl.
      destruct ((rs <=? j) && (j <? rs + k)); reflexivity.
    + rewrite (proj2 (lookup_ge_None b (Z.to_nat j))) by lia. simpl.
      destruct (Z.leb_spec rs j), (Z.ltb_spec j (rs + k)); simpl; try lia;
        symmetry; apply word_at_outside; lia.
  - destruct (Z.leb_spec rs j), (Z.ltb_spec j (rs + k)); simpl;
      try (symmetry; apply word_at_outside; lia).
    lia.
Qed.

Lemma row_prefix_0 (cfg : Config) (b : Board) (rs : Z) : row_prefix cfg b rs 0 = b.
Proof.
  apply list_eq. intros n. unfold row_prefix. rewrite list_lookup_imap.
  destruct (Z.leb_spec rs (Z.of_nat n)), (Z.ltb_spec (Z.of_nat n) (rs + 0));
    simpl; try lia; destruct (b !! n); reflexivity.
Qed.

Section Row.
Context (cfg : Config) (Hfits : fits_uint32 cfg).
Context (b : Board) (Hlen : Z.of_nat (length b) = BOARD_SIZE_GROUPS cfg).
Context (row : Z) (Hrow : 1 <= row <= R cfg).

Local Abbreviation G := (GROUPS_PER_ROW cfg).
Local Abbreviation rs := (row * GROUPS_PER_ROW cfg).

Lemma row_start_bounds :
  G <= rs /\ rs + 2 * G <= Z.of_nat (length b) /\ Z.of_nat (length b) < 2 ^ 32.
Proof.
  pose proof (GROUPS_PER_ROW_pos cfg Hfits).
  rewrite Hlen. split; [nia|]. split.
  - rewrite (BOARD_SIZE_GROUPS_eq cfg Hfits). nia.
  - apply BOARD_SIZE_GROUPS_lt.
Qed.

Lemma col_sums_row_prefix (k j : Z) :
  0 <= k -> rs + k <= j < rs + G ->
  col_sums cfg (row_prefix cfg b rs k) j = col_sums cfg b j
  /\ self_vals (row_prefix cfg b rs k) j = self_vals b j.
Proof.
  intros Hk Hj. destruct row_start_bounds as (H1 & H2 & H3).
  pose proof (GROUPS_PER_ROW_pos cfg Hfits).
  unfold col_sums, self_vals.
  rewrite !(word_at_row_prefix cfg b rs k) by lia.
  destruct (Z.leb_spec rs j), (Z.ltb_spec j (rs + k)); simpl; try lia.
  destruct (Z.leb_spec rs (j - G)), (Z.ltb_spec (j - G) (rs + k)); simpl; try lia;
  destruct (Z.leb_spec rs (j + G)), (Z.ltb_spec (j + G) (rs + k)); simpl; try lia;
  split; reflexivity.
Qed.

Lemma runRow_body_step (k : Z) :
  0 <= k < G - 1 ->
  runRow_body cfg rs (k + 1) (pipeline_at cfg b rs k) (row_prefix cfg b rs k)
  = Some (pipeline_at cfg b rs (k + 1), row_prefix cfg b rs (k + 1)).
Proof.
  intros Hk. destruct row_start_bounds as (H1 & H2 & H3).
  unfold runRow_body, bind.
  rewrite (wrap32_small (rs + (k + 1))) by lia.
  rewrite (wrap32_small (rs + (k + 1) - 1)) by lia.
  rewrite getColSumsForGroup_in_range
    by (rewrite ?length_row_prefix; lia).
  destruct (col_sums_row_prefix k (rs + (k + 1)) ltac:(lia) ltac:(lia)) as [-> ->].
  rewrite updateBoardIndex_in_range by (rewrite length_row_prefix; lia).
  unfold ret. f_equal. f_equal.
  - unfold pipeline_at, moveColSumsDownPipeline. simpl.
    f_equal.
    + destruct (Z.leb_spec (k + 1) 1), (Z.eqb_spec k 0); try lia; try reflexivity.
      f_equal. lia.
    + destruct (Z.eqb_spec (k + 1) 0); [lia|]. f_equal. lia.
  - apply board_eq.
    + rewrite length_insert, !length_row_prefix. reflexivity.
    + intros i Hi. rewrite length_insert, length_row_prefix in Hi.
      rewrite word_at_insert by (rewrite length_row_prefix; lia).
      rewrite !word_at_row_prefix by lia.
      destruct (Z.eqb_spec i (rs + (k + 1) - 1)) as [->|Hne].
      * destruct (Z.leb_spec rs (rs + (k + 1) - 1)),
          (Z.ltb_spec (rs + (k + 1) - 1) (rs + (k + 1))); simpl; try lia.
        unfold next_word, pipeline_at, moveColSumsDownPipeline, neighbor_sum. simpl.
        replace (rs + (k + 1) - 1 - rs) with k by lia.
        replace (rs + k + 1) with (rs + (k + 1)) by lia.
        destruct (Z.eqb_spec k 0); reflexivity.
      * destruct (Z.leb_spec rs i), (Z.ltb_spec i (rs + k)),
          (Z.ltb_spec i (rs + (k + 1))); simpl; try lia; reflexivity.
Qed.

Lemma runRow_loop (n : nat) : forall k : Z,
  0 <= k -> k + Z.of_nat n = G - 1 ->
  for_loop n (k + 1) (runRow_body cfg rs) (pipeline_at cfg b rs k)
           (row_prefix cfg b rs k)
  = Some (pipeline_at cfg b rs (G - 1), row_prefix cfg b rs (G - 1)).
Proof.
  induction n as [|n IH]; intros k Hk Hn.
  - simpl. unfold ret. replace (G - 1) with k by lia. reflexivity.
  - simpl. unfold bind. rewrite runRow_body_step by lia.
    apply IH; lia.
Qed.

(** [runRow] succeeds and rewrites the real groups of its row, each from
    the board as it was when the row started. *)
Lemma runRow_result :
  runRow cfg row b = Some (tt, row_prefix cfg b rs (G - 1)).
Proof.
  destruct row_start_bounds as (H1 & H2 & H3).
  pose proof (GROUPS_PER_ROW_pos cfg Hfits) as HG.
  unfold runRow, bind.
  rewrite (wrap32_small rs) by lia.
  rewrite getColSumsForGroup_in_range by lia.
  unfold for_range.
  assert (E := runRow_loop (Z.to_nat (G - 1)) 0 ltac:(lia) ltac:(lia)).
  rewrite row_prefix_0 in E. unfold pipeline_at in E. simpl in E.
  replace (rs + 0) with rs in E by lia.
  change (0 + 1) with 1 in E. rewrite E. reflexivity.
Qed.

End Row.

(** ** The word a row writes, bit by bit *)

Lemma testbit_self_vals (b : Board) (idx i : Z) :
  0 <= i < 16 -> Z.testbit (self_vals b idx) (4 * i) = Z.testbit (word_at b idx) (4 * i).
Proof.
  intros Hi. unfold self_vals. rewrite Z.land_spec.
  replace (4 * i) with (4 * i + 0) at 2 by lia.
  rewrite testbit_LOW by lia. apply andb_true_r.
Qed.

Lemma testbit_of_flag (x i : Z) (c : bool) :
  0 <= i -> lane i x = (if c then 1 else 0) -> Z.testbit x (4 * i) = c.
Proof.
  intros Hi E.
  assert (H := lane_testbit i x 0 Hi ltac:(lia)).
  rewrite E in H. replace (4 * i + 0) with (4 * i) in H by lia.
  simpl in H. rewrite <- H. destruct c; reflexivity.
Qed.

Section NextWord.
Context (cfg : Config) (b : Board) (rs g : Z).

Local Abbreviation cs := (fun j => col_sums cfg b (rs + j)).
Local Abbreviation self := (fun i => Z.testbit (word_at b (rs + g)) (4 * i)).
Local Abbreviation window_count := (window_count cfg b rs g).


Lemma window_count_range (i : Z) : 0 <= i < 16 -> 0 <= window_count i <= 8.
Proof.
  intros Hi. unfold window_count.
  destruct (col_sums_lanes cfg b (rs + g)) as [_ Hl]. rewrite (Hl i Hi).
  pose proof (b2z_le_1 (Z.testbit (word_at b (rs + g)) (4 * i))).
  pose proof (b2z_le_1 (Z.testbit (word_at b (rs + g - GROUPS_PER_ROW cfg)) (4 * i + 1))).
  pose proof (b2z_le_1 (Z.testbit (word_at b (rs + g + GROUPS_PER_ROW cfg)) (4 * i))).
  assert (Hle : forall j k, 0 <= k < 16 -> 0 <= lane k (cs j) <= 3).
  { intros j k Hk. split; [apply lane_range; lia|].
    apply (col_sums_lanes_le cfg b (rs + j)). exact Hk. }
  assert (0 <= (if i =? 15 then (if g =? 0 then 0 else lane 0 (cs (g - 1)))
                else lane (i + 1) (cs g)) <= 3).
  { destruct (Z.eqb_spec i 15); [destruct (Z.eqb_spec g 0); [lia|]|];
      apply Hle; lia. }
  assert (0 <= (if i =? 0 then lane 15 (cs (g + 1)) else lane (i - 1) (cs g)) <= 3).
  { destruct (Z.eqb_spec i 0); apply Hle; lia. }
  lia.
Qed.

Lemma next_word_bits (i : Z) :
  0 <= i < 16 ->
  Z.testbit (next_word cfg b rs g) (4 * i) = life_rule (self i) (window_count i) /\
  Z.testbit (next_word cfg b rs g) (4 * i + 1) = self i /\
  Z.testbit (next_word cfg b rs g) (4 * i + 2) = false /\
  Z.testbit (next_word cfg b rs g) (4 * i + 3) = false.
Proof.
  intros Hi. unfold next_word.
  set (prev := if g =? 0 then 0 else col_sums cfg b (rs + g - 1)).
  set (curr := col_sums cfg b (rs + g)).
  set (next := col_sums cfg b (rs + g + 1)).
  destruct (packed_word_bits
              (neighborSumToStateBit (neighbor_sum curr prev next)
                                     (self_vals b (rs + g)))
              (self_vals b (rs + g)) i Hi) as (E0 & E1 & E2 & E3).
  rewrite E0, E1, E2, E3, testbit_self_vals by exact Hi.
  split; [|repeat split; reflexivity].
  assert (Hprev : lanes_le 3 prev).
  { unfold prev. destruct (g =? 0); [apply lanes_le_0 | apply col_sums_lanes_le]. }
  destruct (neighbor_sum_lanes curr prev next (col_sums_lanes_le _ _ _) Hprev
              (col_sums_lanes_le _ _ _)) as (_ & Hr & Hl).
  apply testbit_of_flag; [lia|].
  assert (Hsv : 0 <= self_vals b (rs + g) < 2 ^ 64) by apply low_bits_range.
  rewrite (neighborSumToStateBit_lanes _ _ window_count
             (fun j => Z.b2z (Z.testbit (word_at b (rs + g)) (4 * j))) Hr Hsv).
  - unfold life_rule.
    destruct (Z.testbit (word_at b (rs + g)) (4 * i)); simpl;
      destruct (window_count i =? 3), (window_count i =? 2); reflexivity.
  - intros j Hj. split; [apply window_count_range; exact Hj|].
    split; [destruct (Z.testbit (word_at b (rs + g)) (4 * j)); simpl; lia|].
    split; [|apply lane_self_vals; exact Hj].
    rewrite (Hl j Hj). unfold window_count, prev, curr, next.
    replace (rs + g + 1) with (rs + (g + 1)) by lia.
    replace (rs + g - 1) with (rs + (g - 1)) by lia.
    assert (E : lane 0 (if g =? 0 then 0 else col_sums cfg b (rs + (g - 1)))
                = if g =? 0 then 0 else lane 0 (col_sums cfg b (rs + (g - 1))))
      by (destruct (g =? 0); reflexivity).
    rewrite E. lia.
  - exact Hi.
Qed.

End NextWord.

(** ** One row, cell by cell *)

Lemma cell_of_lane (g i : Z) :
  0 <= i < 16 ->
  (16 * g + (15 - i)) / 16 = g /\ 15 - (16 * g + (15 - i)) mod 16 = i.
Proof. intros Hi. Z.div_mod_to_equations. lia. Qed.

Lemma lane_of_cell (c : Z) :
  0 <= 15 - c mod 16 < 16 /\ 16 * (c / 16) + (15 - (15 - c mod 16)) = c.
Proof. Z.div_mod_to_equations. lia. Qed.

Section Cells.
Context (cfg : Config).
Local Abbreviation G := (GROUPS_PER_ROW cfg).

Lemma alive_lane (b : Board) (row g i : Z) :
  0 <= i < 16 ->
  alive cfg b row (16 * g + (15 - i)) = Z.testbit (word_at b (row * G + g)) (4 * i).
Proof.
  intros Hi. unfold alive, cell_group, cell_lane. rewrite CELLS_PER_GROUP_16.
  destruct (cell_of_lane g i Hi) as [-> E].
  replace (16 - 1 - (16 * g + (15 - i)) mod 16) with i by lia. reflexivity.
Qed.

Lemma previous_lane (b : Board) (row g i : Z) :
  0 <= i < 16 ->
  previous cfg b row (16 * g + (15 - i))
  = Z.testbit (word_at b (row * G + g)) (4 * i + 1).
Proof.
  intros Hi. unfold previous, cell_group, cell_lane. rewrite CELLS_PER_GROUP_16.
  destruct (cell_of_lane g i Hi) as [-> E].
  replace (16 - 1 - (16 * g + (15 - i)) mod 16) with i by lia. reflexivity.
Qed.

Lemma lane_col_sums (b : Board) (row g i : Z) :
  0 <= g -> 0 <= i < 16 ->
  lane i (col_sums cfg b (row * G + g)) = column_sum cfg b row (16 * g + (15 - i)).
Proof.
  intros Hg Hi. destruct (col_sums_lanes cfg b (row * G + g)) as [_ Hl].
  rewrite (Hl i Hi). unfold column_sum.
  destruct (Z.ltb_spec (16 * g + (15 - i)) 0); [lia|].
  rewrite !alive_lane, previous_lane by exact Hi.
  replace ((row - 1) * G + g) with (row * G + g - G) by lia.
  replace ((row + 1) * G + g) with (row * G + g + G) by lia.
  reflexivity.
Qed.

Lemma window_count_cell (b : Board) (row col : Z) :
  0 <= col ->
  window_count cfg b (row * G) (col / 16) (15 - col mod 16)
  = seen_count cfg b row col.
Proof.
  intros Hc. destruct (lane_of_cell col) as [Hi Ec].
  assert (Hg : 0 <= col / 16) by (apply Z.div_pos; lia).
  unfold window_count, seen_count.
  rewrite lane_col_sums by assumption. rewrite Ec.
  assert (Ea : alive cfg b row col
               = Z.testbit (word_at b (row * G + col / 16)) (4 * (15 - col mod 16))).
  { unfold alive, cell_group, cell_lane. rewrite CELLS_PER_GROUP_16.
    reflexivity. }
  rewrite <- Ea.
  assert (El : (if 15 - col mod 16 =? 15
                then if col / 16 =? 0 then 0
                     else lane 0 (col_sums cfg b (row * G + (col / 16 - 1)))
                else lane (15 - col mod 16 + 1) (col_sums cfg b (row * G + col / 16)))
               = column_sum cfg b row (col - 1)).
  { destruct (Z.eqb_spec (15 - col mod 16) 15) as [E|E].
    - destruct (Z.eqb_spec (col / 16) 0) as [E0|E0].
      + replace (col - 1) with (-1) by (Z.div_mod_to_equations; lia). reflexivity.
      + rewrite lane_col_sums by lia. f_equal. Z.div_mod_to_equations. lia.
    - rewrite lane_col_sums by lia. f_equal. Z.div_mod_to_equations. lia. }
  assert (Er : (if 15 - col mod 16 =? 0
                then lane 15 (col_sums cfg b (row * G + (col / 16 + 1)))
                else lane (15 - col mod 16 - 1) (col_sums cfg b (row * G + col / 16)))
               = column_sum cfg b row (col + 1)).
  { destruct (Z.eqb_spec (15 - col mod 16) 0) as [E|E].
    - rewrite lane_col_sums by lia. f_equal. Z.div_mod_to_equations. lia.
    - rewrite lane_col_sums by lia. f_equal. Z.div_mod_to_equations. lia. }
  rewrite El, Er. reflexivity.
Qed.

End Cells.

Lemma real_columns_eq (cfg : Config) :
  real_columns cfg = 16 * (GROUPS_PER_ROW cfg - 1).
Proof. unfold real_columns. rewrite CELLS_PER_GROUP_16. lia. Qed.

Lemma cell_group_eq (cfg : Config) (row col : Z) :
  cell_group cfg row col = row * GROUPS_PER_ROW cfg + col / 16.
Proof. reflexivity. Qed.

(** Cells of equal words are equal. *)
Lemma cell_same_word (cfg : Config) (b b' : Board) (row col : Z) :
  word_at b' (cell_group cfg row col) = word_at b (cell_group cfg row col) ->
  alive cfg b' row col = alive cfg b row col /\
  previous cfg b' row col = previous cfg b row col.
Proof. intros E. unfold alive, previous. rewrite E. split; reflexivity. Qed.

Section RowCells.
Context (cfg : Config) (b : Board) (row : Z).
Local Abbreviation G := (GROUPS_PER_ROW cfg).
Local Abbreviation b' := (row_prefix cfg b (row * GROUPS_PER_ROW cfg)
                                     (GROUPS_PER_ROW cfg - 1)).
Context (Hrow : 0 <= row) (HG : 1 <= G)
        (Hlen : (row + 1) * G <= Z.of_nat (length b)).

Lemma row_result_frame (j : Z) :
  ~ (row * G <= j < row * G + (G - 1)) -> word_at b' j = word_at b j.
Proof.
  intros Hj. rewrite word_at_row_prefix by nia.
  destruct (Z.leb_spec (row * G) j), (Z.ltb_spec j (row * G + (G - 1)));
    simpl; try reflexivity. lia.
Qed.

Lemma row_result_cell (col : Z) :
  0 <= col < real_columns cfg ->
  alive cfg b' row col
    = life_rule (alive cfg b row col) (seen_count cfg b row col) /\
  previous cfg b' row col = alive cfg b row col.
Proof.
  intros Hc. rewrite real_columns_eq in Hc.
  destruct (lane_of_cell col) as [Hi Ec].
  assert (Hg : 0 <= col / 16 < G - 1) by (Z.div_mod_to_equations; lia).
  unfold alive at 1, previous, cell_lane. rewrite cell_group_eq, CELLS_PER_GROUP_16.
  replace (16 - 1 - col mod 16) with (15 - col mod 16) by lia.
  rewrite word_at_row_prefix by nia.
  destruct (Z.leb_spec (row * G) (row * G + col / 16)),
    (Z.ltb_spec (row * G + col / 16) (row * G + (G - 1))); simpl; try lia.
  replace (row * G + col / 16 - row * G) with (col / 16) by lia.
  destruct (next_word_bits cfg b (row * G) (col / 16) (15 - col mod 16) Hi)
    as (E0 & E1 & _).
  rewrite E0, E1, window_count_cell by lia.
  split; reflexivity.
Qed.

Lemma row_result_two_bit (j : Z) :
  row * G <= j < row * G + (G - 1) ->
  0 <= word_at b' j < 2 ^ 64 /\ Z.land (word_at b' j) TOP_NYBBLET_BITTMASK = 0.
Proof.
  intros Hj. rewrite word_at_row_prefix by nia.
  destruct (Z.leb_spec (row * G) j), (Z.ltb_spec j (row * G + (G - 1)));
    simpl; try lia.
  unfold next_word. split; [apply packed_word_range|].
  unfold packed_word. rewrite (wrap64_small _ (shifted_low_range _)).
  rewrite Z.shiftl_land, Z.land_lor_distr_l, <- !Z.land_assoc.
  change (Z.land (Z.shiftl LOW_BIT_NYBBLE_BITMASK 1) TOP_NYBBLET_BITTMASK) with 0.
  change (Z.land LOW_BIT_NYBBLE_BITMASK TOP_NYBBLET_BITTMASK) with 0.
  rewrite !Z.land_0_r. reflexivity.
Qed.

End RowCells.

(** ** One generation *)

Lemma length_after_rows (cfg : Config) (n : nat) (b : Board) :
  length (after_rows cfg n b) = length b.
Proof.
  induction n as [|n IH]; [reflexivity|].
  cbn [after_rows]. rewrite length_row_prefix. exact IH.
Qed.

Section Generation.
Context (cfg : Config) (Hfits : fits_uint32 cfg).
Context (b : Board) (Hlen : Z.of_nat (length b) = BOARD_SIZE_GROUPS cfg).

Lemma advance_loop (n : nat) : forall k : nat,
  (k + n)%nat = Z.to_nat (R cfg) ->
  for_loop n (Z.of_nat k + 1) (fun row _ => runRow cfg row) tt (after_rows cfg k b)
  = Some (tt, after_rows cfg (Z.to_nat (R cfg)) b).
Proof.
  induction n as [|n IH]; intros k Hk.
  - simpl. unfold ret. replace (Z.to_nat (R cfg)) with k by lia. reflexivity.
  - cbn [for_loop]. unfold bind.
    rewrite (runRow_result cfg Hfits)
      by (rewrite ?length_after_rows; (exact Hlen || lia)).
    replace (Z.of_nat k + 1) with (Z.of_nat (S k)) by lia.
    change (row_prefix cfg (after_rows cfg k b) (Z.of_nat (S k) * GROUPS_PER_ROW cfg)
              (GROUPS_PER_ROW cfg - 1)) with (after_rows cfg (S k) b).
    replace (Z.of_nat (S k) + 1) with (Z.of_nat (S k) + 1) by lia.
    apply IH. lia.
Qed.

Lemma advance_result :
  advance cfg b = Some (tt, after_rows cfg (Z.to_nat (R cfg)) b).
Proof.
  unfold advance, for_range. rewrite (row_bound cfg Hfits).
  replace (R cfg + 1 - 1) with (R cfg) by lia.
  apply (advance_loop (Z.to_nat (R cfg)) 0%nat). lia.
Qed.

End Generation.

Section Sequential.
Context (cfg : Config) (Hfits : fits_uint32 cfg).
Context (b0 : Board) (Hlen : Z.of_nat (length b0) = BOARD_SIZE_GROUPS cfg).
Context (Hborder : border_zero cfg b0).
Local Abbreviation G := (GROUPS_PER_ROW cfg).

(** Cells of the border and of the padding are dead, as is everything
    left of column 0 and below the last row. *)
Lemma border_cell_dead (row col : Z) :
  -1 <= row <= R cfg + 2 -> -1 <= col < 16 * G ->
  row <= 0 \/ R cfg + 1 <= row \/ col < 0 \/ real_columns cfg <= col ->
  alive cfg b0 row col = false /\ previous cfg b0 row col = false.
Proof.
  intros Hr Hc Hb. pose proof (GROUPS_PER_ROW_pos cfg Hfits) as HG.
  rewrite real_columns_eq in Hb.
  assert (E : word_at b0 (cell_group cfg row col) = 0).
  { rewrite cell_group_eq.
    assert (Hg : -1 <= col / 16 < G) by (Z.div_mod_to_equations; lia).
    destruct (Z_lt_le_dec (row * G + col / 16) 0) as [Hneg|Hpos].
    { apply word_at_outside. lia. }
    destruct (Z_lt_le_dec (row * G + col / 16) (Z.of_nat (length b0))) as [Hin|Hout].
    2:{ apply word_at_outside. lia. }
    rewrite Hlen, (BOARD_SIZE_GROUPS_eq cfg Hfits) in Hin.
    destruct (Z.eq_dec (col / 16) (-1)) as [Em|Em].
    - (* left of column 0: the padding group of the row above *)
      replace (row * G + col / 16) with ((row - 1) * G + (G - 1)) by lia.
      apply Hborder; nia.
    - apply Hborder; try nia.
      destruct Hb as [Hb|[Hb|[Hb|Hb]]]; try nia.
      + Z.div_mod_to_equations. lia.
      + right. right. Z.div_mod_to_equations. lia. }
  unfold alive, previous. rewrite E, !Z.testbit_0_l. split; reflexivity.
Qed.


Lemma rows_done_0 : rows_done cfg b0 0 b0.
Proof. split; [reflexivity | intros; lia | reflexivity]. Qed.

Lemma frame_cell (k : Z) (b : Board) (row col : Z) :
  rows_done cfg b0 k b -> 0 <= col < 16 * G ->
  row <= 0 \/ k < row \/ real_columns cfg <= col ->
  alive cfg b row col = alive cfg b0 row col /\
  previous cfg b row col = previous cfg b0 row col.
Proof.
  intros Hd Hc Hb. apply cell_same_word. rewrite cell_group_eq.
  rewrite real_columns_eq in Hb.
  apply (done_frame cfg b0 k b Hd).
  - Z.div_mod_to_equations. lia.
  - destruct Hb as [Hb|[Hb|Hb]]; [lia | lia |].
    right. right. Z.div_mod_to_equations. lia.
Qed.

(** With [k] rows done, row [k + 1] sees the three cells of a column as
    they were when the generation started. *)
Lemma column_sum_done (k : Z) (b : Board) (col : Z) :
  rows_done cfg b0 k b -> 0 <= k < R cfg -> -1 <= col < 16 * G ->
  column_sum cfg b (k + 1) col
  = Z.b2z (alive cfg b0 (k + 1) col)
    + (Z.b2z (alive cfg b0 k col) + Z.b2z (alive cfg b0 (k + 2) col)).
Proof.
  intros Hd Hk Hc. unfold column_sum.
  destruct (Z.ltb_spec col 0) as [Hneg|Hpos].
  - destruct (border_cell_dead (k + 1) col) as [-> _]; try lia.
    destruct (border_cell_dead k col) as [-> _]; try lia.
    destruct (border_cell_dead (k + 2) col) as [-> _]; try lia.
    reflexivity.
  - destruct (frame_cell k b (k + 1) col Hd) as [-> _]; try lia.
    replace (k + 1 + 1) with (k + 2) by lia.
    destruct (frame_cell k b (k + 2) col Hd) as [-> _]; try lia.
    replace (k + 1 - 1) with k by lia.
    f_equal. f_equal. f_equal.
    destruct (Z_lt_le_dec col (real_columns cfg)) as [Hreal|Hpad].
    + destruct (Z.eq_dec k 0) as [->|Hk0].
      * destruct (frame_cell 0 b 0 col Hd) as [_ ->]; try lia.
        destruct (border_cell_dead 0 col) as [-> ->]; try lia; reflexivity.
      * apply (done_cells cfg b0 k b Hd); lia.
    + destruct (frame_cell k b k col Hd) as [_ ->]; try lia.
      destruct (border_cell_dead k col) as [-> ->]; try lia; reflexivity.
Qed.

Lemma seen_count_done (k : Z) (b : Board) (col : Z) :
  rows_done cfg b0 k b -> 0 <= k < R cfg -> 0 <= col < real_columns cfg ->
  seen_count cfg b (k + 1) col = live_around cfg b0 (k + 1) col.
Proof.
  intros Hd Hk Hc. pose proof (real_columns_eq cfg) as Ecols.
  unfold seen_count. rewrite !(column_sum_done k b) by (assumption || lia).
  destruct (frame_cell k b (k + 1) col Hd) as [-> _]; try lia.
  unfold live_around.
  replace (k + 1 - 1) with k by lia. replace (k + 1 + 1) with (k + 2) by lia.
  lia.
Qed.

Lemma rows_done_step (k : Z) (b : Board) :
  rows_done cfg b0 k b -> 0 <= k < R cfg ->
  rows_done cfg b0 (k + 1) (row_prefix cfg b ((k + 1) * G) (G - 1)).
Proof.
  intros Hd Hk. pose proof (GROUPS_PER_ROW_pos cfg Hfits) as HG.
  assert (Hlenb : (k + 1 + 1) * G <= Z.of_nat (length b)).
  { rewrite (done_length cfg b0 k b Hd), Hlen, (BOARD_SIZE_GROUPS_eq cfg Hfits). nia. }
  split.
  - rewrite length_row_prefix. apply (done_length cfg b0 k b Hd).
  - intros row col Hr Hc.
    destruct (Z.eq_dec row (k + 1)) as [->|Hne].
    + destruct (row_result_cell cfg b (k + 1) ltac:(lia) HG Hlenb col Hc) as [-> ->].
      rewrite seen_count_done by (assumption || lia).
      destruct (frame_cell k b (k + 1) col Hd) as [-> _];
        [rewrite real_columns_eq in Hc; lia | lia |].
      split; reflexivity.
    + destruct (cell_same_word cfg b (row_prefix cfg b ((k + 1) * G) (G - 1)) row col)
        as [-> ->].
      * apply (row_result_frame cfg b (k + 1) ltac:(lia) HG Hlenb).
        rewrite cell_group_eq. rewrite real_columns_eq in Hc.
        assert (0 <= col / 16 < G - 1) by (Z.div_mod_to_equations; lia).
        assert (row * G <= k * G) by nia. lia.
      * apply (done_cells cfg b0 k b Hd); lia.
  - intros row group Hg Hb.
    rewrite (row_result_frame cfg b (k + 1) ltac:(lia) HG Hlenb).
    2:{ destruct Hb as [Hb|[Hb|Hb]].
        - assert (row * G <= 0) by nia. lia.
        - assert ((k + 2) * G <= row * G) by nia. lia.
        - intros [H1 H2]. subst group.
          assert (row * G < (k + 1) * G) by lia.
          assert ((k + 1) * G < (row + 1) * G) by lia.
          assert (row < k + 1) by nia. assert (k + 1 < row + 1) by nia. lia. }
    apply (done_frame cfg b0 k b Hd); lia.
Qed.

Lemma rows_done_after (n : nat) :
  Z.of_nat n <= R cfg -> rows_done cfg b0 (Z.of_nat n) (after_rows cfg n b0).
Proof.
  induction n as [|n IH]; intros Hn.
  - apply rows_done_0.
  - cbn [after_rows]. replace (Z.of_nat (S n)) with (Z.of_nat n + 1) by lia.
    apply rows_done_step; [apply IH|]; lia.
Qed.

End Sequential.

(** ** The grid of a board *)

Lemma lookup_indices (n : Z) (i : nat) :
  (i < Z.to_nat n)%nat -> indices n !! i = Some (Z.of_nat i).
Proof.
  intros Hi. unfold indices.
  change (map Z.of_nat (seq 0 (Z.to_nat n))) with (Z.of_nat <$> seq 0 (Z.to_nat n)).
  rewrite list_lookup_fmap, lookup_seq_lt by exact Hi. reflexivity.
Qed.

Lemma length_indices (n : Z) : length (indices n) = Z.to_nat n.
Proof. unfold indices. rewrite length_map, length_seq. reflexivity. Qed.

Lemma indices_lookup_Some (n : Z) (i : nat) (x : Z) :
  indices n !! i = Some x -> x = Z.of_nat i /\ (i < Z.to_nat n)%nat.
Proof.
  intros E. assert (Hi : (i < Z.to_nat n)%nat).
  { apply lookup_lt_Some in E. rewrite length_indices in E. exact E. }
  rewrite lookup_indices in E by exact Hi. split; congruence.
Qed.

Lemma nth_map_indices {A : Type} (f : Z -> A) (n : Z) (i : Z) (d : A) :
  0 <= i ->
  nth (Z.to_nat i) (map f (indices n)) d = if i <? n then f i else d.
Proof.
  intros Hi. rewrite nth_lookup.
  change (map f (indices n)) with (f <$> indices n). rewrite list_lookup_fmap.
  destruct (Z.ltb_spec i n) as [Hlt|Hge].
  - rewrite lookup_indices by lia. simpl. f_equal. lia.
  - rewrite (proj2 (lookup_ge_None (indices n) (Z.to_nat i)))
      by (rewrite length_indices; lia).
    reflexivity.
Qed.

Lemma grid_get_grid_of_board (cfg : Config) (b : Board) (r c : Z) :
  grid_get (grid_of_board cfg b) r c
  = if (0 <=? r) && (r <? R cfg) && ((0 <=? c) && (c <? real_columns cfg))
    then alive cfg b (r + 1) c else false.
Proof.
  unfold grid_get, grid_of_board.
  destruct (Z.leb_spec 0 r) as [Hr|Hr]; [|reflexivity].
  destruct (Z.leb_spec 0 c) as [Hc|Hc]; simpl; [|rewrite andb_false_r; reflexivity].
  rewrite (nth_map_indices _ (R cfg) r []) by exact Hr.
  destruct (Z.ltb_spec r (R cfg)); simpl.
  - rewrite nth_map_indices by exact Hc. reflexivity.
  - destruct (Z.to_nat c); reflexivity.
Qed.

Section Refinement.
Context (cfg : Config) (Hfits : fits_uint32 cfg).
Context (b0 : Board) (Hlen : Z.of_nat (length b0) = BOARD_SIZE_GROUPS cfg).
Context (Hborder : border_zero cfg b0).
Local Abbreviation G := (GROUPS_PER_ROW cfg).

Lemma grid_get_alive (r c : Z) :
  -1 <= r <= R cfg -> -1 <= c <= real_columns cfg ->
  grid_get (grid_of_board cfg b0) r c = alive cfg b0 (r + 1) c.
Proof.
  intros Hr Hc. rewrite grid_get_grid_of_board.
  pose proof (real_columns_eq cfg) as Ecols.
  pose proof (GROUPS_PER_ROW_pos cfg Hfits) as HG.
  destruct (Z.leb_spec 0 r), (Z.ltb_spec r (R cfg)), (Z.leb_spec 0 c),
    (Z.ltb_spec c (real_columns cfg)); simpl; try reflexivity;
    symmetry; apply (border_cell_dead cfg Hfits b0 Hlen Hborder); lia.
Qed.

Lemma live_neighbours_alive (r c : Z) :
  0 <= r < R cfg -> 0 <= c < real_columns cfg ->
  live_neighbours (grid_of_board cfg b0) r c = live_around cfg b0 (r + 1) c.
Proof.
  intros Hr Hc. unfold live_neighbours, live_around.
  rewrite !grid_get_alive by lia.
  replace (r - 1 + 1) with (r + 1 - 1) by lia.
  reflexivity.
Qed.

Lemma after_rows_border :
  border_zero cfg (after_rows cfg (Z.to_nat (R cfg)) b0).
Proof.
  destruct Hfits as (HR & _).
  pose proof (rows_done_after cfg Hfits b0 Hlen Hborder (Z.to_nat (R cfg)) ltac:(lia))
    as Hd.
  rewrite Z2Nat.id in Hd by lia.
  intros row group Hr Hg Hb.
  rewrite (done_frame cfg b0 _ _ Hd) by lia.
  apply Hborder; assumption.
Qed.

Lemma after_rows_grid :
  grid_of_board cfg (after_rows cfg (Z.to_nat (R cfg)) b0)
  = reference_step (grid_of_board cfg b0).
Proof.
  destruct Hfits as (HR & _).
  pose proof (rows_done_after cfg Hfits b0 Hlen Hborder (Z.to_nat (R cfg)) ltac:(lia))
    as Hd.
  rewrite Z2Nat.id in Hd by lia.
  unfold reference_step. unfold grid_of_board at 1 3.
  change (map ?f ?l) with (f <$> l).
  rewrite imap_fmap. rewrite <- (imap_const _ (indices (R cfg))).
  apply imap_ext. intros i r Hi. apply indices_lookup_Some in Hi as [-> Hi].
  simpl. rewrite imap_fmap. rewrite <- (imap_const _ (indices (real_columns cfg))).
  apply imap_ext. intros j c Hj. apply indices_lookup_Some in Hj as [-> Hj].
  simpl. rewrite live_neighbours_alive by lia.
  apply (done_cells cfg b0 _ _ Hd); lia.
Qed.

End Refinement.

(** ** Repeated generations *)

Lemma interior_index_row (cfg : Config) (row j : Z) :
  1 <= row <= R cfg ->
  row * GROUPS_PER_ROW cfg <= j < row * GROUPS_PER_ROW cfg + (GROUPS_PER_ROW cfg - 1) ->
  interior_index cfg j.
Proof. intros Hr Hj. exists row, (j - row * GROUPS_PER_ROW cfg). lia. Qed.

Section Steps.
Context (cfg : Config) (Hfits : fits_uint32 cfg).
Local Abbreviation G := (GROUPS_PER_ROW cfg).

Lemma after_rows_frame (b : Board) (n : nat) (j : Z) :
  Z.of_nat (length b) = BOARD_SIZE_GROUPS cfg -> Z.of_nat n <= R cfg ->
  ~ interior_index cfg j ->
  word_at (after_rows cfg n b) j = word_at b j.
Proof.
  intros Hlen Hn Hj. pose proof (GROUPS_PER_ROW_pos cfg Hfits) as HG.
  induction n as [|n IH]; [reflexivity|].
  cbn [after_rows]. rewrite row_result_frame.
  - apply IH. lia.
  - lia.
  - exact HG.
  - rewrite length_after_rows, Hlen, (BOARD_SIZE_GROUPS_eq cfg Hfits). nia.
  - intros Hin. apply Hj. apply (interior_index_row cfg (Z.of_nat (S n))); lia.
Qed.

Lemma after_rows_two_bit (b : Board) (n : nat) :
  Z.of_nat (length b) = BOARD_SIZE_GROUPS cfg -> Z.of_nat n <= R cfg ->
  lanes_two_bit b -> lanes_two_bit (after_rows cfg n b).
Proof.
  intros Hlen Hn Hb. pose proof (GROUPS_PER_ROW_pos cfg Hfits) as HG.
  induction n as [|n IH]; [exact Hb|].
  specialize (IH ltac:(lia)).
  assert (Hl : (Z.of_nat (S n) + 1) * G <= Z.of_nat (length (after_rows cfg n b))).
  { rewrite length_after_rows, Hlen, (BOARD_SIZE_GROUPS_eq cfg Hfits). nia. }
  cbn [after_rows]. intros w Hw.
  apply list_elem_of_lookup in Hw as [i Hi].
  assert (Hlt : (i < length (after_rows cfg n b))%nat).
  { apply lookup_lt_Some in Hi. rewrite length_row_prefix in Hi. exact Hi. }
  assert (Ew : w = word_at (row_prefix cfg (after_rows cfg n b) (Z.of_nat (S n) * G)
                                       (G - 1)) (Z.of_nat i)).
  { symmetry. apply word_at_lookup; [lia|]. rewrite Nat2Z.id. exact Hi. }
  destruct (Z_le_dec (Z.of_nat (S n) * G) (Z.of_nat i)) as [Hlo|Hlo];
    [destruct (Z_lt_dec (Z.of_nat i) (Z.of_nat (S n) * G + (G - 1))) as [Hhi|Hhi]|].
  - rewrite Ew. apply row_result_two_bit; (lia || assumption).
  - rewrite row_result_frame in Ew by (lia || assumption).
    apply IH. apply list_elem_of_lookup. exists i.
    rewrite Ew, <- (Nat2Z.id i) at 1. apply lookup_word_at. lia.
  - rewrite row_result_frame in Ew by (lia || assumption).
    apply IH. apply list_elem_of_lookup. exists i.
    rewrite Ew, <- (Nat2Z.id i) at 1. apply lookup_word_at. lia.
Qed.

(** What [advance_reps] computes. *)
Lemma advance_reps_step (b : Board) (reps : nat) :
  Z.of_nat (length b) = BOARD_SIZE_GROUPS cfg ->
  advance_reps cfg (S reps) b
  = advance_reps cfg reps (after_rows cfg (Z.to_nat (R cfg)) b).
Proof.
  intros Hlen. cbn [advance_reps]. unfold bind.
  rewrite (advance_result cfg Hfits b Hlen). reflexivity.
Qed.

(** A property of boards that one generation keeps is kept by any number
    of them, and [advance_reps] returns. *)
Lemma advance_reps_invariant (P : Board -> Prop) :
  (forall b, Z.of_nat (length b) = BOARD_SIZE_GROUPS cfg -> P b ->
             P (after_rows cfg (Z.to_nat (R cfg)) b)) ->
  forall (reps : nat) (b : Board),
    Z.of_nat (length b) = BOARD_SIZE_GROUPS cfg -> P b ->
    exists b', advance_reps cfg reps b = Some (tt, b') /\
               Z.of_nat (length b') = BOARD_SIZE_GROUPS cfg /\ P b'.
Proof.
  intros Hstep reps. induction reps as [|reps IH]; intros b Hlen Hb.
  - exists b. repeat split; assumption.
  - rewrite advance_reps_step by exact Hlen.
    apply IH; [rewrite length_after_rows; exact Hlen | apply Hstep; assumption].
Qed.

End Steps.

Lemma forallb_indices (n : Z) (P : Z -> bool) :
  forallb P (indices n) = true -> forall i, 0 <= i < n -> P i = true.
Proof.
  intros H i Hi. rewrite forallb_forall in H. apply H.
  unfold indices. rewrite in_map_iff. exists (Z.to_nat i). split; [lia|].
  apply in_seq. lia.
Qed.

Lemma border_zero_check_sound (cfg : Config) (b : Board) :
  border_zero_check cfg b = true -> border_zero cfg b.
Proof.
  intros H row group Hr Hg Hb.
  unfold border_zero_check in H.
  assert (Hr' : 0 <= row < R cfg + 2) by lia.
  pose proof (forallb_indices _ _ H row Hr') as H1. simpl in H1.
  pose proof (forallb_indices _ _ H1 group Hg) as H2. simpl in H2.
  assert (E : (row =? 0) || (row =? R cfg + 1) || (group =? GROUPS_PER_ROW cfg - 1) = true).
  { destruct Hb as [->|[->| ->]].
    - reflexivity.
    - rewrite Z.eqb_refl, orb_true_r. reflexivity.
    - rewrite Z.eqb_refl, orb_true_r. reflexivity. }
  rewrite E in H2. simpl in H2. apply Z.eqb_eq. exact H2.
Qed.

Lemma demo_config_fits : fits_uint32 demo_config.
Proof. repeat split; vm_compute; (reflexivity || discriminate). Qed.

Lemma demo_board_border : border_zero demo_config demo_board.
Proof. apply border_zero_check_sound. vm_compute. reflexivity. Qed.

(** ** The kernel on the small board *)

(** One generation turns the horizontal blinker into a vertical one in
    column 16; the two cells that died keep their old state in bit 1. *)
Example advance_demo_board :
  advance demo_config demo_board
  = Some (tt, [ 0; 0; 0;
                0; 0x1000000000000000; 0;
                0x0000000000000002; 0x3200000000000000; 0;
                0; 0x1000000000000000; 0;
                0; 0; 0 ]).
Proof. vm_compute. reflexivity. Qed.

(** Two generations give the first grid back. *)
Example advance_twice_demo_board :
  option_map (fun r => grid_of_board demo_config (snd r))
             (advance_reps demo_config 2 demo_board)
  = Some (grid_of_board demo_config demo_board).
Proof. vm_compute. reflexivity. Qed.

(** With the rows run from the bottom up, row 3 and row 1 see no live cell
    in row 2 and the blinker loses its ends. *)
Example advance_schedule_demo_board :
  advance_schedule demo_config [3; 2; 1] demo_board
  = Some (tt, [ 0; 0; 0;
                0; 0; 0;
                0x0000000000000002; 0x3200000000000000; 0;
                0; 0; 0;
                0; 0; 0 ]).
Proof. vm_compute. reflexivity. Qed.

(** A buffer that is too short is left through a failed access. *)
Example advance_short_buffer : advance demo_config [0; 0; 0] = None.
Proof. vm_compute. reflexivity. Qed.

(** * Properties of the kernel *)

(** C1: for a board with dead border and padding, any number of sequential
    generations of [advance] return, and the alive/dead grid of the result is
    the grid the reference simulation (textbook rule, double buffer) computes
    from the initial grid in as many steps. *)
Theorem advance_refines_reference (cfg : Config) (b : Board) (steps : nat) :
  fits_uint32 cfg ->
  Z.of_nat (length b) = BOARD_SIZE_GROUPS cfg ->
  border_zero cfg b ->
  exists b', advance_reps cfg steps b = Some (tt, b') /\
             grid_of_board cfg b' = reference_run steps (grid_of_board cfg b).
Proof.
  intros Hfits. revert b. induction steps as [|steps IH]; intros b Hlen Hborder.
  - exists b. split; reflexivity.
  - rewrite (advance_reps_step cfg Hfits) by exact Hlen.
    destruct (IH (after_rows cfg (Z.to_nat (R cfg)) b)) as (b' & Hrun & Hgrid).
    + rewrite length_after_rows. exact Hlen.
    + apply after_rows_border; assumption.
    + exists b'. split; [exact Hrun|].
      rewrite Hgrid. cbn [reference_run]. f_equal.
      apply after_rows_grid; assumption.
Qed.

Lemma advance_refines_reference_witness :
  fits_uint32 demo_config /\
  Z.of_nat (length demo_board) = BOARD_SIZE_GROUPS demo_config /\
  border_zero demo_config demo_board /\
  exists b', advance_reps demo_config 3 demo_board = Some (tt, b') /\
             grid_of_board demo_config b'
             = reference_run 3 (grid_of_board demo_config demo_board).
Proof.
  split; [exact demo_config_fits|]. split; [reflexivity|].
  split; [exact demo_board_border|].
  apply (advance_refines_reference demo_config demo_board 3).
  - exact demo_config_fits.
  - reflexivity.
  - exact demo_board_border.
Defined.

(** C3: when every lane of the sum word holds [n i + s i] with a neighbor
    count [n i] in 0..8 and a self bit [s i], and the self word holds [s i],
    lane [i] of the result of [neighborSumToStateBit] is 1 when [n i = 3] or
    [s i = 1] and [n i = 2], and 0 otherwise, for all 16 lanes; the result in
    a lane is the same for any other valid inputs that agree on that lane. *)
Theorem neighborSumToStateBit_truth_table (sum self : Z) (n s : Z -> Z) :
  rule_inputs sum self n s ->
  (forall i, 0 <= i < 16 ->
     lane i (neighborSumToStateBit sum self)
     = if (n i =? 3) || ((s i =? 1) && (n i =? 2)) then 1 else 0) /\
  (forall sum' self' n' s' i,
     rule_inputs sum' self' n' s' -> 0 <= i < 16 ->
     lane i sum' = lane i sum -> lane i self' = lane i self ->
     lane i (neighborSumToStateBit sum' self')
     = lane i (neighborSumToStateBit sum self)).
Proof.
  intros (Hsum & Hself & Hl). split.
  - apply neighborSumToStateBit_lanes; assumption.
  - intros sum' self' n' s' i (Hsum' & Hself' & Hl') Hi Es Ev.
    rewrite (neighborSumToStateBit_lanes sum self n s) by assumption.
    rewrite (neighborSumToStateBit_lanes sum' self' n' s') by assumption.
    destruct (Hl i Hi) as (_ & _ & E1 & E2).
    destruct (Hl' i Hi) as (_ & _ & E1' & E2').
    assert (Hs : s' i = s i) by lia. assert (Hn : n' i = n i) by lia.
    rewrite Hs, Hn. reflexivity.
Qed.

Lemma neighborSumToStateBit_truth_table_witness :
  rule_inputs 0x4933 0x0101 (fun i => lane i 0x4933 - lane i 0x0101)
              (fun i => lane i 0x0101) /\
  lane 0 (neighborSumToStateBit 0x4933 0x0101) = 1 /\
  lane 2 (neighborSumToStateBit 0x4933 0x0101) = 0.
Proof.
  assert (H : rule_inputs 0x4933 0x0101 (fun i => lane i 0x4933 - lane i 0x0101)
                          (fun i => lane i 0x0101)).
  { split; [lia|]. split; [lia|]. intros i Hi.
    each_lane i Hi; vm_compute; intuition congruence. }
  split; [exact H|].
  destruct (neighborSumToStateBit_truth_table _ _ _ _ H) as [Ht _].
  split; [exact (Ht 0 ltac:(lia)) | exact (Ht 2 ltac:(lia))].
Defined.

Lemma load_out_of_range (b : Board) (i : Z) :
  ~ 0 <= i < Z.of_nat (length b) -> load i b = None.
Proof.
  intros Hi. unfold load. destruct (Z.leb_spec 0 i); [|reflexivity].
  rewrite (proj2 (lookup_ge_None b (Z.to_nat i))) by lia. reflexivity.
Qed.

Lemma wrap64_negative (x : Z) : - 2 ^ 64 <= x < 0 -> wrap64 x = x + 2 ^ 64.
Proof.
  intros Hx. unfold wrap64.
  change (2 ^ 64) with 18446744073709551616 in *.
  Z.div_mod_to_equations. lia.
Qed.

(** Whenever [getColSumsForGroup] returns, it read the group and the groups
    one row above and below inside the buffer, and left the board alone. *)
Lemma getColSumsForGroup_Some (cfg : Config) (b b' : Board) (idx sums vals : Z) :
  Z.of_nat (length b) <= 2 ^ 32 ->
  getColSumsForGroup cfg idx b = Some ((sums, vals), b') ->
  b' = b /\ sums = col_sums cfg b idx /\ vals = self_vals b idx /\
  GROUPS_PER_ROW cfg <= idx /\ idx + GROUPS_PER_ROW cfg < Z.of_nat (length b).
Proof.
  intros Hlen H. pose proof (GROUPS_PER_ROW_range cfg) as HG.
  destruct (Z_le_dec (GROUPS_PER_ROW cfg) idx) as [Hlo|Hlo];
    [destruct (Z_lt_dec (idx + GROUPS_PER_ROW cfg) (Z.of_nat (length b))) as [Hhi|Hhi]|].
  - rewrite getColSumsForGroup_in_range in H by lia.
    injection H as <- <- <-. repeat split; assumption.
  - exfalso. unfold getColSumsForGroup, bind in H.
    destruct (Z_lt_dec idx (Z.of_nat (length b))) as [Hin|Hout].
    + rewrite load_in_range in H by lia.
      rewrite (wrap64_small (idx - GROUPS_PER_ROW cfg)) in H by lia.
      rewrite load_in_range in H by lia.
      rewrite (wrap64_small (idx + GROUPS_PER_ROW cfg)) in H by lia.
      rewrite load_out_of_range in H by lia. discriminate.
    + rewrite load_out_of_range in H by lia. discriminate.
  - exfalso. unfold getColSumsForGroup, bind in H.
    destruct (Z_le_dec 0 idx) as [Hnn|Hneg];
      [destruct (Z_lt_dec idx (Z.of_nat (length b))) as [Hin|Hout]|].
    + rewrite load_in_range in H by lia.
      rewrite (wrap64_negative (idx - GROUPS_PER_ROW cfg)) in H by lia.
      rewrite load_out_of_range in H by lia. discriminate.
    + rewrite load_out_of_range in H by lia. discriminate.
    + rewrite load_out_of_range in H by lia. discriminate.
Qed.

(** C4: for a group index with a group one row above and one row below in
    the buffer, [getColSumsForGroup] returns, leaves the board as it was,
    puts the bit-0 lanes of the group in [group_val_out], and every lane of
    the column sums is the self bit plus bit 1 of the lane of the group above
    (bit 0 of that word shifted right by one) plus bit 0 of the lane of the
    group below. *)
Theorem getColSumsForGroup_contract (cfg : Config) (b : Board) (group_index : Z) :
  Z.of_nat (length b) <= 2 ^ 64 ->
  GROUPS_PER_ROW cfg <= group_index ->
  group_index + GROUPS_PER_ROW cfg < Z.of_nat (length b) ->
  exists colSums group_val_out,
    getColSumsForGroup cfg group_index b = Some ((colSums, group_val_out), b) /\
    group_val_out = Z.land (word_at b group_index) LOW_BIT_NYBBLE_BITMASK /\
    forall i, 0 <= i < 16 ->
      lane i group_val_out = Z.b2z (Z.testbit (word_at b group_index) (4 * i)) /\
      Z.testbit (Z.shiftr (word_at b (group_index - GROUPS_PER_ROW cfg)) 1) (4 * i)
        = Z.testbit (word_at b (group_index - GROUPS_PER_ROW cfg)) (4 * i + 1) /\
      lane i colSums
        = lane i group_val_out
          + Z.b2z (Z.testbit (word_at b (group_index - GROUPS_PER_ROW cfg)) (4 * i + 1))
          + Z.b2z (Z.testbit (word_at b (group_index + GROUPS_PER_ROW cfg)) (4 * i)).
Proof.
  intros Hlen Hlo Hhi.
  exists (col_sums cfg b group_index), (self_vals b group_index).
  split; [apply getColSumsForGroup_in_range; assumption|].
  split; [reflexivity|].
  intros i Hi. destruct (col_sums_lanes cfg b group_index) as [_ Hl].
  rewrite (Hl i Hi), lane_self_vals by exact Hi.
  split; [reflexivity|]. split; [apply Z.shiftr_spec; lia | lia].
Qed.

Lemma getColSumsForGroup_contract_witness :
  Z.of_nat (length demo_board) <= 2 ^ 64 /\
  GROUPS_PER_ROW demo_config <= 7 /\
  7 + GROUPS_PER_ROW demo_config < Z.of_nat (length demo_board) /\
  exists colSums group_val_out,
    getColSumsForGroup demo_config 7 demo_board
    = Some ((colSums, group_val_out), demo_board) /\
    lane 15 colSums = 1.
Proof.
  assert (H1 : Z.of_nat (length demo_board) <= 2 ^ 64) by (vm_compute; discriminate).
  assert (H2 : GROUPS_PER_ROW demo_config <= 7) by (vm_compute; discriminate).
  assert (H3 : 7 + GROUPS_PER_ROW demo_config < Z.of_nat (length demo_board))
    by reflexivity.
  repeat (split; [assumption|]).
  destruct (getColSumsForGroup_contract demo_config demo_board 7 H1 H2 H3)
    as (colSums & vals & Hrun & _ & Hl).
  exists colSums, vals. split; [exact Hrun|].
  destruct (Hl 15 ltac:(lia)) as (E1 & _ & E2). rewrite E2, E1. reflexivity.
Defined.

(** C6: [updateBoardIndex] stores, at its index and nowhere else, the bit-0
    lanes of the previous state shifted to bit 1 or-ed with the bit-0 lanes of
    the new state; the word is a [uint64_t] whose lanes have bits 2 and 3
    clear, bit 0 is the new bit and bit 1 is bit 0 of the previous state, so
    that the bit the group held before the write is its bit 1 after it when
    the previous state passed is that of the group; [runRow] passes it: after
    a row, bit 1 of each of its cells is the bit 0 the cell had before. *)
Theorem updateBoardIndex_contract (b : Board) (board_index new_state prev_state : Z) :
  0 <= board_index < Z.of_nat (length b) ->
  (exists b', updateBoardIndex board_index new_state prev_state b = Some (tt, b') /\
    length b' = length b /\
    word_at b' board_index
      = Z.lor (Z.shiftl (Z.land prev_state LOW_BIT_NYBBLE_BITMASK) 1)
              (Z.land new_state LOW_BIT_NYBBLE_BITMASK) /\
    (forall j, j <> board_index -> word_at b' j = word_at b j) /\
    0 <= word_at b' board_index < 2 ^ 64 /\
    forall i, 0 <= i < 16 ->
      Z.testbit (word_at b' board_index) (4 * i) = Z.testbit new_state (4 * i) /\
      Z.testbit (word_at b' board_index) (4 * i + 1) = Z.testbit prev_state (4 * i) /\
      Z.testbit (word_at b' board_index) (4 * i + 2) = false /\
      Z.testbit (word_at b' board_index) (4 * i + 3) = false /\
      (Z.testbit prev_state (4 * i) = Z.testbit (word_at b board_index) (4 * i) ->
       Z.testbit (word_at b' board_index) (4 * i + 1)
       = Z.testbit (word_at b board_index) (4 * i))) /\
  (forall cfg row,
     fits_uint32 cfg -> Z.of_nat (length b) = BOARD_SIZE_GROUPS cfg ->
     1 <= row <= R cfg ->
     exists b', runRow cfg row b = Some (tt, b') /\
       forall col, 0 <= col < real_columns cfg ->
         previous cfg b' row col = alive cfg b row col).
Proof.
  intros Hi. split.
  - exists (<[Z.to_nat board_index := packed_word new_state prev_state]> b).
    split; [apply updateBoardIndex_in_range; exact Hi|].
    split; [apply length_insert|].
    assert (E : word_at (<[Z.to_nat board_index := packed_word new_state prev_state]> b)
                        board_index = packed_word new_state prev_state).
    { rewrite word_at_insert by exact Hi. rewrite Z.eqb_refl. reflexivity. }
    rewrite E. split.
    { unfold packed_word. rewrite (wrap64_small _ (shifted_low_range _)). reflexivity. }
    split.
    { intros j Hj. rewrite word_at_insert by exact Hi.
      destruct (Z.eqb_spec j board_index); [contradiction | reflexivity]. }
    split; [apply packed_word_range|].
    intros i Hl.
    destruct (packed_word_bits new_state prev_state i Hl) as (E0 & E1 & E2 & E3).
    repeat split; try assumption. intros <-. exact E1.
  - intros cfg row Hfits Hlen Hrow.
    pose proof (GROUPS_PER_ROW_pos cfg Hfits) as HG.
    exists (row_prefix cfg b (row * GROUPS_PER_ROW cfg) (GROUPS_PER_ROW cfg - 1)).
    split; [apply runRow_result; assumption|].
    intros col Hcol. apply row_result_cell; try assumption; [lia|].
    rewrite Hlen, (BOARD_SIZE_GROUPS_eq cfg Hfits). nia.
Qed.

Lemma updateBoardIndex_contract_witness :
  0 <= 7 < Z.of_nat (length demo_board) /\
  exists b', updateBoardIndex 7 0x0110 0x1100000000000000 demo_board = Some (tt, b') /\
             word_at b' 7 = 0x2200000000000110.
Proof.
  assert (H : 0 <= 7 < Z.of_nat (length demo_board)) by (vm_compute; split; [discriminate|reflexivity]).
  split; [exact H|].
  destruct (updateBoardIndex_contract demo_board 7 0x0110 0x1100000000000000 H)
    as [(b' & Hrun & _ & Hw & _) _].
  exists b'. split; [exact Hrun|]. rewrite Hw. reflexivity.
Defined.

(** C7: any number of generations return and leave every word that is not a
    real group of a row in 1..R as it was; so a board whose border rows and
    padding groups are zero keeps them zero. *)
Theorem border_immutable (cfg : Config) (b : Board) (steps : nat) :
  fits_uint32 cfg ->
  Z.of_nat (length b) = BOARD_SIZE_GROUPS cfg ->
  exists b', advance_reps cfg steps b = Some (tt, b') /\
    (forall i, ~ interior_index cfg i -> word_at b' i = word_at b i) /\
    (border_zero cfg b -> border_zero cfg b').
Proof.
  intros Hfits Hlen.
  destruct (advance_reps_invariant cfg Hfits
              (fun b' => forall i, ~ interior_index cfg i -> word_at b' i = word_at b i))
    with (reps := steps) (b := b) as (b' & Hrun & _ & Hframe).
  - intros b1 Hlen1 H1 i Hi.
    rewrite (after_rows_frame cfg Hfits) by (assumption || (destruct Hfits; lia)).
    apply H1. exact Hi.
  - exact Hlen.
  - reflexivity.
  - exists b'. split; [exact Hrun|]. split; [exact Hframe|].
    intros Hborder row group Hr Hg Hb.
    rewrite Hframe; [apply Hborder; assumption|].
    intros (row' & group' & Hr' & Hg' & E).
    assert (row' = row) by nia. subst row'.
    assert (group' = group) by lia. subst group'. lia.
Qed.

Lemma border_immutable_witness :
  fits_uint32 demo_config /\
  Z.of_nat (length demo_board) = BOARD_SIZE_GROUPS demo_config /\
  exists b', advance_reps demo_config 5 demo_board = Some (tt, b') /\
             word_at b' 2 = 0 /\ word_at b' 8 = 0 /\ border_zero demo_config b'.
Proof.
  split; [exact demo_config_fits|]. split; [reflexivity|].
  destruct (border_immutable demo_config demo_board 5 demo_config_fits eq_refl)
    as (b' & Hrun & Hframe & Hborder).
  exists b'. split; [exact Hrun|].
  assert (Hni : forall i, i = 2 \/ i = 8 -> ~ interior_index demo_config i).
  { intros i Hc (row' & group' & Hr & Hg & E).
    change (GROUPS_PER_ROW demo_config) with 3 in *. lia. }
  split; [rewrite (Hframe 2 (Hni 2 ltac:(lia))); reflexivity|].
  split; [rewrite (Hframe 8 (Hni 8 ltac:(lia))); reflexivity|].
  exact (Hborder demo_board_border).
Defined.

(** C9: on a buffer of [BOARD_SIZE_GROUPS] words [advance] returns, that is,
    no access left the buffer; and for every row in 1..R and group in
    0..GROUPS_PER_ROW-1 the indices the code computes (the group, the groups
    a row before and after it, the group written) lie in the buffer. *)
Theorem advance_in_bounds (cfg : Config) (b : Board) :
  fits_uint32 cfg ->
  Z.of_nat (length b) = BOARD_SIZE_GROUPS cfg ->
  (exists b', advance cfg b = Some (tt, b')) /\
  forall row group,
    1 <= row <= R cfg -> 0 <= group < GROUPS_PER_ROW cfg ->
    let row_start_index := wrap32 (row * GROUPS_PER_ROW cfg) in
    let group_index := wrap32 (row_start_index + group) in
    0 <= group_index < BOARD_SIZE_GROUPS cfg /\
    0 <= wrap64 (group_index - GROUPS_PER_ROW cfg) < BOARD_SIZE_GROUPS cfg /\
    0 <= wrap64 (group_index + GROUPS_PER_ROW cfg) < BOARD_SIZE_GROUPS cfg /\
    (1 <= group -> 0 <= wrap32 (group_index - 1) < BOARD_SIZE_GROUPS cfg).
Proof.
  intros Hfits Hlen. split.
  - exists (after_rows cfg (Z.to_nat (R cfg)) b). apply advance_result; assumption.
  - intros row group Hr Hg. cbv zeta.
    pose proof (BOARD_SIZE_GROUPS_lt cfg) as Hlt.
    pose proof (GROUPS_PER_ROW_pos cfg Hfits) as HG.
    rewrite (BOARD_SIZE_GROUPS_eq cfg Hfits) in *.
    assert (Hrs : 0 <= row * GROUPS_PER_ROW cfg) by nia.
    assert (Hend : (row + 2) * GROUPS_PER_ROW cfg
                   <= GROUPS_PER_ROW cfg * (R cfg + 2)) by nia.
    rewrite (wrap32_small (row * GROUPS_PER_ROW cfg)) by lia.
    rewrite (wrap32_small (row * GROUPS_PER_ROW cfg + group)) by lia.
    rewrite (wrap64_small (row * GROUPS_PER_ROW cfg + group - GROUPS_PER_ROW cfg)) by nia.
    rewrite (wrap64_small (row * GROUPS_PER_ROW cfg + group + GROUPS_PER_ROW cfg)) by lia.
    split; [lia|]. split; [nia|]. split; [lia|].
    intros Hg1. rewrite wrap32_small by lia. lia.
Qed.

Lemma advance_in_bounds_witness :
  fits_uint32 demo_config /\
  Z.of_nat (length demo_board) = BOARD_SIZE_GROUPS demo_config /\
  (exists b', advance demo_config demo_board = Some (tt, b')) /\
  0 <= wrap64 (wrap32 (wrap32 (1 * GROUPS_PER_ROW demo_config) + 0)
               - GROUPS_PER_ROW demo_config) < BOARD_SIZE_GROUPS demo_config.
Proof.
  split; [exact demo_config_fits|]. split; [reflexivity|].
  destruct (advance_in_bounds demo_config demo_board demo_config_fits eq_refl)
    as [Hrun Hidx].
  split; [exact Hrun|].
  assert (H1 : 1 <= 1 <= R demo_config) by (vm_compute; split; discriminate).
  assert (H2 : 0 <= 0 < GROUPS_PER_ROW demo_config)
    by (vm_compute; split; [discriminate|reflexivity]).
  exact (proj1 (proj2 (Hidx 1 0 H1 H2))).
Defined.

Lemma lanes_le_left (curr prev : Z) :
  lanes_le 3 curr -> lanes_le 3 prev ->
  lanes_le 3 (createLeftNeighborsFromColSums curr prev).
Proof.
  intros [Hc Hcl] [Hp Hpl]. split; [apply createLeftNeighborsFromColSums_range; exact Hc|].
  intros i Hi. rewrite createLeftNeighborsFromColSums_lanes by assumption.
  destruct (Z.eqb_spec i 15); [apply Hpl | apply Hcl]; lia.
Qed.

Lemma lanes_le_right (curr next : Z) :
  lanes_le 3 curr -> lanes_le 3 next ->
  lanes_le 3 (createRightNeighborsFromColSums curr next).
Proof.
  intros [Hc Hcl] [Hp Hpl]. split; [apply createRightNeighborsFromColSums_range; exact Hp|].
  intros i Hi. rewrite createRightNeighborsFromColSums_lanes by assumption.
  destruct (Z.eqb_spec i 0); [apply Hpl | apply Hcl]; lia.
Qed.

(** The arithmetic of one iteration of [runRow] stays inside the lanes. *)
Lemma window_arithmetic (cfg : Config) (b : Board) (idx prev next : Z) :
  lanes_le 3 prev -> lanes_le 3 next ->
  let curr := col_sums cfg b idx in
  let vals := self_vals b idx in
  let left := createLeftNeighborsFromColSums curr prev in
  let right := createRightNeighborsFromColSums curr next in
  let current_neighbors := wrap64 (wrap64 (curr + left) + right) in
  lanes_le 9 current_neighbors /\
  current_neighbors = curr + left + right /\
  wrap64 (current_neighbors - vals) = current_neighbors - vals /\
  forall i, 0 <= i < 16 ->
    lane i (curr + left) = lane i curr + lane i left /\
    lane i current_neighbors = lane i curr + lane i left + lane i right /\
    lane i (current_neighbors - vals) = lane i current_neighbors - lane i vals.
Proof.
  intros Hprev Hnext curr vals left right current_neighbors.
  pose proof (col_sums_lanes_le cfg b idx) as Hcurr. fold curr in Hcurr.
  pose proof (lanes_le_left curr prev Hcurr Hprev) as Hleft. fold left in Hleft.
  pose proof (lanes_le_right curr next Hcurr Hnext) as Hright. fold right in Hright.
  destruct Hcurr as [Hc Hcl], Hleft as [Hl Hll], Hright as [Hr Hrl].
  assert (Hnn : forall x i, 0 <= i < 16 -> 0 <= lane i x)
    by (intros; apply lane_range; lia).
  destruct (add_lanes curr left Hc Hl) as [Hr1 Hl1].
  { intros i Hi. specialize (Hcl i Hi). specialize (Hll i Hi). lia. }
  destruct (add_lanes (curr + left) right Hr1 Hr) as [Hr2 Hl2].
  { intros i Hi. rewrite Hl1 by exact Hi.
    specialize (Hcl i Hi). specialize (Hll i Hi). specialize (Hrl i Hi). lia. }
  assert (E : current_neighbors = curr + left + right).
  { unfold current_neighbors. rewrite (wrap64_small _ Hr1). apply wrap64_small. exact Hr2. }
  assert (Hv : 0 <= vals < 2 ^ 64) by apply low_bits_range.
  assert (Hvl : forall i, 0 <= i < 16 -> lane i vals <= lane i curr).
  { intros i Hi. unfold vals, curr. rewrite lane_self_vals by exact Hi.
    destruct (col_sums_lanes cfg b idx) as [_ Hcs]. rewrite (Hcs i Hi).
    pose proof (b2z_le_1 (Z.testbit (word_at b (idx - GROUPS_PER_ROW cfg)) (4 * i + 1))).
    pose proof (b2z_le_1 (Z.testbit (word_at b (idx + GROUPS_PER_ROW cfg)) (4 * i))).
    lia. }
  destruct (sub_lanes (curr + left + right) vals Hr2 Hv) as [Hr3 Hl3].
  { intros i Hi. rewrite Hl2, Hl1 by exact Hi.
    specialize (Hvl i Hi). pose proof (Hnn left i Hi). pose proof (Hnn right i Hi). lia. }
  rewrite E. split.
  { split; [exact Hr2|]. intros i Hi. rewrite Hl2, Hl1 by exact Hi.
    specialize (Hcl i Hi). specialize (Hll i Hi). specialize (Hrl i Hi). lia. }
  split; [reflexivity|]. split; [apply wrap64_small; exact Hr3|].
  intros i Hi. split; [apply Hl1; exact Hi|].
  split; [rewrite Hl2, Hl1 by exact Hi; reflexivity | apply Hl3; exact Hi].
Qed.

(** C8: any number of generations from a board whose words are [uint64_t]
    with bits 2 and 3 of every lane clear return a board of that kind; on it,
    every lane of a result of [getColSumsForGroup] is at most 3, every lane
    of the sum [runRow] assembles from three such results (or the zero
    sentinel on the left) is at most 9, and the two additions and the
    subtraction of the self lanes are exact lane by lane: nothing wraps,
    carries or borrows across a lane. *)
Theorem lane_bound_invariant (cfg : Config) (b : Board) (steps : nat) :
  fits_uint32 cfg ->
  Z.of_nat (length b) = BOARD_SIZE_GROUPS cfg ->
  lanes_two_bit b ->
  exists b', advance_reps cfg steps b = Some (tt, b') /\
    lanes_two_bit b' /\
    forall idx curr vals prev pvals next nvals,
      getColSumsForGroup cfg idx b' = Some ((curr, vals), b') ->
      prev = 0 \/ getColSumsForGroup cfg (idx - 1) b' = Some ((prev, pvals), b') ->
      getColSumsForGroup cfg (idx + 1) b' = Some ((next, nvals), b') ->
      let left := createLeftNeighborsFromColSums curr prev in
      let right := createRightNeighborsFromColSums curr next in
      let current_neighbors := wrap64 (wrap64 (curr + left) + right) in
      lanes_le 3 curr /\ lanes_le 9 current_neighbors /\
      current_neighbors = curr + left + right /\
      wrap64 (current_neighbors - vals) = current_neighbors - vals /\
      forall i, 0 <= i < 16 ->
        lane i (curr + left) = lane i curr + lane i left /\
        lane i current_neighbors = lane i curr + lane i left + lane i right /\
        lane i (current_neighbors - vals) = lane i current_neighbors - lane i vals.
Proof.
  intros Hfits Hlen Hb.
  destruct (advance_reps_invariant cfg Hfits lanes_two_bit)
    with (reps := steps) (b := b) as (b' & Hrun & Hlen' & Htwo).
  - intros b1 Hlen1 H1. apply (after_rows_two_bit cfg Hfits); try assumption.
    destruct Hfits; lia.
  - exact Hlen.
  - exact Hb.
  - exists b'. split; [exact Hrun|]. split; [exact Htwo|].
    intros idx curr vals prev pvals next nvals Hc Hp Hn.
    pose proof (BOARD_SIZE_GROUPS_lt cfg) as Hlt.
    apply getColSumsForGroup_Some in Hc as (_ & -> & -> & _); [|lia].
    apply getColSumsForGroup_Some in Hn as (_ & -> & _); [|lia].
    assert (Hprev : lanes_le 3 prev).
    { destruct Hp as [->|Hp]; [apply lanes_le_0|].
      apply getColSumsForGroup_Some in Hp as (_ & -> & _); [|lia].
      apply col_sums_lanes_le. }
    split; [apply col_sums_lanes_le|].
    apply window_arithmetic; [exact Hprev | apply col_sums_lanes_le].
Qed.

Lemma demo_board_two_bit : lanes_two_bit demo_board.
Proof.
  unfold lanes_two_bit. apply Forall_forall.
  repeat constructor; (vm_compute; (reflexivity || discriminate)).
Qed.

Lemma lane_bound_invariant_witness :
  fits_uint32 demo_config /\
  Z.of_nat (length demo_board) = BOARD_SIZE_GROUPS demo_config /\
  lanes_two_bit demo_board /\
  exists b', advance_reps demo_config 2 demo_board = Some (tt, b') /\
             lanes_two_bit b'.
Proof.
  split; [exact demo_config_fits|]. split; [reflexivity|].
  split; [exact demo_board_two_bit|].
  destruct (lane_bound_invariant demo_config demo_board 2 demo_config_fits eq_refl
              demo_board_two_bit) as (b' & Hrun & Htwo & _).
  exists b'. split; assumption.
Defined.

Lemma padding_column_sum (cfg : Config) (b : Board) (row : Z) :
  1 <= GROUPS_PER_ROW cfg ->
  (forall r, row - 1 <= r <= row + 1 ->
     word_at b (r * GROUPS_PER_ROW cfg + (GROUPS_PER_ROW cfg - 1)) = 0) ->
  column_sum cfg b row (real_columns cfg) = 0 /\
  col_sums cfg b (row * GROUPS_PER_ROW cfg + (GROUPS_PER_ROW cfg - 1)) = 0.
Proof.
  intros HG Hpad. split.
  - unfold column_sum. rewrite real_columns_eq.
    destruct (Z.ltb_spec (16 * (GROUPS_PER_ROW cfg - 1)) 0); [lia|].
    unfold alive, previous. rewrite !cell_group_eq.
    replace (16 * (GROUPS_PER_ROW cfg - 1) / 16) with (GROUPS_PER_ROW cfg - 1)
      by (Z.div_mod_to_equations; lia).
    rewrite !Hpad by lia. rewrite !Z.testbit_0_l. reflexivity.
  - unfold col_sums, self_vals.
    replace (row * GROUPS_PER_ROW cfg + (GROUPS_PER_ROW cfg - 1) - GROUPS_PER_ROW cfg)
      with ((row - 1) * GROUPS_PER_ROW cfg + (GROUPS_PER_ROW cfg - 1)) by lia.
    replace (row * GROUPS_PER_ROW cfg + (GROUPS_PER_ROW cfg - 1) + GROUPS_PER_ROW cfg)
      with ((row + 1) * GROUPS_PER_ROW cfg + (GROUPS_PER_ROW cfg - 1)) by lia.
    rewrite !Hpad by lia. reflexivity.
Qed.

(** C5: the left contribution is the column sums shifted right by one lane
    with lane 0 of the previous group's sums in lane 15, the right one the
    mirror with lane 15 of the next group's sums in lane 0; with the zero
    sentinel, respectively the zero sums of an all-zero padding group, the
    contribution at the edge lane is 0.  In [runRow] this makes the cell of
    column 0 count the columns 0 and 1 only and the cell of the last real
    column count the last two columns only: neither sees the other end of the
    row. *)
Theorem neighbor_assembly_edges
  (curr prev next : Z) (cfg : Config) (b : Board) (row : Z) :
  0 <= curr < 2 ^ 64 -> 0 <= next < 2 ^ 64 ->
  fits_uint32 cfg -> Z.of_nat (length b) = BOARD_SIZE_GROUPS cfg ->
  1 <= row <= R cfg -> 2 <= GROUPS_PER_ROW cfg ->
  (forall r, row - 1 <= r <= row + 1 ->
     word_at b (r * GROUPS_PER_ROW cfg + (GROUPS_PER_ROW cfg - 1)) = 0) ->
  (forall i, 0 <= i < 16 ->
     lane i (createLeftNeighborsFromColSums curr prev)
     = if i =? 15 then lane 0 prev else lane (i + 1) curr) /\
  (forall i, 0 <= i < 16 ->
     lane i (createRightNeighborsFromColSums curr next)
     = if i =? 0 then lane 15 next else lane (i - 1) curr) /\
  lane 15 (createLeftNeighborsFromColSums curr 0) = 0 /\
  lane 0 (createRightNeighborsFromColSums curr 0) = 0 /\
  getColSumsForGroup cfg (row * GROUPS_PER_ROW cfg + (GROUPS_PER_ROW cfg - 1)) b
    = Some ((0, 0), b) /\
  exists b', runRow cfg row b = Some (tt, b') /\
    alive cfg b' row 0
      = life_rule (alive cfg b row 0)
          (column_sum cfg b row 0 + column_sum cfg b row 1
           - Z.b2z (alive cfg b row 0)) /\
    alive cfg b' row (real_columns cfg - 1)
      = life_rule (alive cfg b row (real_columns cfg - 1))
          (column_sum cfg b row (real_columns cfg - 1)
           + column_sum cfg b row (real_columns cfg - 2)
           - Z.b2z (alive cfg b row (real_columns cfg - 1))).
Proof.
  intros Hc Hn Hfits Hlen Hrow HG Hpad.
  destruct (padding_column_sum cfg b row ltac:(lia) Hpad) as [Hcs Hsums].
  pose proof (real_columns_eq cfg) as Ecols.
  assert (Hl : (row + 1) * GROUPS_PER_ROW cfg <= Z.of_nat (length b))
    by (rewrite Hlen, (BOARD_SIZE_GROUPS_eq cfg Hfits); nia).
  split; [intros i Hi; apply createLeftNeighborsFromColSums_lanes; assumption|].
  split; [intros i Hi; apply createRightNeighborsFromColSums_lanes; assumption|].
  split; [rewrite createLeftNeighborsFromColSums_lanes by lia; reflexivity|].
  split; [rewrite createRightNeighborsFromColSums_lanes by lia; reflexivity|].
  split.
  { pose proof (BOARD_SIZE_GROUPS_lt cfg).
    rewrite getColSumsForGroup_in_range.
    - rewrite Hsums. unfold self_vals. rewrite (Hpad row) by lia. reflexivity.
    - lia.
    - nia.
    - rewrite Hlen, (BOARD_SIZE_GROUPS_eq cfg Hfits). nia. }
  exists (row_prefix cfg b (row * GROUPS_PER_ROW cfg) (GROUPS_PER_ROW cfg - 1)).
  split; [apply runRow_result; assumption|].
  split.
  - destruct (row_result_cell cfg b row ltac:(lia) ltac:(lia) Hl 0 ltac:(lia)) as [-> _].
    f_equal. unfold seen_count. change (0 - 1) with (-1). change (0 + 1) with 1.
    change (column_sum cfg b row (-1)) with 0. lia.
  - destruct (row_result_cell cfg b row ltac:(lia) ltac:(lia) Hl
                (real_columns cfg - 1) ltac:(lia)) as [-> _].
    f_equal. unfold seen_count.
    replace (real_columns cfg - 1 + 1) with (real_columns cfg) by lia.
    replace (real_columns cfg - 1 - 1) with (real_columns cfg - 2) by lia.
    rewrite Hcs. lia.
Qed.

Lemma neighbor_assembly_edges_witness :
  lane 15 (createLeftNeighborsFromColSums 0x3210000000000123 0x0000000000000002) = 2 /\
  lane 0 (createRightNeighborsFromColSums 0x3210000000000123 0x3000000000000000) = 3 /\
  exists b', runRow demo_config 2 demo_board = Some (tt, b') /\
             alive demo_config b' 2 0 = false /\ alive demo_config b' 2 31 = false.
Proof.
  assert (Hc : 0 <= 0x3210000000000123 < 2 ^ 64)
    by (split; vm_compute; (reflexivity || discriminate)).
  assert (Hn : 0 <= 0x3000000000000000 < 2 ^ 64)
    by (split; vm_compute; (reflexivity || discriminate)).
  assert (Hrow : 1 <= 2 <= R demo_config) by (split; vm_compute; discriminate).
  assert (HG : 2 <= GROUPS_PER_ROW demo_config) by (vm_compute; discriminate).
  assert (Hpad : forall r, 2 - 1 <= r <= 2 + 1 ->
            word_at demo_board
              (r * GROUPS_PER_ROW demo_config + (GROUPS_PER_ROW demo_config - 1)) = 0).
  { intros r Hr. assert (E : r = 1 \/ r = 2 \/ r = 3) by lia.
    destruct E as [->|[->| ->]]; reflexivity. }
  destruct (neighbor_assembly_edges 0x3210000000000123 0x0000000000000002
              0x3000000000000000 demo_config demo_board 2 Hc Hn demo_config_fits
              eq_refl Hrow HG Hpad) as (Hl & Hr & _ & _ & _ & b' & Hrun & H0 & Hlast).
  split; [rewrite (Hl 15 ltac:(lia)); reflexivity|].
  split; [rewrite (Hr 0 ltac:(lia)); reflexivity|].
  exists b'. split; [exact Hrun|].
  split; [rewrite H0; reflexivity | etransitivity; [exact Hlast | reflexivity]].
Defined.

(** ** Loops with an invariant *)

Lemma for_loop_invariant {S : Type} (I : S -> Board -> Prop)
      (body : Z -> S -> M S) (n : nat) : forall (lo : Z),
  (forall i s b, lo <= i < lo + Z.of_nat n -> I s b ->
     exists s' b', body i s b = Some (s', b') /\ I s' b') ->
  forall s b, I s b ->
    exists s' b', for_loop n lo body s b = Some (s', b') /\ I s' b'.
Proof.
  induction n as [|n IH]; intros lo Hbody s b Hs.
  - exists s, b. split; [reflexivity | exact Hs].
  - cbn [for_loop]. unfold bind.
    destruct (Hbody lo s b ltac:(lia) Hs) as (s1 & b1 & -> & H1).
    apply (IH (lo + 1)); [|exact H1].
    intros i s2 b2 Hi. apply Hbody. lia.
Qed.

Lemma for_range_invariant {S : Type} (I : S -> Board -> Prop)
      (body : Z -> S -> M S) (lo hi : Z) :
  (forall i s b, lo <= i < hi -> I s b ->
     exists s' b', body i s b = Some (s', b') /\ I s' b') ->
  forall s b, I s b ->
    exists s' b', for_range lo hi body s b = Some (s', b') /\ I s' b'.
Proof.
  intros Hbody s b Hs. unfold for_range.
  apply (for_loop_invariant I); [|exact Hs].
  intros i s1 b1 Hi. apply Hbody. lia.
Qed.

(** ** Board initialisation *)

Lemma init_cell_low (draw : nat -> Z) (cell : Z) (st : nat * Z) (b : Board) :
  low_bits_only (snd st) ->
  exists st', init_cell draw cell st b = Some (st', b) /\ low_bits_only (snd st').
Proof.
  intros Hlow. unfold init_cell, ret. eexists. split; [reflexivity|].
  cbn [snd]. unfold low_bits_only in *.
  rewrite Z.land_lor_distr_l. f_equal.
  - unfold wrap64. rewrite <- Z.land_ones by lia.
    assert (EX : Z.shiftl (snd st) 4
                 = Z.land (Z.shiftl (snd st) 4) (Z.shiftl LOW_BIT_NYBBLE_BITMASK 4))
      by (rewrite <- Z.shiftl_land, Hlow; reflexivity).
    rewrite EX, <- !Z.land_assoc. f_equal.
  - destruct (Z.rem (draw (fst st)) 2 =? 0); reflexivity.
Qed.

Section Init.
Context (cfg : Config) (Hfits : fits_uint32 cfg) (draw : nat -> Z).
Local Abbreviation G := (GROUPS_PER_ROW cfg).

Lemma init_group_keeps (row col : Z) (drawn : nat) (b : Board) :
  1 <= row <= R cfg -> 0 <= col < G - 1 ->
  initial_board cfg b ->
  exists drawn' b',
    init_group cfg draw (wrap32 (row * G)) col drawn b = Some (drawn', b') /\
    initial_board cfg b'.
Proof.
  intros Hr Hc [Hlen Hw].
  pose proof (BOARD_SIZE_GROUPS_lt cfg) as Hlt.
  pose proof (BOARD_SIZE_GROUPS_eq cfg Hfits) as EN.
  pose proof (GROUPS_PER_ROW_pos cfg Hfits) as HG.
  assert (Hrs : 0 <= row * G) by nia.
  assert (Hin : 0 <= row * G + col < Z.of_nat (length b)) by (rewrite Hlen, EN; nia).
  unfold init_group, bind.
  destruct (for_range_invariant
              (fun st b' => b' = b /\ low_bits_only (snd st))
              (init_cell draw) 0 CELLS_PER_GROUP) with (s := (drawn, 0)) (b := b)
    as (st & b1 & -> & -> & Hlow).
  { intros i s b1 _ [-> Hs].
    destruct (init_cell_low draw i s b Hs) as (s' & E & Hs').
    exists s', b. repeat split; assumption. }
  { split; reflexivity. }
  rewrite (wrap32_small (row * G)) by lia.
  rewrite (wrap32_small (row * G + col)) by lia.
  rewrite store_in_range by exact Hin.
  unfold ret. eexists _, _. split; [reflexivity|].
  split; [rewrite length_insert; exact Hlen|].
  intros j. rewrite word_at_insert by exact Hin.
  destruct (Z.eqb_spec j (row * G + col)) as [->|Hne].
  - split; [exact Hlow|]. intros Hni. exfalso. apply Hni.
    exists row, col. repeat split; lia.
  - apply Hw.
Qed.

Lemma init_board_returns (b : Board) :
  initial_board cfg b ->
  exists drawn b', init_board cfg draw b = Some (drawn, b') /\ initial_board cfg b'.
Proof.
  intros Hb. unfold init_board.
  pose proof (GROUPS_PER_ROW_pos cfg Hfits) as HG.
  pose proof (GROUPS_PER_ROW_range cfg) as HGr.
  apply (for_range_invariant (fun _ b' => initial_board cfg b')); [|exact Hb].
  intros row drawn b1 Hrow H1. rewrite (row_bound cfg Hfits) in Hrow.
  apply (for_range_invariant (fun _ b' => initial_board cfg b')); [|exact H1].
  intros col drawn2 b2 Hcol H2. rewrite wrap32_small in Hcol by lia.
  apply init_group_keeps; (lia || assumption).
Qed.

Lemma calloc_initial : initial_board cfg (calloc (BOARD_SIZE_GROUPS cfg)).
Proof.
  pose proof (BOARD_SIZE_GROUPS_lt cfg) as Hlt.
  assert (0 <= BOARD_SIZE_GROUPS cfg)
    by (unfold BOARD_SIZE_GROUPS, wrap32; apply Z.mod_pos_bound; lia).
  assert (Hz : forall j, word_at (calloc (BOARD_SIZE_GROUPS cfg)) j = 0).
  { intros j. unfold word_at, calloc. destruct (0 <=? j); [|reflexivity].
    destruct (replicate (Z.to_nat (BOARD_SIZE_GROUPS cfg)) 0 !! Z.to_nat j) as [w|] eqn:E;
      [|reflexivity].
    apply lookup_replicate in E as [-> _]. reflexivity. }
  split.
  - unfold calloc. rewrite length_replicate. lia.
  - intros j. rewrite Hz. split; reflexivity.
Qed.

End Init.

(** C10: the board [main] builds does not depend on the command line: two
    runs that build one (a run builds one exactly when it is given two
    arguments) build the same, whatever the arguments are; it has the
    configured size, only bit 0 of a lane may be set in it, and every word
    outside the real groups of the rows 1..R (border rows, padding groups) is
    zero. *)
Theorem main_board_independent_of_input
  (cfg : Config) (rand_after : Z -> nat -> Z) (argv1 argv2 : list string) :
  fits_uint32 cfg ->
  (main_board cfg rand_after argv1 <> None <-> length argv1 = 3%nat) /\
  forall b1 b2,
    main_board cfg rand_after argv1 = Some b1 ->
    main_board cfg rand_after argv2 = Some b2 ->
    b1 = b2 /\
    Z.of_nat (length b1) = BOARD_SIZE_GROUPS cfg /\
    (forall j, Z.land (word_at b1 j) LOW_BIT_NYBBLE_BITMASK = word_at b1 j) /\
    (forall j, ~ interior_index cfg j -> word_at b1 j = 0) /\
    border_zero cfg b1.
Proof.
  intros Hfits.
  destruct (init_board_returns cfg Hfits (rand_after 0) _ (calloc_initial cfg))
    as (drawn & b & Hrun & Hlen & Hw).
  assert (Hmain : forall argv b',
            main_board cfg rand_after argv = Some b' -> b' = b).
  { intros argv b'. unfold main_board. destruct (length argv =? 3)%nat; [|discriminate].
    rewrite Hrun. congruence. }
  split.
  - unfold main_board. destruct (Nat.eqb_spec (length argv1) 3) as [E|E].
    + rewrite Hrun. split; [intros _; exact E | discriminate].
    + split; [intros H; contradiction | intros H; contradiction].
  - intros b1 b2 H1 H2. apply Hmain in H1, H2. subst b1 b2.
    split; [reflexivity|]. split; [exact Hlen|].
    split; [intros j; apply Hw|]. split; [intros j; apply Hw|].
    intros row group Hr Hg Hb. apply Hw.
    intros (row' & group' & Hr' & Hg' & E).
    assert (row' = row) by nia. subst row'. lia.
Qed.

Lemma main_board_independent_of_input_witness :
  fits_uint32 demo_config /\
  exists b,
    main_board demo_config demo_rand ["life"; "3"; "1"]%string = Some b /\
    main_board demo_config demo_rand ["life"; "50"; "0"]%string = Some b /\
    border_zero demo_config b.
Proof.
  split; [exact demo_config_fits|].
  destruct (main_board_independent_of_input demo_config demo_rand
              ["life"; "3"; "1"]%string ["life"; "50"; "0"]%string demo_config_fits)
    as [Hsome Hsame].
  destruct (main_board demo_config demo_rand ["life"; "3"; "1"]%string) as [b1|] eqn:E1;
    [|exfalso; apply (proj2 Hsome); reflexivity].
  destruct (main_board_independent_of_input demo_config demo_rand
              ["life"; "50"; "0"]%string ["life"; "3"; "1"]%string demo_config_fits)
    as [Hsome2 _].
  destruct (main_board demo_config demo_rand ["life"; "50"; "0"]%string) as [b2|] eqn:E2;
    [|exfalso; apply (proj2 Hsome2); reflexivity].
  destruct (Hsame b1 b2 eq_refl eq_refl) as (-> & _ & _ & _ & Hborder).
  exists b2. split; [reflexivity|]. split; [reflexivity | exact Hborder].
Defined.

(** ** Rows in another order *)

Section Schedule.
Context (cfg : Config) (Hfits : fits_uint32 cfg).
Local Abbreviation G := (GROUPS_PER_ROW cfg).

Lemma length_after_schedule (rows : list Z) (b : Board) :
  length (after_schedule cfg rows b) = length b.
Proof.
  revert b. induction rows as [|row rows IH]; intros b; [reflexivity|].
  unfold after_schedule in *. cbn [fold_left]. rewrite IH. apply length_row_prefix.
Qed.

Lemma advance_schedule_result (rows : list Z) : forall b : Board,
  Z.of_nat (length b) = BOARD_SIZE_GROUPS cfg ->
  Forall (fun row => 1 <= row <= R cfg) rows ->
  advance_schedule cfg rows b = Some (tt, after_schedule cfg rows b).
Proof.
  induction rows as [|row rows IH]; intros b Hlen Hrows; [reflexivity|].
  apply Forall_cons in Hrows as [Hrow Hrows].
  cbn [advance_schedule]. unfold bind.
  rewrite (runRow_result cfg Hfits b Hlen row Hrow).
  apply IH; [rewrite length_row_prefix; exact Hlen | exact Hrows].
Qed.

Lemma after_schedule_frame (rows : list Z) (j : Z) : forall b : Board,
  Z.of_nat (length b) = BOARD_SIZE_GROUPS cfg ->
  Forall (fun row => 1 <= row <= R cfg /\ ~ (row * G <= j < row * G + (G - 1))) rows ->
  word_at (after_schedule cfg rows b) j = word_at b j.
Proof.
  pose proof (GROUPS_PER_ROW_pos cfg Hfits) as HG.
  induction rows as [|row rows IH]; intros b Hlen Hrows; [reflexivity|].
  apply Forall_cons in Hrows as [[Hrow Hj] Hrows].
  unfold after_schedule in *. cbn [fold_left].
  rewrite IH by (rewrite ?length_row_prefix; assumption).
  apply row_result_frame; try assumption; [lia|].
  rewrite Hlen, (BOARD_SIZE_GROUPS_eq cfg Hfits). nia.
Qed.

Lemma after_schedule_cons (row : Z) (rows : list Z) (b : Board) :
  after_schedule cfg (row :: rows) b
  = after_schedule cfg rows (row_prefix cfg b (row * G) (G - 1)).
Proof. reflexivity. Qed.

(** [advance] is the schedule of the rows in increasing order. *)
Lemma after_rows_schedule (n : nat) (b : Board) :
  after_rows cfg n b = after_schedule cfg (map Z.of_nat (seq 1 n)) b.
Proof.
  induction n as [|n IH]; [reflexivity|].
  cbn [after_rows]. rewrite IH, seq_S, map_app. unfold after_schedule.
  rewrite fold_left_app. reflexivity.
Qed.

End Schedule.

Lemma life_optimized_fits : fits_uint32 life_optimized.
Proof. repeat split; vm_compute; (reflexivity || discriminate). Qed.

Lemma word_at_calloc (n j : Z) : word_at (calloc n) j = 0.
Proof.
  unfold word_at, calloc. destruct (0 <=? j); [|reflexivity].
  destruct (replicate (Z.to_nat n) 0 !! Z.to_nat j) as [w|] eqn:E; [|reflexivity].
  apply lookup_replicate in E as [-> _]. reflexivity.
Qed.

Lemma length_race_board :
  Z.of_nat (length race_board) = BOARD_SIZE_GROUPS life_optimized.
Proof.
  unfold race_board, calloc. rewrite length_insert, length_replicate.
  apply Z2Nat.id. vm_compute. discriminate.
Qed.

Lemma word_at_race_board (j : Z) :
  word_at race_board j = if j =? 129 then 0x1110000000000000 else 0.
Proof.
  unfold race_board. rewrite word_at_insert.
  - change (1 * GROUPS_PER_ROW life_optimized) with 129.
    destruct (j =? 129); [reflexivity | apply word_at_calloc].
  - unfold calloc. rewrite length_replicate, Z2Nat.id by (vm_compute; discriminate).
    split; vm_compute; (reflexivity || discriminate).
Qed.

Lemma race_board_border : border_zero life_optimized race_board.
Proof.
  intros row group Hr Hg Hb. rewrite word_at_race_board.
  change (GROUPS_PER_ROW life_optimized) with 129 in *.
  change (R life_optimized) with 1024 in *.
  destruct (Z.eqb_spec (row * 129 + group) 129); [lia | reflexivity].
Qed.

Lemma alive_race_board (row col : Z) :
  alive life_optimized race_board row col
  = Z.testbit (if row * 129 + col / 16 =? 129 then 0x1110000000000000 else 0)
              (4 * (15 - col mod 16)).
Proof.
  unfold alive. rewrite word_at_race_board. reflexivity.
Qed.

Lemma previous_race_board (row col : Z) :
  previous life_optimized race_board row col
  = Z.testbit (if row * 129 + col / 16 =? 129 then 0x1110000000000000 else 0)
              (4 * (15 - col mod 16) + 1).
Proof.
  unfold previous. rewrite word_at_race_board. reflexivity.
Qed.

(** C2 fails on the code: on [race_board], the rows run in the order
    [race_schedule] (row 2 before row 1) leave the cell of row 2, column 1
    dead, and [advance] (row 1 before row 2) makes it alive, as the rule
    says: it has three live neighbours above. *)
Theorem parallel_rows_order_matters :
  Permutation race_schedule
              (map Z.of_nat (seq 1 (Z.to_nat (R life_optimized)))) /\
  exists b_seq b_par,
    advance life_optimized race_board = Some (tt, b_seq) /\
    advance_schedule life_optimized race_schedule race_board = Some (tt, b_par) /\
    live_around life_optimized race_board 2 1 = 3 /\
    alive life_optimized b_seq 2 1 = true /\
    alive life_optimized b_par 2 1 = false.
Proof.
  pose proof life_optimized_fits as Hfits.
  pose proof length_race_board as Hlen.
  split.
  { change (map Z.of_nat (seq 1 (Z.to_nat (R life_optimized))))
      with (1 :: 2 :: map Z.of_nat (seq 3 1022)).
    unfold race_schedule. apply perm_swap. }
  exists (after_rows life_optimized (Z.to_nat (R life_optimized)) race_board),
         (after_schedule life_optimized race_schedule race_board).
  assert (Hlive : live_around life_optimized race_board 2 1 = 3).
  { unfold live_around. rewrite !alive_race_board. vm_compute. reflexivity. }
  split; [apply advance_result; assumption|].
  split.
  { apply advance_schedule_result; [exact Hfits | exact Hlen |].
    unfold race_schedule. change (R life_optimized) with 1024.
    do 2 (apply Forall_cons; split; [lia|]).
    apply Forall_forall. intros row Hrow.
    apply list_elem_of_In, in_map_iff in Hrow as (n & <- & Hn).
    apply in_seq in Hn. lia. }
  split; [exact Hlive|]. split.
  - pose proof (rows_done_after life_optimized Hfits race_board Hlen race_board_border
                  (Z.to_nat (R life_optimized)) ltac:(vm_compute; discriminate)) as Hd.
    destruct (done_cells _ _ _ _ Hd 2 1) as [-> _].
    + vm_compute. split; discriminate.
    + vm_compute. split; [discriminate | reflexivity].
    + rewrite Hlive, alive_race_board. vm_compute. reflexivity.
  - unfold race_schedule. rewrite after_schedule_cons.
    pose proof (GROUPS_PER_ROW_pos life_optimized Hfits) as HG.
    assert (Hl : (2 + 1) * GROUPS_PER_ROW life_optimized <= Z.of_nat (length race_board)).
    { rewrite Hlen. vm_compute. discriminate. }
    destruct (cell_same_word life_optimized
                (row_prefix life_optimized race_board (2 * GROUPS_PER_ROW life_optimized)
                   (GROUPS_PER_ROW life_optimized - 1))
                (after_schedule life_optimized (1 :: map Z.of_nat (seq 3 1022))
                   (row_prefix life_optimized race_board
                      (2 * GROUPS_PER_ROW life_optimized)
                      (GROUPS_PER_ROW life_optimized - 1))) 2 1) as [-> _].
    + apply after_schedule_frame; [exact Hfits | rewrite length_row_prefix; exact Hlen |].
      change (cell_group life_optimized 2 1) with 258.
      change (GROUPS_PER_ROW life_optimized) with 129.
      change (R life_optimized) with 1024.
      apply Forall_cons. split; [lia|].
      apply Forall_forall. intros row Hrow.
      apply list_elem_of_In, in_map_iff in Hrow as (n & <- & Hn).
      apply in_seq in Hn. lia.
    + destruct (row_result_cell life_optimized race_board 2 ltac:(lia) HG Hl 1) as [-> _].
      * vm_compute. split; [discriminate | reflexivity].
      * unfold seen_count, column_sum.
        rewrite !alive_race_board, !previous_race_board. vm_compute. reflexivity.
Qed.

(** * The rest of the program *)

(** ** Loops that only append to their state *)

Lemma range_from_S (lo : Z) (n : nat) :
  range_from lo (S n) = lo :: range_from (lo + 1) n.
Proof.
  unfold range_from. cbn [seq map]. f_equal; [lia|].
  rewrite <- seq_shift, map_map. apply map_ext. intros k. lia.
Qed.

Lemma range_from_0 (n : Z) : range_from 0 (Z.to_nat n) = indices n.
Proof. unfold range_from, indices. apply map_ext. intros k. lia. Qed.

Lemma in_range_from (lo : Z) (n : nat) (i : Z) :
  In i (range_from lo n) -> lo <= i < lo + Z.of_nat n.
Proof.
  unfold range_from. rewrite in_map_iff. intros (k & <- & Hk).
  apply in_seq in Hk. lia.
Qed.

Lemma for_loop_append {A : Type} (body : Z -> list A -> M (list A))
      (f : Z -> list A) (b : Board) (n : nat) : forall (lo : Z) (out : list A),
  (forall i out, lo <= i < lo + Z.of_nat n -> body i out b = Some (out ++ f i, b)) ->
  for_loop n lo body out b = Some (out ++ concat (map f (range_from lo n)), b).
Proof.
  induction n as [|n IH]; intros lo out Hbody.
  - cbn. unfold ret. rewrite app_nil_r. reflexivity.
  - cbn [for_loop]. unfold bind. rewrite Hbody by lia.
    rewrite IH by (intros; apply Hbody; lia).
    rewrite range_from_S. cbn [map concat]. rewrite app_assoc. reflexivity.
Qed.

(** ** Hexadecimal fields *)

Lemma hex_digits_rev_padded (n : nat) : forall x : Z,
  0 <= x < 16 ^ Z.of_nat n ->
  (length (hex_digits_rev n x) <= n)%nat /\
  hex_digits_rev n x ++ repeat "0"%char (n - length (hex_digits_rev n x))
  = map (fun i => hex_digit (lane (Z.of_nat i) x)) (seq 0 n).
Proof.
  induction n as [|n IH]; intros x Hx.
  - split; reflexivity.
  - cbn [hex_digits_rev]. destruct (Z.eqb_spec x 0) as [->|Hne].
    + split; [cbn; lia|]. cbn [length app]. rewrite Nat.sub_0_r.
      assert (E : forall m k, repeat "0"%char m
                  = map (fun i => hex_digit (lane (Z.of_nat i) 0)) (seq k m)).
      { intros m. induction m as [|m IHm]; intros k; [reflexivity|].
        cbn [repeat seq map]. rewrite <- IHm. f_equal.
        rewrite lane_div_mod by lia. rewrite Z.div_0_l, Z.mod_0_l by lia.
        reflexivity. }
      apply E.
    + rewrite Nat2Z.inj_succ in Hx. unfold Z.succ in Hx.
      rewrite Z.pow_add_r, Z.pow_1_r in Hx by lia.
      destruct (IH (x / 16)) as [Hlen Hpad].
      { split; [apply Z.div_pos; lia | apply Z.div_lt_upper_bound; lia]. }
      split; [cbn [length]; lia|].
      cbn [length app Nat.sub]. rewrite Hpad.
      cbn [seq map]. f_equal.
      * rewrite lane_0. reflexivity.
      * rewrite <- seq_shift, map_map. apply map_ext. intros i.
        rewrite <- lane_succ by lia. do 2 f_equal. lia.
Qed.

Lemma rev_repeat {A : Type} (a : A) (n : nat) : rev (repeat a n) = repeat a n.
Proof.
  induction n as [|n IH]; [reflexivity|].
  cbn [repeat rev]. rewrite IH. symmetry. apply repeat_cons.
Qed.

(** A [uint64_t] printed in a zero-filled field of 16 is its 16 nybbles,
    the top one first. *)
Lemma hex_field_lanes (x : Z) :
  0 <= x < 2 ^ 64 ->
  setw_setfill 16 "0"%char (to_hex x)
  = map (fun i => hex_digit (lane (Z.of_nat i) x)) (rev (seq 0 16)).
Proof.
  intros Hx. unfold to_hex. destruct (Z.eqb_spec x 0) as [->|Hne].
  - vm_compute. reflexivity.
  - destruct (hex_digits_rev_padded 16 x Hx) as [Hlen Hpad].
    unfold setw_setfill. rewrite length_rev.
    rewrite map_rev, <- Hpad, rev_app_distr, rev_repeat. reflexivity.
Qed.

Lemma hex_digit_b2z (c : bool) : hex_digit (Z.b2z c) = cell_digit c.
Proof. destruct c; reflexivity. Qed.

(** The field [print_board] writes for a group: a digit per cell, column
    order. *)
Lemma group_field (w : Z) :
  setw_setfill 16 "0"%char (to_hex (Z.land w LOW_BIT_NYBBLE_BITMASK))
  = map (fun k => cell_digit (Z.testbit w (4 * (15 - k)))) (indices 16).
Proof.
  rewrite hex_field_lanes by apply low_bits_range.
  change (rev (seq 0 16)) with (map (fun k => (15 - k)%nat) (seq 0 16)).
  unfold indices. rewrite !map_map. apply map_ext_in. intros k Hk.
  apply in_seq in Hk.
  rewrite lane_low_bit by lia. rewrite hex_digit_b2z.
  do 2 f_equal. lia.
Qed.

(** ** [print_board] *)

Lemma indices_app (a b : Z) :
  0 <= a -> 0 <= b -> indices (a + b) = indices a ++ map (fun k => a + k) (indices b).
Proof.
  intros Ha Hb. unfold indices.
  rewrite Z2Nat.inj_add, seq_app, map_app by lia. f_equal.
  cbn [Nat.add]. rewrite map_map.
  replace (seq (Z.to_nat a) (Z.to_nat b))
    with (map (fun k => (Z.to_nat a + k)%nat) (seq 0 (Z.to_nat b))).
  - rewrite map_map. apply map_ext. intros k. lia.
  - clear. generalize (Z.to_nat a) as n. induction (Z.to_nat b) as [|m IH]; intros n.
    + reflexivity.
    + cbn [seq map]. f_equal; [lia|].
      rewrite <- seq_shift, map_map, <- (IH (S n)).
      apply map_ext. intros k. lia.
Qed.

Lemma indices_groups (m : nat) :
  indices (16 * Z.of_nat m)
  = concat (map (fun g => map (fun k => 16 * g + k) (indices 16))
                (indices (Z.of_nat m))).
Proof.
  induction m as [|m IH]; [reflexivity|].
  replace (16 * Z.of_nat (S m)) with (16 * Z.of_nat m + 16) by lia.
  replace (Z.of_nat (S m)) with (Z.of_nat m + 1) by lia.
  rewrite !indices_app by lia. rewrite IH, map_app, concat_app.
  f_equal. change (indices 1) with [0]. cbn [map concat]. rewrite app_nil_r.
  apply map_ext. intros k. lia.
Qed.

Section Print.
Context (cfg : Config) (Hfits : fits_uint32 cfg).
Context (b : Board) (Hlen : Z.of_nat (length b) = BOARD_SIZE_GROUPS cfg).
Local Abbreviation G := (GROUPS_PER_ROW cfg).

Lemma printed_groups : wrap32 (C cfg / CELLS_PER_GROUP) = G - 1.
Proof.
rewrite (GROUPS_PER_ROW_eq cfg Hfits), CELLS_PER_GROUP_16.
destruct Hfits as (HR & HC & Hsz).
assert (0 <= C cfg / 16) by (apply Z.div_pos; lia).
rewrite wrap32_small by nia. lia.
Qed.

Lemma row_text (row : Z) :
concat (map (fun g => map (fun k => cell_digit
                                      (Z.testbit (word_at b (row * G + g)) (4 * (15 - k))))
                          (indices 16))
            (indices (G - 1)))
= map cell_digit (map (fun c => alive cfg b row c) (indices (real_columns cfg))).
Proof.
pose proof (GROUPS_PER_ROW_pos cfg Hfits) as HG.
rewrite real_columns_eq.
replace (G - 1) with (Z.of_nat (Z.to_nat (G - 1))) by lia.
rewrite indices_groups, !concat_map, !map_map. f_equal.
apply map_ext. intros g. rewrite !map_map. apply map_ext_in. intros k Hk.
unfold indices in Hk. apply in_map_iff in Hk as (n & <- & Hn). apply in_seq in Hn.
f_equal. replace (Z.of_nat n) with (15 - (15 - Z.of_nat n)) at 2 by lia.
rewrite alive_lane by lia. reflexivity.
Qed.

Lemma print_row (row : Z) (out : list ascii) :
1 <= row <= R cfg ->
for_range 0 (wrap32 (C cfg / CELLS_PER_GROUP))
          (print_group (wrap32 (row * G))) out b
= Some (out ++ map cell_digit
                   (map (fun c => alive cfg b row c) (indices (real_columns cfg))), b).
Proof.
intros Hrow. pose proof (GROUPS_PER_ROW_pos cfg Hfits) as HG.
pose proof (BOARD_SIZE_GROUPS_lt cfg) as Hlt.
pose proof (BOARD_SIZE_GROUPS_eq cfg Hfits) as EN.
assert (Hrs : 0 <= row * G) by nia.
assert (Hend : (row + 1) * G <= BOARD_SIZE_GROUPS cfg) by (rewrite EN; nia).
rewrite printed_groups. unfold for_range.
rewrite (for_loop_append _
           (fun g => map (fun k => cell_digit
                                     (Z.testbit (word_at b (row * G + g)) (4 * (15 - k))))
                         (indices 16))).
- replace (G - 1 - 0) with (G - 1) by lia.
  rewrite range_from_0, row_text. reflexivity.
- intros g out' Hg. unfold print_group, bind, ret.
  rewrite (wrap32_small (row * G)) by lia.
  rewrite (wrap32_small (row * G + g)) by lia.
  rewrite load_in_range by lia. rewrite group_field. reflexivity.
Qed.

End Print.

Lemma print_board_text (cfg : Config) (b : Board) (out : list ascii) :
  fits_uint32 cfg ->
  Z.of_nat (length b) = BOARD_SIZE_GROUPS cfg ->
  print_board cfg out b = Some (out ++ grid_text (grid_of_board cfg b), b).
Proof.
  intros Hfits Hlen. unfold print_board. unfold for_range at 1.
  rewrite (row_bound cfg Hfits).
  rewrite (for_loop_append _
             (fun row => map cell_digit
                           (map (fun c => alive cfg b row c) (indices (real_columns cfg)))
                         ++ endl)).
  - do 2 f_equal. unfold grid_text, grid_of_board, range_from, indices.
    replace (R cfg + 1 - 1) with (R cfg) by lia.
    rewrite !map_map. f_equal. f_equal. apply map_ext. intros k.
    replace (1 + Z.of_nat k) with (Z.of_nat k + 1) by lia. reflexivity.
  - intros row out' Hrow. unfold bind.
    rewrite (print_row cfg Hfits b Hlen) by lia.
    unfold ret. rewrite app_assoc. reflexivity.
Qed.

(** The grid is made of bit 0 of the lanes of the words of interior cells. *)
Lemma grid_of_low_bits (cfg : Config) (b b2 : Board) :
  (forall j, interior_index cfg j ->
     Z.land (word_at b2 j) LOW_BIT_NYBBLE_BITMASK
     = Z.land (word_at b j) LOW_BIT_NYBBLE_BITMASK) ->
  grid_of_board cfg b2 = grid_of_board cfg b.
Proof.
  intros Hlow. unfold grid_of_board. apply map_ext_in. intros r Hr.
  apply map_ext_in. intros c Hc. unfold indices in Hr, Hc.
  apply in_map_iff in Hr as (n & <- & Hn). apply in_seq in Hn.
  apply in_map_iff in Hc as (m & <- & Hm). apply in_seq in Hm.
  rewrite real_columns_eq in Hm.
  destruct (lane_of_cell (Z.of_nat m)) as [Hi _].
  unfold alive, cell_lane. rewrite cell_group_eq, CELLS_PER_GROUP_16.
  replace (16 - 1 - Z.of_nat m mod 16) with (15 - Z.of_nat m mod 16) by lia.
  rewrite <- !(testbit_self_vals _ _ _ Hi). unfold self_vals. rewrite Hlow; [reflexivity|].
  exists (Z.of_nat n + 1), (Z.of_nat m / 16).
  repeat split; try lia; Z.div_mod_to_equations; lia.
Qed.

(** X1: on a buffer of [BOARD_SIZE_GROUPS] words [print_board] reads inside
    the buffer, leaves it as it was, and appends to the output one line per
    interior row with one digit per real cell, 1 for a cell whose bit 0 is
    set: the text of [grid_of_board].  Nothing else of the buffer shows: a
    buffer with the same bit 0 in the lanes of the interior cells, whatever
    its border rows, padding groups, history bits and bits 2-3 hold, prints
    the same text. *)
Theorem print_board_shows_grid (cfg : Config) (b : Board) (out : list ascii) :
  fits_uint32 cfg ->
  Z.of_nat (length b) = BOARD_SIZE_GROUPS cfg ->
  print_board cfg out b = Some (out ++ grid_text (grid_of_board cfg b), b) /\
  forall b2,
    length b2 = length b ->
    (forall j, interior_index cfg j ->
       Z.land (word_at b2 j) LOW_BIT_NYBBLE_BITMASK
       = Z.land (word_at b j) LOW_BIT_NYBBLE_BITMASK) ->
    print_board cfg out b2 = Some (out ++ grid_text (grid_of_board cfg b), b2).
Proof.
  intros Hfits Hlen. split; [apply print_board_text; assumption|].
  intros b2 Hl Hlow. rewrite print_board_text by (assumption || congruence).
  rewrite (grid_of_low_bits cfg b b2 Hlow). reflexivity.
Qed.

Lemma print_board_shows_grid_witness :
  fits_uint32 demo_config /\
  Z.of_nat (length demo_board) = BOARD_SIZE_GROUPS demo_config /\
  print_board demo_config [] demo_board
  = Some (list_ascii_of_string
            ("00000000000000000000000000000000" ++ String "010" 
             "00000000000000011100000000000000" ++ String "010"
             "00000000000000000000000000000000" ++ String "010" ""), demo_board).
Proof.
  split; [exact demo_config_fits|]. split; [reflexivity|].
  rewrite (proj1 (print_board_shows_grid demo_config demo_board [] demo_config_fits
                    eq_refl)).
  reflexivity.
Defined.

Lemma for_loop_invariant_at {St : Type} (I : Z -> St -> Board -> Prop)
      (body : Z -> St -> M St) (n : nat) : forall (lo : Z),
  (forall i s b, lo <= i < lo + Z.of_nat n -> I i s b ->
     exists s' b', body i s b = Some (s', b') /\ I (i + 1) s' b') ->
  forall s b, I lo s b ->
    exists s' b', for_loop n lo body s b = Some (s', b') /\ I (lo + Z.of_nat n) s' b'.
Proof.
  induction n as [|n IH]; intros lo Hbody s b Hs.
  - exists s, b. split; [reflexivity|]. replace (lo + Z.of_nat 0) with lo by lia. exact Hs.
  - cbn [for_loop]. unfold bind.
    destruct (Hbody lo s b ltac:(lia) Hs) as (s1 & b1 & -> & H1).
    replace (lo + Z.of_nat (S n)) with (lo + 1 + Z.of_nat n) by lia.
    apply (IH (lo + 1)); [|exact H1].
    intros i s2 b2 Hi. apply Hbody. lia.
Qed.

Lemma lane_b2z (c : bool) (i : Z) :
  0 <= i -> lane i (Z.b2z c) = if i =? 0 then Z.b2z c else 0.
Proof.
  intros Hi. rewrite lane_div_mod by exact Hi.
  destruct (Z.eqb_spec i 0) as [->|Hne].
  - destruct c; reflexivity.
  - rewrite Z.div_small; [reflexivity|].
    split; [destruct c; simpl; lia|].
    apply Z.lt_le_trans with (16 ^ 1); [destruct c; simpl; lia|].
    apply Z.pow_le_mono_r; lia.
Qed.

(** The cells of one group: after [k] cells the draws sit in the low [k]
    lanes, the last one in lane 0. *)
Lemma init_cells (draw : nat -> Z) (drawn0 : nat) (b : Board) :
  exists st,
    for_range 0 CELLS_PER_GROUP (init_cell draw) (drawn0, 0) b = Some (st, b) /\
    fst st = (drawn0 + 16)%nat /\
    forall i, 0 <= i < 16 ->
      Z.testbit (snd st) (4 * i) = draw_even draw (drawn0 + Z.to_nat (15 - i)).
Proof.
  destruct (for_loop_invariant_at
              (fun k st b' =>
                 b' = b /\ fst st = (drawn0 + Z.to_nat k)%nat /\
                 forall i, 0 <= i < 16 ->
                   lane i (snd st)
                   = if i <? k then Z.b2z (draw_even draw (drawn0 + Z.to_nat (k - 1 - i)))
                     else 0)
              (init_cell draw) 16 0) with (s := (drawn0, 0)) (b := b)
    as (st & b' & Hrun & -> & Hn & Hl).
  - intros k st b1 Hk (-> & Hn & Hl). unfold init_cell, ret.
    eexists _, _. split; [reflexivity|]. cbn [fst snd].
    split; [reflexivity|]. split; [rewrite Hn; lia|].
    intros i Hi. rewrite lane_lor, lane_wrap64 by lia.
    change 4 with (4 * 1). rewrite lane_shiftl, lane_b2z by lia.
    fold (draw_even draw (fst st)). rewrite Hn.
    destruct (Z.eqb_spec i 0) as [->|Hne].
    + destruct (Z.ltb_spec 0 1); [|lia]. destruct (Z.ltb_spec 0 (k + 1)); [|lia].
      rewrite Z.lor_0_l. do 2 f_equal. lia.
    + destruct (Z.ltb_spec i 1); [lia|]. rewrite Z.lor_0_r, Hl by lia.
      destruct (Z.ltb_spec (i - 1) k), (Z.ltb_spec i (k + 1)); try lia.
      do 3 f_equal. lia.
  - split; [reflexivity|]. split; [cbn; lia|].
    intros i Hi. cbn [snd]. rewrite lane_div_mod by lia.
    rewrite Z.div_0_l, Z.mod_0_l by lia.
    destruct (Z.ltb_spec i 0); [lia | reflexivity].
  - exists st. split; [exact Hrun|]. split; [rewrite Hn; reflexivity|].
    intros i Hi. apply testbit_of_flag; [lia|].
    rewrite Hl by exact Hi. change (0 + Z.of_nat 16) with 16.
    destruct (Z.ltb_spec i 16); [|lia].
    replace (16 - 1 - i) with (15 - i) by lia.
    destruct (draw_even draw (drawn0 + Z.to_nat (15 - i))); reflexivity.
Qed.

Section InitCells.
Context (cfg : Config) (Hfits : fits_uint32 cfg) (draw : nat -> Z).
Context (b0 : Board) (Hlen0 : Z.of_nat (length b0) = BOARD_SIZE_GROUPS cfg).
Local Abbreviation G := (GROUPS_PER_ROW cfg).

Lemma init_group_progress (row col : Z) (drawn : nat) (b : Board) :
1 <= row <= R cfg -> 0 <= col < G - 1 ->
init_progress cfg draw b0 row col drawn b ->
exists drawn' b',
  init_group cfg draw (wrap32 (row * G)) col drawn b = Some (drawn', b') /\
  init_progress cfg draw b0 row (col + 1) drawn' b'.
Proof.
intros Hr Hc (Hn & Hlen & Hframe & Hcells).
pose proof (BOARD_SIZE_GROUPS_lt cfg) as Hlt.
pose proof (BOARD_SIZE_GROUPS_eq cfg Hfits) as EN.
pose proof (GROUPS_PER_ROW_pos cfg Hfits) as HG.
assert (Hrs : 0 <= row * G) by nia.
assert (Hin : 0 <= row * G + col < Z.of_nat (length b))
  by (rewrite Hlen, Hlen0, EN; nia).
unfold init_group, bind.
destruct (init_cells draw drawn b) as (st & -> & Hst & Hbits).
rewrite (wrap32_small (row * G)) by lia.
rewrite (wrap32_small (row * G + col)) by lia.
rewrite store_in_range by exact Hin.
unfold ret. eexists _, _. split; [reflexivity|].
split; [rewrite Hst; lia|].
split; [rewrite length_insert; exact Hlen|].
split.
- intros j Hj. rewrite word_at_insert by exact Hin.
  destruct (Z.eqb_spec j (row * G + col)) as [->|Hne]; [|apply Hframe; exact Hj].
  exfalso. apply Hj. exists row, col. repeat split; lia.
- intros r g i Hr' Hg Hdone Hi. rewrite word_at_insert by exact Hin.
  destruct (Z.eqb_spec (r * G + g) (row * G + col)) as [E|Hne].
  + assert (r = row) by nia. subst r. assert (g = col) by lia. subst g.
    rewrite Hbits by exact Hi. f_equal. lia.
  + apply Hcells; try assumption.
    destruct Hdone as [Hlt'|[-> Hlt']]; [left; exact Hlt'|].
    right. split; [reflexivity|].
    destruct (Z.eq_dec g col) as [->|]; [contradiction | lia].
Qed.

Lemma init_row_progress (row : Z) (drawn : nat) (b : Board) :
1 <= row <= R cfg ->
init_progress cfg draw b0 row 0 drawn b ->
exists drawn' b',
  for_range 0 (wrap32 (G - 1)) (init_group cfg draw (wrap32 (row * G))) drawn b
  = Some (drawn', b') /\
  init_progress cfg draw b0 (row + 1) 0 drawn' b'.
Proof.
intros Hr Hp. pose proof (GROUPS_PER_ROW_pos cfg Hfits) as HG.
pose proof (GROUPS_PER_ROW_range cfg) as HGr.
rewrite wrap32_small by lia. unfold for_range.
destruct (for_loop_invariant_at
            (fun col drawn b => init_progress cfg draw b0 row col drawn b)
            (init_group cfg draw (wrap32 (row * G))) (Z.to_nat (G - 1 - 0)) 0)
  with (s := drawn) (b := b) as (drawn' & b' & Hrun & Hn & Hlen & Hframe & Hcells).
- intros col s b1 Hcol H1. apply init_group_progress; (lia || assumption).
- exact Hp.
- exists drawn', b'. split; [exact Hrun|].
  replace (0 + Z.of_nat (Z.to_nat (G - 1 - 0))) with (G - 1) in * by lia.
  split; [lia|]. split; [exact Hlen|]. split; [exact Hframe|].
  intros r g i Hr' Hg Hdone Hi. apply Hcells; try assumption. lia.
Qed.

Lemma init_board_progress :
exists drawn b,
  init_board cfg draw b0 = Some (drawn, b) /\
  init_progress cfg draw b0 (R cfg + 1) 0 drawn b.
Proof.
unfold init_board, for_range. rewrite (row_bound cfg Hfits).
destruct (for_loop_invariant_at
            (fun row drawn b => init_progress cfg draw b0 row 0 drawn b)
            (fun row drawn =>
               for_range 0 (wrap32 (G - 1)) (init_group cfg draw (wrap32 (row * G))) drawn)
            (Z.to_nat (R cfg + 1 - 1)) 1)
  with (s := 0%nat) (b := b0) as (drawn & b & Hrun & Hp).
- intros row s b1 Hrow H1. apply init_row_progress; [|exact H1].
  destruct Hfits; lia.
- split; [lia|]. split; [reflexivity|]. split; [reflexivity|].
  intros r g i Hr Hg Hdone. lia.
- exists drawn, b. split; [exact Hrun|].
  destruct Hfits as (HR & _).
  replace (1 + Z.of_nat (Z.to_nat (R cfg + 1 - 1))) with (R cfg + 1) in Hp by lia.
  exact Hp.
Qed.

End InitCells.

(** When [init_board] is through, every interior cell holds its draw. *)
Lemma init_progress_alive (cfg : Config) (draw : nat -> Z) (b0 b : Board) (drawn : nat) :
  init_progress cfg draw b0 (R cfg + 1) 0 drawn b ->
  forall row col,
    1 <= row <= R cfg -> 0 <= col < real_columns cfg ->
    alive cfg b row col
    = draw_even draw (Z.to_nat ((row - 1) * real_columns cfg + col)).
Proof.
  intros (_ & _ & _ & Hcells) row col Hrow Hcol.
  rewrite real_columns_eq in *.
  destruct (lane_of_cell col) as [Hi Ec].
  assert (Hg : 0 <= col / 16 < GROUPS_PER_ROW cfg - 1) by (Z.div_mod_to_equations; lia).
  unfold alive, cell_lane. rewrite cell_group_eq, CELLS_PER_GROUP_16.
  replace (16 - 1 - col mod 16) with (15 - col mod 16) by lia.
  rewrite Hcells by lia.
  assert (E : ((row - 1) * (GROUPS_PER_ROW cfg - 1) + col / 16) * 16
              + (15 - (15 - col mod 16))
              = (row - 1) * (16 * (GROUPS_PER_ROW cfg - 1)) + col).
  { pose proof (Z.div_mod col 16 ltac:(lia)) as Hd.
    rewrite Hd at 3. ring. }
  rewrite E. reflexivity.
Qed.

(** X2: [init_board] returns on any buffer of [BOARD_SIZE_GROUPS] words,
    having called [rand()] once per real cell; it fills the cells in
    row-major order, left to right: the cell of row [row], column [col] is
    alive exactly when draw number [(row - 1) * real_columns + col] is even.
    Words that hold no interior cell are left as they were. *)
Theorem init_board_draw_order (cfg : Config) (draw : nat -> Z) (b0 : Board) :
  fits_uint32 cfg ->
  Z.of_nat (length b0) = BOARD_SIZE_GROUPS cfg ->
  exists drawn b,
    init_board cfg draw b0 = Some (drawn, b) /\
    Z.of_nat drawn = R cfg * real_columns cfg /\
    length b = length b0 /\
    (forall j, ~ interior_index cfg j -> word_at b j = word_at b0 j) /\
    forall row col,
      1 <= row <= R cfg -> 0 <= col < real_columns cfg ->
      alive cfg b row col
      = (Z.rem (draw (Z.to_nat ((row - 1) * real_columns cfg + col))) 2 =? 0).
Proof.
  intros Hfits Hlen.
  destruct (init_board_progress cfg Hfits draw b0 Hlen) as (drawn & b & Hrun & Hp).
  exists drawn, b. split; [exact Hrun|].
  pose proof (init_progress_alive cfg draw b0 b drawn Hp) as Halive.
  destruct Hp as (Hn & Hl & Hframe & _).
  rewrite real_columns_eq in *.
  split; [lia|]. split; [exact Hl|]. split; [exact Hframe|].
  intros row col Hrow Hcol. apply Halive; assumption.
Qed.

Lemma init_board_draw_order_witness :
  fits_uint32 demo_config /\
  Z.of_nat (length demo_board) = BOARD_SIZE_GROUPS demo_config /\
  exists drawn b,
    init_board demo_config (demo_rand 0) demo_board = Some (drawn, b) /\
    Z.of_nat drawn = R demo_config * real_columns demo_config /\
    alive demo_config b 2 17
    = (Z.rem (demo_rand 0 (Z.to_nat ((2 - 1) * real_columns demo_config + 17))) 2 =? 0).
Proof.
  split; [exact demo_config_fits|]. split; [reflexivity|].
  destruct (init_board_draw_order demo_config (demo_rand 0) demo_board
              demo_config_fits eq_refl) as (drawn & b & Hrun & Hn & _ & _ & Hcells).
  assert (H1 : 1 <= 2 <= R demo_config) by (vm_compute; split; discriminate).
  assert (H2 : 0 <= 17 < real_columns demo_config)
    by (vm_compute; split; [discriminate | reflexivity]).
  exists drawn, b. split; [exact Hrun|]. split; [exact Hn|].
  exact (Hcells 2 17 H1 H2).
Defined.

(** ** Accesses that fail *)

Lemma load_same_board (b b' : Board) (i w : Z) : load i b = Some (w, b') -> b' = b.
Proof.
  unfold load. destruct (0 <=? i); [|discriminate].
  destruct (b !! Z.to_nat i); [|discriminate]. intros [= _ <-]. reflexivity.
Qed.

Lemma getColSumsForGroup_same_board (cfg : Config) (b b' : Board) (idx : Z) (r : Z * Z) :
  getColSumsForGroup cfg idx b = Some (r, b') -> b' = b.
Proof.
  unfold getColSumsForGroup, bind, ret.
  destruct (load idx b) as [[w b1]|] eqn:E1; [|discriminate].
  apply load_same_board in E1 as ->.
  destruct (load _ b) as [[wt b2]|] eqn:E2; [|discriminate].
  apply load_same_board in E2 as ->.
  destruct (load _ b) as [[wb b3]|] eqn:E3; [|discriminate].
  apply load_same_board in E3 as ->.
  intros [= _ <-]. reflexivity.
Qed.

Lemma store_same_length (b b' : Board) (i w : Z) (u : unit) :
  store i w b = Some (u, b') -> length b' = length b.
Proof.
  unfold store. destruct ((0 <=? i) && (i <? Z.of_nat (length b))); [|discriminate].
  intros [= _ <-]. apply length_insert.
Qed.

Lemma runRow_body_same_length (cfg : Config) (rs g : Z) (p p' : Pipeline) (b b' : Board) :
  runRow_body cfg rs g p b = Some (p', b') -> length b' = length b.
Proof.
  unfold runRow_body, bind, ret.
  destruct (getColSumsForGroup cfg (wrap32 (rs + g)) b) as [[[s v] b1]|] eqn:E1;
    [|discriminate].
  apply getColSumsForGroup_same_board in E1 as ->.
  unfold updateBoardIndex.
  destruct (store _ _ b) as [[u b2]|] eqn:E2; [|discriminate].
  apply store_same_length in E2. intros [= _ <-]. exact E2.
Qed.

Lemma for_loop_same_length {St : Type} (body : Z -> St -> M St) (n : nat) :
  (forall i s b s' b', body i s b = Some (s', b') -> length b' = length b) ->
  forall lo s b s' b',
    for_loop n lo body s b = Some (s', b') -> length b' = length b.
Proof.
  intros Hbody. induction n as [|n IH]; intros lo s b s' b' H.
  - cbn in H. unfold ret in H. injection H as _ <-. reflexivity.
  - cbn [for_loop] in H. unfold bind in H.
    destruct (body lo s b) as [[s1 b1]|] eqn:E; [|discriminate].
    apply Hbody in E. apply IH in H. congruence.
Qed.

(** A loop that returned ran its last iteration, and that one returned. *)
Lemma for_loop_last {St : Type} (body : Z -> St -> M St) (n : nat) :
  (forall i s b s' b', body i s b = Some (s', b') -> length b' = length b) ->
  forall lo s b r,
    for_loop (S n) lo body s b = Some r ->
    exists s1 b1 r1, length b1 = length b /\ body (lo + Z.of_nat n) s1 b1 = Some r1.
Proof.
  intros Hbody. induction n as [|n IH]; intros lo s b r H.
  - cbn [for_loop] in H. unfold bind in H.
    destruct (body lo s b) as [r1|] eqn:E; [|discriminate].
    exists s, b, r1. split; [reflexivity|].
    replace (lo + Z.of_nat 0) with lo by lia. exact E.
  - cbn [for_loop] in H. unfold bind in H.
    destruct (body lo s b) as [[s1 b1]|] eqn:E; [|discriminate].
    apply Hbody in E.
    destruct (IH (lo + 1) s1 b1 r H) as (s2 & b2 & r2 & Hl & H2).
    exists s2, b2, r2. split; [congruence|].
    replace (lo + Z.of_nat (S n)) with (lo + 1 + Z.of_nat n) by lia. exact H2.
Qed.

Lemma runRow_same_length (cfg : Config) (row : Z) (b b' : Board) (u : unit) :
  runRow cfg row b = Some (u, b') -> length b' = length b.
Proof.
  unfold runRow, bind, ret.
  destruct (getColSumsForGroup cfg _ b) as [[[s v] b1]|] eqn:E1; [|discriminate].
  apply getColSumsForGroup_same_board in E1 as ->.
  unfold for_range.
  destruct (for_loop _ _ _ _ b) as [[p b2]|] eqn:E2; [|discriminate].
  apply for_loop_same_length in E2; [|intros; eapply runRow_body_same_length; eassumption].
  intros [= _ <-]. exact E2.
Qed.

(** X3: among the rows of the buffer, [runRow] returns exactly on the
    interior ones: on the top border row the index of the group above wraps
    around below zero, on the bottom border row the group below lies behind
    the buffer; both accesses are outside of it. *)
Theorem runRow_needs_border_rows (cfg : Config) (b : Board) (row : Z) :
  fits_uint32 cfg ->
  Z.of_nat (length b) = BOARD_SIZE_GROUPS cfg ->
  0 <= row <= R cfg + 1 ->
  (runRow cfg row b <> None <-> 1 <= row <= R cfg).
Proof.
  intros Hfits Hlen Hrow.
  pose proof (GROUPS_PER_ROW_pos cfg Hfits) as HG.
  pose proof (BOARD_SIZE_GROUPS_lt cfg) as Hlt.
  pose proof (BOARD_SIZE_GROUPS_eq cfg Hfits) as EN.
  split.
  - intros Hsome.
    destruct (Z_le_dec 1 row) as [H1|H1];
      [destruct (Z_le_dec row (R cfg)) as [H2|H2]; [lia|]|];
      exfalso; apply Hsome; unfold runRow, bind;
      (destruct (getColSumsForGroup cfg _ b) as [[[s v] b1]|] eqn:E; [|reflexivity]);
      apply getColSumsForGroup_Some in E as (_ & _ & _ & Hlo & Hhi); try lia;
      rewrite wrap32_small in Hlo, Hhi by nia; nia.
  - intros Hr. rewrite (runRow_result cfg Hfits b Hlen row Hr). discriminate.
Qed.

Lemma runRow_needs_border_rows_witness :
  fits_uint32 demo_config /\
  Z.of_nat (length demo_board) = BOARD_SIZE_GROUPS demo_config /\
  0 <= 4 <= R demo_config + 1 /\
  (runRow demo_config 4 demo_board <> None <-> 1 <= 4 <= R demo_config).
Proof.
  assert (H : 0 <= 4 <= R demo_config + 1) by (vm_compute; split; discriminate).
  split; [exact demo_config_fits|]. split; [reflexivity|]. split; [exact H|].
  exact (runRow_needs_border_rows demo_config demo_board 4 demo_config_fits eq_refl H).
Defined.

(** X4: [advance] needs the whole buffer: on a buffer of fewer than
    [BOARD_SIZE_GROUPS] words (and at least one row to run) some access
    falls outside of it. *)
Theorem advance_short_buffer_fails (cfg : Config) (b : Board) :
  fits_uint32 cfg -> 1 <= R cfg ->
  Z.of_nat (length b) < BOARD_SIZE_GROUPS cfg ->
  advance cfg b = None.
Proof.
  intros Hfits HR Hshort.
  pose proof (GROUPS_PER_ROW_pos cfg Hfits) as HG.
  pose proof (BOARD_SIZE_GROUPS_lt cfg) as Hlt.
  pose proof (BOARD_SIZE_GROUPS_eq cfg Hfits) as EN.
  destruct (advance cfg b) as [r|] eqn:E; [exfalso | reflexivity].
  unfold advance, for_range in E. rewrite (row_bound cfg Hfits) in E.
  replace (Z.to_nat (R cfg + 1 - 1)) with (S (Z.to_nat (R cfg - 1))) in E by lia.
  apply for_loop_last in E as (u1 & b1 & r1 & Hl1 & Hrun);
    [|intros i [] b2 [] b2' H; eapply runRow_same_length; exact H].
  replace (1 + Z.of_nat (Z.to_nat (R cfg - 1))) with (R cfg) in Hrun by lia.
  unfold runRow, bind in Hrun.
  destruct (getColSumsForGroup cfg _ b1) as [[[s v] b2]|] eqn:E1; [|discriminate].
  pose proof (getColSumsForGroup_same_board _ _ _ _ _ E1) as ->.
  apply getColSumsForGroup_Some in E1 as (_ & _ & _ & Hlo & Hhi); [|lia].
  assert (Hrs : 0 <= R cfg * GROUPS_PER_ROW cfg < 2 ^ 32) by nia.
  rewrite (wrap32_small _ Hrs) in *.
  destruct (Z.eq_dec (GROUPS_PER_ROW cfg) 1) as [E1|E1]; [nia|].
  unfold for_range in Hrun.
  destruct (for_loop _ _ _ _ b1) as [r2|] eqn:E2; [|discriminate].
  replace (Z.to_nat (GROUPS_PER_ROW cfg - 1))
    with (S (Z.to_nat (GROUPS_PER_ROW cfg - 2))) in E2 by lia.
  apply for_loop_last in E2 as (p3 & b3 & r3 & Hl3 & Hbody);
    [|intros; eapply runRow_body_same_length; eassumption].
  replace (1 + Z.of_nat (Z.to_nat (GROUPS_PER_ROW cfg - 2)))
    with (GROUPS_PER_ROW cfg - 1) in Hbody by lia.
  unfold runRow_body, bind in Hbody.
  destruct (getColSumsForGroup cfg _ b3) as [[[s3 v3] b4]|] eqn:E3; [|discriminate].
  apply getColSumsForGroup_Some in E3 as (_ & _ & _ & Hlo3 & Hhi3); [|lia].
  rewrite wrap32_small in Hhi3 by nia. nia.
Qed.

Lemma advance_short_buffer_fails_witness :
  fits_uint32 demo_config /\ 1 <= R demo_config /\
  Z.of_nat (length (removelast demo_board)) < BOARD_SIZE_GROUPS demo_config /\
  advance demo_config (removelast demo_board) = None.
Proof.
  assert (H1 : 1 <= R demo_config) by (vm_compute; discriminate).
  assert (H2 : Z.of_nat (length (removelast demo_board)) < BOARD_SIZE_GROUPS demo_config)
    by reflexivity.
  split; [exact demo_config_fits|]. split; [exact H1|]. split; [exact H2|].
  exact (advance_short_buffer_fails demo_config (removelast demo_board)
           demo_config_fits H1 H2).
Defined.

(** ** What a generation does to any buffer *)

Section AnyBoard.
Context (cfg : Config) (Hfits : fits_uint32 cfg).
Context (b : Board) (Hlen : Z.of_nat (length b) = BOARD_SIZE_GROUPS cfg).
Local Abbreviation G := (GROUPS_PER_ROW cfg).

Lemma after_rows_length_bound (n : nat) (row : Z) :
0 <= row <= R cfg ->
(row + 1) * G <= Z.of_nat (length (after_rows cfg n b)).
Proof.
intros Hr. pose proof (GROUPS_PER_ROW_pos cfg Hfits) as HG.
rewrite length_after_rows, Hlen, (BOARD_SIZE_GROUPS_eq cfg Hfits). nia.
Qed.

(** Rows that have not run yet are as they were. *)
Lemma after_rows_above (n : nat) (j : Z) :
Z.of_nat n <= R cfg -> (Z.of_nat n + 1) * G <= j ->
word_at (after_rows cfg n b) j = word_at b j.
Proof.
pose proof (GROUPS_PER_ROW_pos cfg Hfits) as HG.
induction n as [|n IH]; intros Hn Hj; [reflexivity|].
cbn [after_rows].
rewrite row_result_frame; [apply IH; nia | lia | exact HG | | nia].
apply after_rows_length_bound. lia.
Qed.

(** Rows that have run are not touched by the rows after them. *)
Lemma after_rows_settled (m n : nat) (j : Z) :
(m <= n)%nat -> Z.of_nat n <= R cfg -> j < (Z.of_nat m + 1) * G ->
word_at (after_rows cfg n b) j = word_at (after_rows cfg m b) j.
Proof.
pose proof (GROUPS_PER_ROW_pos cfg Hfits) as HG.
intros Hmn. induction Hmn as [|n Hmn IH]; intros Hn Hj; [reflexivity|].
cbn [after_rows].
rewrite row_result_frame; [apply IH; lia | lia | exact HG | | nia].
apply after_rows_length_bound. lia.
Qed.

Lemma after_rows_row (row : Z) (g : Z) :
1 <= row <= R cfg -> 0 <= g < G - 1 ->
word_at (after_rows cfg (Z.to_nat (R cfg)) b) (row * G + g)
= word_at (row_prefix cfg (after_rows cfg (Z.to_nat (row - 1)) b) (row * G) (G - 1))
          (row * G + g).
Proof.
intros Hr Hg.
rewrite (after_rows_settled (Z.to_nat row)) by (try lia; nia).
replace (Z.to_nat row) with (S (Z.to_nat (row - 1))) by lia.
cbn [after_rows]. do 3 f_equal. lia.
Qed.

End AnyBoard.

(** X5: on any buffer of [BOARD_SIZE_GROUPS] words, whatever its words
    hold, one [advance] returns a buffer of the same length in which every
    interior cell has the bit 0 it had before in bit 1, and every word of
    interior cells is a [uint64_t] with bits 2 and 3 of all lanes clear. *)
Theorem advance_keeps_history (cfg : Config) (b : Board) :
  fits_uint32 cfg ->
  Z.of_nat (length b) = BOARD_SIZE_GROUPS cfg ->
  exists b', advance cfg b = Some (tt, b') /\
    length b' = length b /\
    (forall row col, 1 <= row <= R cfg -> 0 <= col < real_columns cfg ->
       previous cfg b' row col = alive cfg b row col) /\
    (forall j, interior_index cfg j ->
       0 <= word_at b' j < 2 ^ 64 /\ Z.land (word_at b' j) TOP_NYBBLET_BITTMASK = 0).
Proof.
  intros Hfits Hlen. pose proof (GROUPS_PER_ROW_pos cfg Hfits) as HG.
  exists (after_rows cfg (Z.to_nat (R cfg)) b).
  split; [apply advance_result; assumption|].
  split; [apply length_after_rows|]. split.
  - intros row col Hr Hc.
    assert (Hg : 0 <= col / 16 < GROUPS_PER_ROW cfg - 1)
      by (rewrite real_columns_eq in Hc; Z.div_mod_to_equations; lia).
    destruct (cell_same_word cfg
                (row_prefix cfg (after_rows cfg (Z.to_nat (row - 1)) b)
                            (row * GROUPS_PER_ROW cfg) (GROUPS_PER_ROW cfg - 1))
                (after_rows cfg (Z.to_nat (R cfg)) b) row col) as [_ ->].
    { rewrite cell_group_eq. apply after_rows_row; assumption. }
    destruct (row_result_cell cfg (after_rows cfg (Z.to_nat (row - 1)) b) row
                ltac:(lia) HG
                (after_rows_length_bound cfg Hfits b Hlen _ row ltac:(lia)) col Hc)
      as [_ ->].
    apply cell_same_word. rewrite cell_group_eq.
    apply after_rows_above; try assumption; [lia|].
    rewrite Z2Nat.id by lia. nia.
  - intros j (row & g & Hr & Hg & ->).
    rewrite after_rows_row by assumption.
    apply row_result_two_bit; try lia.
    apply after_rows_length_bound; (assumption || lia).
Qed.

Lemma advance_keeps_history_witness :
  fits_uint32 demo_config /\
  Z.of_nat (length demo_board) = BOARD_SIZE_GROUPS demo_config /\
  exists b', advance demo_config demo_board = Some (tt, b') /\
             previous demo_config b' 2 15 = true /\
             previous demo_config b' 1 16 = false.
Proof.
  split; [exact demo_config_fits|]. split; [reflexivity|].
  destruct (advance_keeps_history demo_config demo_board demo_config_fits eq_refl)
    as (b' & Hrun & _ & Hprev & _).
  exists b'. split; [exact Hrun|].
  assert (H1 : 1 <= 2 <= R demo_config) by (vm_compute; split; discriminate).
  assert (H2 : 1 <= 1 <= R demo_config) by (vm_compute; split; discriminate).
  assert (H3 : 0 <= 15 < real_columns demo_config)
    by (vm_compute; split; [discriminate | reflexivity]).
  assert (H4 : 0 <= 16 < real_columns demo_config)
    by (vm_compute; split; [discriminate | reflexivity]).
  split; [rewrite (Hprev 2 15 H1 H3) | rewrite (Hprev 1 16 H2 H4)]; reflexivity.
Defined.

Section Insensitive.
Context (cfg : Config) (Hfits : fits_uint32 cfg).
Local Abbreviation G := (GROUPS_PER_ROW cfg).

Lemma next_word_agree (n : Z) (c1 c2 : Board) (g : Z) :
rows_agree cfg n c1 c2 -> 0 <= g < G - 1 ->
next_word cfg c1 ((n + 1) * G) g = next_word cfg c2 ((n + 1) * G) g.
Proof.
intros Ha Hg.
assert (Hcs : forall idx, idx < (n + 2) * G -> col_sums cfg c1 idx = col_sums cfg c2 idx).
{ intros idx Hidx. unfold col_sums, self_vals.
  rewrite (agree_low cfg n c1 c2 Ha idx), (agree_low cfg n c1 c2 Ha (idx + G)).
  rewrite (agree_top cfg n c1 c2 Ha (idx - G)) by (left; lia). reflexivity. }
unfold next_word, self_vals.
rewrite (agree_low cfg n c1 c2 Ha), !Hcs by lia.
destruct (g =? 0); reflexivity.
Qed.

Lemma padding_not_interior (row : Z) :
~ interior_index cfg (row * G + (G - 1)).
Proof.
intros (row' & g' & Hr & Hg & E).
assert (row' = row) by nia. subst row'. lia.
Qed.

Lemma rows_agree_step (n : Z) (c1 c2 : Board) :
0 <= n < R cfg ->
(n + 2) * G <= Z.of_nat (length c1) -> (n + 2) * G <= Z.of_nat (length c2) ->
rows_agree cfg n c1 c2 ->
rows_agree cfg (n + 1) (row_prefix cfg c1 ((n + 1) * G) (G - 1))
                   (row_prefix cfg c2 ((n + 1) * G) (G - 1)).
Proof.
intros Hn Hl1 Hl2 Ha. pose proof (GROUPS_PER_ROW_pos cfg Hfits) as HG.
assert (Hw : forall j,
          ((n + 1) * G <= j < (n + 1) * G + (G - 1) /\
           word_at (row_prefix cfg c1 ((n + 1) * G) (G - 1)) j
           = word_at (row_prefix cfg c2 ((n + 1) * G) (G - 1)) j) \/
          (~ ((n + 1) * G <= j < (n + 1) * G + (G - 1)) /\
           word_at (row_prefix cfg c1 ((n + 1) * G) (G - 1)) j = word_at c1 j /\
           word_at (row_prefix cfg c2 ((n + 1) * G) (G - 1)) j = word_at c2 j)).
{ intros j. rewrite !word_at_row_prefix by nia.
  destruct (Z.leb_spec ((n + 1) * G) j), (Z.ltb_spec j ((n + 1) * G + (G - 1)));
    simpl; try (right; split; [lia | split; reflexivity]).
  left. split; [lia|]. apply next_word_agree; [exact Ha | lia]. }
split.
- intros j. destruct (Hw j) as [[_ ->]|(_ & -> & ->)];
    [reflexivity | apply (agree_low cfg n c1 c2 Ha)].
- intros j Hj. destruct (Hw j) as [[_ ->]|(Hout & -> & ->)]; [reflexivity|].
  apply (agree_top cfg n c1 c2 Ha).
  destruct Hj as [Hj|Hj]; [|right; exact Hj].
  destruct (Z_lt_le_dec j ((n + 1) * G)) as [Hlt|Hge]; [left; exact Hlt|].
  right. replace j with ((n + 1) * G + (G - 1)) by lia. apply padding_not_interior.
- intros j Hint Hj. destruct (Hw j) as [[_ ->]|(Hout & -> & ->)]; [reflexivity|].
  apply (agree_done cfg n c1 c2 Ha); [exact Hint|].
  destruct (Z_lt_le_dec j ((n + 1) * G)) as [Hlt|Hge]; [exact Hlt|].
  exfalso. apply (padding_not_interior (n + 1)).
  replace ((n + 1) * G + (G - 1)) with j by lia. exact Hint.
Qed.

Lemma rows_agree_after (b1 b2 : Board) (n : nat) :
Z.of_nat (length b1) = BOARD_SIZE_GROUPS cfg -> same_seen cfg b1 b2 ->
Z.of_nat n <= R cfg ->
rows_agree cfg (Z.of_nat n) (after_rows cfg n b1) (after_rows cfg n b2).
Proof.
intros Hlen (Hl & Hlow & Htop) Hn. pose proof (GROUPS_PER_ROW_pos cfg Hfits) as HG.
induction n as [|n IH].
- split; [exact Hlow | | intros j (row & g & Hr & Hg & ->) Hj; nia].
  intros j [Hj|Hj]; [|apply Htop; exact Hj].
  apply Htop. intros (row & g & Hr & Hg & ->). nia.
- cbn [after_rows]. replace (Z.of_nat (S n)) with (Z.of_nat n + 1) by lia.
  apply rows_agree_step; [lia | | | apply IH; lia];
    rewrite length_after_rows, ?Hlen, <- ?Hl, ?Hlen,
      (BOARD_SIZE_GROUPS_eq cfg Hfits); nia.
Qed.

End Insensitive.


Lemma demo_board_junk_same_seen : same_seen demo_config demo_board demo_board_junk.
Proof.
  assert (Hout : forall j, ~ 0 <= j < 15 ->
            word_at demo_board j = 0 /\ word_at demo_board_junk j = 0).
  { intros j Hj. split; apply word_at_outside; exact Hj. }
  split; [reflexivity|]. split.
  - intros j. destruct (Z_le_dec 0 j) as [H0|H0];
      [destruct (Z_lt_dec j 15) as [H1|H1]|];
      try (destruct (Hout j ltac:(lia)) as [-> ->]; reflexivity).
    assert (E : j = 0 \/ j = 1 \/ j = 2 \/ j = 3 \/ j = 4 \/ j = 5 \/ j = 6 \/ j = 7 \/
                j = 8 \/ j = 9 \/ j = 10 \/ j = 11 \/ j = 12 \/ j = 13 \/ j = 14) by lia.
    repeat (destruct E as [->|E]; [reflexivity|]). subst j. reflexivity.
  - intros j Hj. destruct (Z_le_dec 0 j) as [H0|H0];
      [destruct (Z_lt_dec j 15) as [H1|H1]|];
      try (destruct (Hout j ltac:(lia)) as [-> ->]; reflexivity).
    assert (E : j = 0 \/ j = 1 \/ j = 2 \/ j = 3 \/ j = 4 \/ j = 5 \/ j = 6 \/ j = 7 \/
                j = 8 \/ j = 9 \/ j = 10 \/ j = 11 \/ j = 12 \/ j = 13 \/ j = 14) by lia.
    assert (Hi : forall row g, 1 <= row <= 3 -> 0 <= g < 2 -> j <> row * 3 + g).
    { intros row g Hr Hg ->. apply Hj. exists row, g.
      change (R demo_config) with 3. change (GROUPS_PER_ROW demo_config) with 3.
      repeat split; lia. }
    repeat (destruct E as [->|E];
            [first [reflexivity
                   | exfalso;
                     first [apply (Hi 1 0); lia | apply (Hi 1 1); lia
                           | apply (Hi 2 0); lia | apply (Hi 2 1); lia
                           | apply (Hi 3 0); lia | apply (Hi 3 1); lia]]|]).
    subst j. reflexivity.
Qed.


Lemma border_not_interior (cfg : Config) (row group : Z) :
  fits_uint32 cfg ->
  0 <= group < GROUPS_PER_ROW cfg ->
  row = 0 \/ row = R cfg + 1 \/ group = GROUPS_PER_ROW cfg - 1 ->
  ~ interior_index cfg (row * GROUPS_PER_ROW cfg + group).
Proof.
  intros Hfits Hg Hb (row' & g' & Hr & Hg' & E).
  assert (row' = row) by nia. subst row'. lia.
Qed.

(** Any number of generations on a board with dead border: the grid follows
    the reference simulation and the border stays dead. *)
Lemma advance_reps_grid (cfg : Config) (Hfits : fits_uint32 cfg) (reps : nat) :
  forall b : Board,
    Z.of_nat (length b) = BOARD_SIZE_GROUPS cfg -> border_zero cfg b ->
    exists b', advance_reps cfg reps b = Some (tt, b') /\
               Z.of_nat (length b') = BOARD_SIZE_GROUPS cfg /\
               grid_of_board cfg b' = reference_run reps (grid_of_board cfg b).
Proof.
  induction reps as [|reps IH]; intros b Hlen Hborder.
  - exists b. repeat split; (reflexivity || assumption).
  - rewrite (advance_reps_step cfg Hfits) by exact Hlen.
    destruct (IH (after_rows cfg (Z.to_nat (R cfg)) b)) as (b' & Hrun & Hl & Hgrid).
    + rewrite length_after_rows. exact Hlen.
    + apply after_rows_border; assumption.
    + exists b'. split; [exact Hrun|]. split; [exact Hl|].
      rewrite Hgrid. cbn [reference_run]. f_equal. apply after_rows_grid; assumption.
Qed.

Lemma init_board_grid (cfg : Config) (Hfits : fits_uint32 cfg) (draw : nat -> Z) :
  exists drawn b,
    init_board cfg draw (calloc (BOARD_SIZE_GROUPS cfg)) = Some (drawn, b) /\
    Z.of_nat (length b) = BOARD_SIZE_GROUPS cfg /\
    border_zero cfg b /\
    grid_of_board cfg b = drawn_grid cfg draw.
Proof.
  destruct (calloc_initial cfg) as [Hlen0 _].
  destruct (init_board_progress cfg Hfits draw _ Hlen0) as (drawn & b & Hrun & Hp).
  exists drawn, b. split; [exact Hrun|].
  pose proof (init_progress_alive cfg draw _ b drawn Hp) as Halive.
  destruct Hp as (_ & Hl & Hframe & _).
  split; [rewrite Hl; exact Hlen0|]. split.
  - intros row group Hr Hg Hb.
    rewrite Hframe by (apply border_not_interior; assumption).
    apply word_at_calloc.
  - unfold grid_of_board, drawn_grid. apply map_ext_in. intros r Hr.
    apply map_ext_in. intros c Hc. unfold indices in Hr, Hc.
    apply in_map_iff in Hr as (n & <- & Hn). apply in_seq in Hn.
    apply in_map_iff in Hc as (m & <- & Hm). apply in_seq in Hm.
    rewrite Halive by lia. do 2 f_equal. lia.
Qed.



(** ** A written group, as the rows next to it read it *)

(** X8: after [updateBoardIndex] has written a group, [getColSumsForGroup]
    for the group one row below counts bit 0 of the previous state passed
    (it reads the written word shifted right by one), and
    [getColSumsForGroup] for the group one row above counts bit 0 of the new
    state: a row read from below shows the generation before the write, read
    from above the generation after it. *)
Theorem written_group_read_by_neighbours
  (cfg : Config) (b : Board) (idx new_state prev_state : Z) :
  1 <= GROUPS_PER_ROW cfg ->
  Z.of_nat (length b) <= 2 ^ 64 ->
  2 * GROUPS_PER_ROW cfg <= idx ->
  idx + 2 * GROUPS_PER_ROW cfg < Z.of_nat (length b) ->
  exists b' below above vals_below vals_above,
    updateBoardIndex idx new_state prev_state b = Some (tt, b') /\
    getColSumsForGroup cfg (idx + GROUPS_PER_ROW cfg) b' = Some ((below, vals_below), b') /\
    getColSumsForGroup cfg (idx - GROUPS_PER_ROW cfg) b' = Some ((above, vals_above), b') /\
    forall i, 0 <= i < 16 ->
      lane i below
      = Z.b2z (Z.testbit (word_at b (idx + GROUPS_PER_ROW cfg)) (4 * i))
        + (Z.b2z (Z.testbit prev_state (4 * i))
           + Z.b2z (Z.testbit (word_at b (idx + 2 * GROUPS_PER_ROW cfg)) (4 * i))) /\
      lane i above
      = Z.b2z (Z.testbit (word_at b (idx - GROUPS_PER_ROW cfg)) (4 * i))
        + (Z.b2z (Z.testbit (word_at b (idx - 2 * GROUPS_PER_ROW cfg)) (4 * i + 1))
           + Z.b2z (Z.testbit new_state (4 * i))).
Proof.
  intros HG Hlen Hlo Hhi.
  assert (Hin : 0 <= idx < Z.of_nat (length b)) by lia.
  set (b' := <[Z.to_nat idx := packed_word new_state prev_state]> b).
  assert (Hl : length b' = length b) by apply length_insert.
  exists b', (col_sums cfg b' (idx + GROUPS_PER_ROW cfg)),
         (col_sums cfg b' (idx - GROUPS_PER_ROW cfg)),
         (self_vals b' (idx + GROUPS_PER_ROW cfg)),
         (self_vals b' (idx - GROUPS_PER_ROW cfg)).
  split; [apply updateBoardIndex_in_range; exact Hin|].
  split; [apply getColSumsForGroup_in_range; rewrite ?Hl; lia|].
  split; [apply getColSumsForGroup_in_range; rewrite ?Hl; lia|].
  intros i Hi.
  destruct (col_sums_lanes cfg b' (idx + GROUPS_PER_ROW cfg)) as [_ H1].
  destruct (col_sums_lanes cfg b' (idx - GROUPS_PER_ROW cfg)) as [_ H2].
  rewrite (H1 i Hi), (H2 i Hi). unfold b'.
  rewrite !word_at_insert by exact Hin.
  replace (idx + GROUPS_PER_ROW cfg - GROUPS_PER_ROW cfg) with idx by lia.
  replace (idx - GROUPS_PER_ROW cfg + GROUPS_PER_ROW cfg) with idx by lia.
  rewrite Z.eqb_refl.
  destruct (Z.eqb_spec (idx + GROUPS_PER_ROW cfg) idx); [lia|].
  destruct (Z.eqb_spec (idx - GROUPS_PER_ROW cfg) idx); [lia|].
  destruct (Z.eqb_spec (idx + GROUPS_PER_ROW cfg + GROUPS_PER_ROW cfg) idx); [lia|].
  destruct (Z.eqb_spec (idx - GROUPS_PER_ROW cfg - GROUPS_PER_ROW cfg) idx); [lia|].
  destruct (packed_word_bits new_state prev_state i Hi) as (E0 & E1 & _).
  rewrite E0, E1.
  replace (idx + GROUPS_PER_ROW cfg + GROUPS_PER_ROW cfg)
    with (idx + 2 * GROUPS_PER_ROW cfg) by lia.
  replace (idx - GROUPS_PER_ROW cfg - GROUPS_PER_ROW cfg)
    with (idx - 2 * GROUPS_PER_ROW cfg) by lia.
  split; reflexivity.
Qed.

Lemma written_group_read_by_neighbours_witness :
  1 <= GROUPS_PER_ROW demo_config /\
  Z.of_nat (length demo_board) <= 2 ^ 64 /\
  2 * GROUPS_PER_ROW demo_config <= 7 /\
  7 + 2 * GROUPS_PER_ROW demo_config < Z.of_nat (length demo_board) /\
  exists b' below above vals_below vals_above,
    updateBoardIndex 7 0x1000000000000000 0x1100000000000000 demo_board = Some (tt, b') /\
    getColSumsForGroup demo_config (7 + GROUPS_PER_ROW demo_config) b'
    = Some ((below, vals_below), b') /\
    getColSumsForGroup demo_config (7 - GROUPS_PER_ROW demo_config) b'
    = Some ((above, vals_above), b') /\
    lane 14 below = 1 /\ lane 14 above = 0.
Proof.
  assert (H1 : 1 <= GROUPS_PER_ROW demo_config) by (vm_compute; discriminate).
  assert (H2 : Z.of_nat (length demo_board) <= 2 ^ 64) by (vm_compute; discriminate).
  assert (H3 : 2 * GROUPS_PER_ROW demo_config <= 7) by (vm_compute; discriminate).
  assert (H4 : 7 + 2 * GROUPS_PER_ROW demo_config < Z.of_nat (length demo_board))
    by reflexivity.
  repeat (split; [assumption|]).
  destruct (written_group_read_by_neighbours demo_config demo_board 7
              0x1000000000000000 0x1100000000000000 H1 H2 H3 H4)
    as (b' & below & above & vb & va & Hu & Hb & Ha & Hl).
  exists b', below, above, vb, va. repeat (split; [assumption|]).
  destruct (Hl 14 ltac:(lia)) as [-> ->]. split; reflexivity.
Defined.

(** ** Rows that are not neighbours *)

Section Commute.
Context (cfg : Config) (Hfits : fits_uint32 cfg).
Context (b : Board) (Hlen : Z.of_nat (length b) = BOARD_SIZE_GROUPS cfg).
Local Abbreviation G := (GROUPS_PER_ROW cfg).
Local Abbreviation row_result := (fun c row => row_prefix cfg c (row * G) (G - 1)).

Lemma row_length_bound (row : Z) (c : Board) :
length c = length b -> 1 <= row <= R cfg -> (row + 1) * G <= Z.of_nat (length c).
Proof.
intros Hl Hr. pose proof (GROUPS_PER_ROW_pos cfg Hfits) as HG.
rewrite Hl, Hlen, (BOARD_SIZE_GROUPS_eq cfg Hfits). nia.
Qed.

(** The words a row writes depend on the rows around it only. *)
Lemma next_word_local (c1 c2 : Board) (row g : Z) :
0 <= g < G - 1 ->
(forall j, (row - 1) * G <= j < (row + 2) * G -> word_at c1 j = word_at c2 j) ->
next_word cfg c1 (row * G) g = next_word cfg c2 (row * G) g.
Proof.
intros Hg Hw.
assert (Hcs : forall idx, row * G <= idx < (row + 1) * G ->
          col_sums cfg c1 idx = col_sums cfg c2 idx
          /\ self_vals c1 idx = self_vals c2 idx).
{ intros idx Hidx. unfold col_sums, self_vals.
  rewrite (Hw idx), (Hw (idx - G)), (Hw (idx + G)) by lia. split; reflexivity. }
unfold next_word.
destruct (Hcs (row * G + g) ltac:(lia)) as [-> ->].
destruct (Hcs (row * G + g + 1) ltac:(lia)) as [-> _].
destruct (Z.eqb_spec g 0); [reflexivity|].
destruct (Hcs (row * G + g - 1) ltac:(lia)) as [-> _]. reflexivity.
Qed.

Lemma rows_commute (r1 r2 : Z) :
1 <= r1 <= R cfg -> 1 <= r2 <= R cfg -> r1 + 2 <= r2 \/ r2 + 2 <= r1 ->
row_result (row_result b r1) r2 = row_result (row_result b r2) r1.
Proof.
intros H1 H2 Hfar. pose proof (GROUPS_PER_ROW_pos cfg Hfits) as HG.
assert (L1 := row_length_bound r1 b eq_refl H1).
assert (L2 := row_length_bound r2 b eq_refl H2).
assert (L12 := row_length_bound r2 (row_result b r1) (length_row_prefix _ _ _ _) H2).
assert (L21 := row_length_bound r1 (row_result b r2) (length_row_prefix _ _ _ _) H1).
apply board_eq; [rewrite !length_row_prefix; reflexivity|].
intros j _. cbv beta.
rewrite (word_at_row_prefix cfg (row_prefix cfg b (r1 * G) (G - 1))) by nia.
rewrite (word_at_row_prefix cfg (row_prefix cfg b (r2 * G) (G - 1))) by nia.
rewrite !(word_at_row_prefix cfg b) by nia.
destruct (Z.leb_spec (r1 * G) j), (Z.ltb_spec j (r1 * G + (G - 1)));
  destruct (Z.leb_spec (r2 * G) j), (Z.ltb_spec j (r2 * G + (G - 1)));
  cbn [andb]; try reflexivity; try nia.
all: apply next_word_local; [lia|]; intros k Hk;
  first [ apply row_result_frame; (lia || nia)
        | symmetry; apply row_result_frame; (lia || nia) ].
Qed.

End Commute.

(** X9: rows that are not neighbours can run in either order: for two
    interior rows at least two apart, [runRow] of one then the other returns
    the same buffer as [runRow] of the other then the one. *)
Theorem runRow_commutes_when_apart (cfg : Config) (b : Board) (r1 r2 : Z) :
  fits_uint32 cfg ->
  Z.of_nat (length b) = BOARD_SIZE_GROUPS cfg ->
  1 <= r1 <= R cfg -> 1 <= r2 <= R cfg -> r1 + 2 <= r2 \/ r2 + 2 <= r1 ->
  exists b', advance_schedule cfg [r1; r2] b = Some (tt, b') /\
             advance_schedule cfg [r2; r1] b = Some (tt, b').
Proof.
  intros Hfits Hlen H1 H2 Hfar.
  exists (after_schedule cfg [r1; r2] b). split.
  - apply advance_schedule_result; [exact Hfits | exact Hlen |].
    do 2 (apply Forall_cons; split; [assumption|]). apply List.Forall_nil.
  - rewrite (advance_schedule_result cfg Hfits [r2; r1] b Hlen)
      by (do 2 (apply Forall_cons; split; [assumption|]); apply List.Forall_nil).
    do 2 f_equal. unfold after_schedule. cbn [fold_left].
    symmetry. apply rows_commute; assumption.
Qed.

Lemma runRow_commutes_when_apart_witness :
  fits_uint32 demo_config /\
  Z.of_nat (length demo_board) = BOARD_SIZE_GROUPS demo_config /\
  exists b', advance_schedule demo_config [1; 3] demo_board = Some (tt, b') /\
             advance_schedule demo_config [3; 1] demo_board = Some (tt, b').
Proof.
  split; [exact demo_config_fits|]. split; [reflexivity|].
  apply (runRow_commutes_when_apart demo_config demo_board 1 3 demo_config_fits eq_refl).
  - vm_compute. split; discriminate.
  - vm_compute. split; discriminate.
  - left. vm_compute. discriminate.
Defined.

